(** * The relation-based access-control engine of go-tangra-paperless

    A shallow embedding of [internal/authz/engine.go]: the decision
    procedure [Check] (direct grants, role grants, tenant wildcard,
    inheritance through the category hierarchy), the aggregation pass
    [GetEffectivePermissions] and the listing [ListAccessibleResources],
    together with the properties the specification states about them.

    Conventions of the embedding:
    - a Go result pair [(v, err)] is a pair whose second component is an
      [option error]; the code decides which component it reads;
    - the two ports ([PermissionStore], [ResourceLookup]) are records of
      functions: during one call of the engine the backing store is a fixed
      state, and the [context.Context] every port call receives is part of
      that state (a cancelled context shows as ports that answer with an
      error);
    - [time.Now()] is the parameter [now];
    - the [for] loop of [checkHierarchy] is a recursion on a fuel counter;
      [None] means that the fuel ran out, never that the engine denied;
    - a Go [map[K]bool] that only ever stores [true] is a [gset K]; ranging
      over it yields its elements in an unspecified order. *)

From Stdlib Require Import ZArith NArith String List Lia.
From stdpp Require Import base decidable countable finite gmap sets fin_sets list strings.

Local Open Scope string_scope.

(** ** Data model *)

(** Modelled from the spec: the declaration of [ResourceType] and of its
    constants is outside the engine file.  The spec gives ResourceType =
    {Document, Category} (extensible); [checkHierarchy] tests a resource type
    against the two constants in an if / else-if without a final else, so
    every other resource type is kept as a third kind. *)
Inductive ResourceType : Type :=
  | ResourceTypeDocument
  | ResourceTypeCategory
  | ResourceTypeOther (name : string).

(** Modelled from the spec: the declaration of [SubjectType] is outside the
    engine file.  The spec gives SubjectType = {User, Role, Tenant}. *)
Inductive SubjectType : Type :=
  | SubjectTypeUser
  | SubjectTypeRole
  | SubjectTypeTenant.

(** Modelled from the spec: the declaration of [Relation] is outside the
    engine file.  The spec gives Relation = {Unspecified, Viewer, Editor,
    Sharer, Owner}; [RelationUnspecified] is the zero value, the one a
    [var highestRelation Relation] starts with. *)
Inductive Relation : Type :=
  | RelationUnspecified
  | RelationViewer
  | RelationEditor
  | RelationSharer
  | RelationOwner.

(** Modelled from the spec: the declaration of [Permission] is outside the
    engine file.  The spec gives Permission = {Read, Write, Delete, Share,
    Download}. *)
Inductive Permission : Type :=
  | PermissionRead
  | PermissionWrite
  | PermissionDelete
  | PermissionShare
  | PermissionDownload.

#[global] Instance ResourceType_eq_dec : EqDecision ResourceType.
Proof. solve_decision. Defined.
#[global] Instance SubjectType_eq_dec : EqDecision SubjectType.
Proof. solve_decision. Defined.
#[global] Instance Relation_eq_dec : EqDecision Relation.
Proof. solve_decision. Defined.
#[global] Instance Permission_eq_dec : EqDecision Permission.
Proof. solve_decision. Defined.

Definition Permission_to_nat (p : Permission) : nat :=
  match p with
  | PermissionRead => 0
  | PermissionWrite => 1
  | PermissionDelete => 2
  | PermissionShare => 3
  | PermissionDownload => 4
  end.

Definition Permission_of_nat (n : nat) : option Permission :=
  match n with
  | 0 => Some PermissionRead
  | 1 => Some PermissionWrite
  | 2 => Some PermissionDelete
  | 3 => Some PermissionShare
  | 4 => Some PermissionDownload
  | _ => None
  end.

#[global] Program Instance Permission_countable : Countable Permission :=
  inj_countable Permission_to_nat Permission_of_nat _.
Next Obligation. by intros []. Qed.

(** Modelled from the spec: the grants table (relation -> permission set),
    declared outside the engine file.  Owner: Read, Write, Delete, Share,
    Download; Editor: Read, Write, Download; Viewer: Read, Download; Sharer:
    Read, Share, Download; Unspecified: none. *)
Definition RelationPermissions (relation : Relation) : list Permission :=
  match relation with
  | RelationOwner =>
      [PermissionRead; PermissionWrite; PermissionDelete; PermissionShare;
       PermissionDownload]
  | RelationEditor => [PermissionRead; PermissionWrite; PermissionDownload]
  | RelationViewer => [PermissionRead; PermissionDownload]
  | RelationSharer => [PermissionRead; PermissionShare; PermissionDownload]
  | RelationUnspecified => []
  end.

(** Modelled from the spec: [RelationGrantsPermission] is declared outside
    the engine file; by the spec it is a lookup in the grants table, "the
    single source of truth for does relation R grant permission P". *)
Definition RelationGrantsPermission (relation : Relation) (permission : Permission) : bool :=
  bool_decide (permission ∈ RelationPermissions relation).

(** Modelled from the spec: the relation ranking, declared outside the
    engine file; a total order Owner > Editor > Sharer > Viewer >
    Unspecified. *)
Definition relationRank (relation : Relation) : nat :=
  match relation with
  | RelationUnspecified => 0
  | RelationViewer => 1
  | RelationSharer => 2
  | RelationEditor => 3
  | RelationOwner => 4
  end.

(** Modelled from the spec: [IsRelationAtLeast] is declared outside the
    engine file; by the spec it compares two relations in the ranking, and
    it is the test with which [GetEffectivePermissions] keeps the highest
    relation. *)
Definition IsRelationAtLeast (relation minimum : Relation) : bool :=
  (relationRank minimum <=? relationRank relation)%nat.

(** Instants of [time.Time] as integers (nanoseconds on one clock);
    [t.Before(u)] is the strict order. *)
Definition Time : Type := Z.
Definition Before (t u : Time) : bool := (t <? u)%Z.

(** A Go [error] value, by its message. *)
Definition error : Type := string.

Record PermissionTuple : Type := {
  tuple_ID : N;
  tuple_TenantID : N;
  tuple_ResourceType : ResourceType;
  tuple_ResourceID : string;
  tuple_Relation : Relation;
  tuple_SubjectType : SubjectType;
  tuple_SubjectID : string;
  tuple_GrantedBy : option N;
  tuple_ExpiresAt : option Time;
  tuple_CreateTime : Time
}.

(** The methods of the two ports that the checking and listing paths call. *)
Record ResourceLookup : Type := {
  GetCategoryParentID : N -> string -> option string * option error;
  GetDocumentCategoryID : N -> string -> option string * option error;
  GetUserRoleIDs : N -> string -> list string * option error
}.

Record PermissionStore : Type := {
  HasPermission :
    N -> ResourceType -> string -> SubjectType -> string ->
    option PermissionTuple * option error;
  ListResourcesBySubject :
    N -> SubjectType -> string -> ResourceType -> list string * option error
}.

Record Engine : Type := {
  store : PermissionStore;
  lookup : ResourceLookup
}.

Record CheckContext : Type := {
  check_TenantID : N;
  check_UserID : string;
  check_ResourceType : ResourceType;
  check_ResourceID : string;
  check_Permission : Permission
}.

Record CheckResult : Type := {
  result_Allowed : bool;
  result_Relation : option Relation;
  result_Reason : string
}.

(** [CheckResult{Allowed: false, Reason: reason}]: the relation stays nil. *)
Definition denied (reason : string) : CheckResult :=
  {| result_Allowed := false; result_Relation := None; result_Reason := reason |}.

(** [result.Reason = reason] on a copy of [result]. *)
Definition withReason (result : CheckResult) (reason : string) : CheckResult :=
  {| result_Allowed := result_Allowed result;
     result_Relation := result_Relation result;
     result_Reason := reason |}.

(** [checkWithPerm := check; checkWithPerm.Permission = perm]. *)
Definition withPermission (check : CheckContext) (perm : Permission) : CheckContext :=
  {| check_TenantID := check_TenantID check;
     check_UserID := check_UserID check;
     check_ResourceType := check_ResourceType check;
     check_ResourceID := check_ResourceID check;
     check_Permission := perm |}.

(** The check context of one ancestor level of the walk:
    [categoryCheck := CheckContext{...}] with the tenant, the user and the
    permission of [check] and the category [categoryID] as the resource. *)
Definition categoryCheckOf (check : CheckContext) (categoryID : string) : CheckContext :=
  {| check_TenantID := check_TenantID check;
     check_UserID := check_UserID check;
     check_ResourceType := ResourceTypeCategory;
     check_ResourceID := categoryID;
     check_Permission := check_Permission check |}.

(** ** The engine *)

Section EngineOps.

Variable e : Engine.
Variable now : Time.

(** [tuple.ExpiresAt != nil && tuple.ExpiresAt.Before(time.Now())] *)
Definition expired (tuple : PermissionTuple) : bool :=
  match tuple_ExpiresAt tuple with
  | Some t => Before t now
  | None => false
  end.

Definition checkDirectPermission (check : CheckContext)
    (subjectType : SubjectType) (subjectID : string) : CheckResult :=
  let '(tuple, err) :=
    HasPermission (store e) (check_TenantID check) (check_ResourceType check)
      (check_ResourceID check) subjectType subjectID in
  match err with
  | Some _ => denied "error checking permission"
  | None =>
      match tuple with
      | None => denied "no direct permission"
      | Some tuple =>
          if expired tuple then denied "permission expired"
          else if RelationGrantsPermission (tuple_Relation tuple) (check_Permission check)
          then {| result_Allowed := true;
                  result_Relation := Some (tuple_Relation tuple);
                  result_Reason := "direct permission" |}
          else denied "relation does not grant permission"
      end
  end.

(** The loop over the role ids in [Check]: [Some result] is the [return]
    inside the loop, [None] is falling out of it. *)
Fixpoint checkRoles (check : CheckContext) (roleIDs : list string) : option CheckResult :=
  match roleIDs with
  | [] => None
  | roleID :: rest =>
      let result := checkDirectPermission check SubjectTypeRole roleID in
      if result_Allowed result then Some result else checkRoles check rest
  end.

(** The loop over the role ids inside the hierarchy walk, which rewrites
    the reason before returning. *)
Fixpoint checkRolesInherited (categoryCheck : CheckContext) (roleIDs : list string)
    : option CheckResult :=
  match roleIDs with
  | [] => None
  | roleID :: rest =>
      let result := checkDirectPermission categoryCheck SubjectTypeRole roleID in
      if result_Allowed result
      then Some (withReason result "inherited from parent category via role")
      else checkRolesInherited categoryCheck rest
  end.

(** The three checks of one iteration of the walk, on the ancestor
    [categoryID]: [Some result] is a [return] from the loop body. *)
Definition checkLevel (check : CheckContext) (roleIDs : list string)
    (categoryID : string) : option CheckResult :=
  let categoryCheck := categoryCheckOf check categoryID in
  let result := checkDirectPermission categoryCheck SubjectTypeUser (check_UserID check) in
  if result_Allowed result
  then Some (withReason result "inherited from parent category")
  else
    match checkRolesInherited categoryCheck roleIDs with
    | Some result => Some result
    | None =>
        let result := checkDirectPermission categoryCheck SubjectTypeTenant "all" in
        if result_Allowed result
        then Some (withReason result "inherited from parent category via tenant")
        else None
    end.

(** [for parentCategoryID != nil { ... }] with its [visited] map; one unit
    of fuel pays for one run of the loop body.  Both [break]s and the loop
    exit reach the final [return]. *)
Fixpoint walkHierarchy (fuel : nat) (check : CheckContext) (roleIDs : list string)
    (visited : gset string) (parentCategoryID : option string) {struct fuel}
    : option CheckResult :=
  match parentCategoryID with
  | None => Some (denied "no inherited permission")
  | Some categoryID =>
      match fuel with
      | O => None
      | S fuel' =>
          if decide (categoryID ∈ visited)
          then Some (denied "no inherited permission")
          else
            let visited' := {[categoryID]} ∪ visited in
            match checkLevel check roleIDs categoryID with
            | Some result => Some result
            | None =>
                let '(nextParent, err) :=
                  GetCategoryParentID (lookup e) (check_TenantID check) categoryID in
                match err with
                | Some _ => Some (denied "no inherited permission")
                | None => walkHierarchy fuel' check roleIDs visited' nextParent
                end
            end
      end
  end.

Definition checkHierarchy (fuel : nat) (check : CheckContext) (roleIDs : list string)
    : option CheckResult :=
  match check_ResourceType check with
  | ResourceTypeDocument =>
      let '(categoryID, err) :=
        GetDocumentCategoryID (lookup e) (check_TenantID check) (check_ResourceID check) in
      match err with
      | Some _ => Some (denied "error getting document category")
      | None => walkHierarchy fuel check roleIDs ∅ categoryID
      end
  | ResourceTypeCategory =>
      let '(parentID, err) :=
        GetCategoryParentID (lookup e) (check_TenantID check) (check_ResourceID check) in
      match err with
      | Some _ => Some (denied "error getting category parent")
      | None => walkHierarchy fuel check roleIDs ∅ parentID
      end
  | ResourceTypeOther _ => walkHierarchy fuel check roleIDs ∅ None
  end.

Definition Check (fuel : nat) (check : CheckContext) : option CheckResult :=
  let result := checkDirectPermission check SubjectTypeUser (check_UserID check) in
  if result_Allowed result then Some result
  else
    let '(roleIDs, err) :=
      GetUserRoleIDs (lookup e) (check_TenantID check) (check_UserID check) in
    match (match err with
           | Some _ => None
           | None => checkRoles check roleIDs
           end) with
    | Some result => Some result
    | None =>
        let result := checkDirectPermission check SubjectTypeTenant "all" in
        if result_Allowed result then Some result
        else
          match checkHierarchy fuel check roleIDs with
          | None => None
          | Some result =>
              if result_Allowed result then Some result
              else Some (denied "no permission found")
          end
    end.

(** The body of the loop of [GetEffectivePermissions] once [Check] has
    answered [result] for [perm]: the permission enters the map and the
    relation, when one is reported, may replace the running highest one. *)
Definition recordResult (perm : Permission) (result : CheckResult)
    (acc : gset Permission * Relation) : gset Permission * Relation :=
  let '(permissions, highestRelation) := acc in
  if result_Allowed result
  then
    ({[perm]} ∪ permissions,
     match result_Relation result with
     | Some relation =>
         if IsRelationAtLeast relation highestRelation then relation else highestRelation
     | None => highestRelation
     end)
  else acc.

Fixpoint effectiveLoop (fuel : nat) (check : CheckContext) (perms : list Permission)
    (acc : gset Permission * Relation) : option (gset Permission * Relation) :=
  match perms with
  | [] => Some acc
  | perm :: rest =>
      match Check fuel (withPermission check perm) with
      | None => None
      | Some result => effectiveLoop fuel check rest (recordResult perm result acc)
      end
  end.

Definition allPermissions : list Permission :=
  [PermissionRead; PermissionWrite; PermissionDelete; PermissionShare; PermissionDownload].

(** The [permissions] map and [highestRelation] when the loop is over; the
    slice the Go function returns is [rangeOver] that map. *)
Definition GetEffectivePermissions (fuel : nat) (check : CheckContext)
    : option (gset Permission * Relation) :=
  effectiveLoop fuel check allPermissions (∅, RelationUnspecified).

(** [for _, id := range ids { accessibleIDs[id] = true }] *)
Definition addAll (ids : list string) (accessibleIDs : gset string) : gset string :=
  foldl (fun acc id => {[id]} ∪ acc) accessibleIDs ids.

(** The loop over the role ids in [ListAccessibleResources]; a role whose
    listing fails is skipped by [continue]. *)
Fixpoint addRoleResources (tenantID : N) (resourceType : ResourceType)
    (roleIDs : list string) (accessibleIDs : gset string) : gset string :=
  match roleIDs with
  | [] => accessibleIDs
  | roleID :: rest =>
      let '(roleResources, err) :=
        ListResourcesBySubject (store e) tenantID SubjectTypeRole roleID resourceType in
      match err with
      | Some _ => addRoleResources tenantID resourceType rest accessibleIDs
      | None =>
          addRoleResources tenantID resourceType rest (addAll roleResources accessibleIDs)
      end
  end.

(** The [accessibleIDs] map when the three sources have been read, or the
    error of the early [return nil, err]; the slice the Go function returns
    on success is [rangeOver] that map. *)
Definition ListAccessibleResources (tenantID : N) (userID : string)
    (resourceType : ResourceType) (permission : Permission) : gset string + error :=
  let '(userResources, err) :=
    ListResourcesBySubject (store e) tenantID SubjectTypeUser userID resourceType in
  match err with
  | Some err => inr err
  | None =>
      let accessibleIDs := addAll userResources ∅ in
      let '(roleIDs, err) := GetUserRoleIDs (lookup e) tenantID userID in
      let accessibleIDs :=
        match err with
        | Some _ => accessibleIDs
        | None => addRoleResources tenantID resourceType roleIDs accessibleIDs
        end in
      let '(tenantResources, err) :=
        ListResourcesBySubject (store e) tenantID SubjectTypeTenant "all" resourceType in
      let accessibleIDs :=
        match err with
        | None => addAll tenantResources accessibleIDs
        | Some _ => accessibleIDs
        end in
      inl accessibleIDs
  end.

End EngineOps.

(** [for k := range m { result = append(result, k) }]: the slice holds the
    keys of the map, each once, in an order the language leaves open. *)
Definition rangeOver `{Countable K} (m : gset K) (result : list K) : Prop :=
  result ≡ₚ elements m.


(** ** Vocabulary of the statements *)

(** The category ids that the lookup of tenant [tenantID] can answer all lie
    in the finite set [categories]: the hierarchy is a finite table, of
    whatever shape. *)
Definition hierarchyWithin (e : Engine) (tenantID : N) (categories : gset string) : Prop :=
  (∀ c p, GetCategoryParentID (lookup e) tenantID c = (Some p, None) → p ∈ categories)
  ∧ (∀ d p, GetDocumentCategoryID (lookup e) tenantID d = (Some p, None) → p ∈ categories).

(** The role ids that step 2 of [Check] and the role loop of
    [ListAccessibleResources] go through: those of the role lookup, in its
    order, and none when the lookup failed. *)
Definition rolesChecked (e : Engine) (tenantID : N) (userID : string) : list string :=
  let '(roleIDs, err) := GetUserRoleIDs (lookup e) tenantID userID in
  match err with
  | Some _ => []
  | None => roleIDs
  end.

(** The answers of the direct checks of steps 1 to 3 on the target resource,
    in the order of the specification. *)
Definition directSteps (e : Engine) (now : Time) (check : CheckContext) : list CheckResult :=
  checkDirectPermission e now check SubjectTypeUser (check_UserID check)
  :: List.map (checkDirectPermission e now check SubjectTypeRole)
       (rolesChecked e (check_TenantID check) (check_UserID check))
  ++ [checkDirectPermission e now check SubjectTypeTenant "all"].

(** The first allowing answer of a list of answers, and the final denial of
    [Check] when there is none. *)
Definition firstAllowing (results : list CheckResult) : CheckResult :=
  default (denied "no permission found") (List.find result_Allowed results).

(** The subjects through which user [userID] with roles [roleIDs] holds a
    grant: the user itself, one of the roles, the tenant wildcard. *)
Definition holds (userID : string) (roleIDs : list string)
    (subjectType : SubjectType) (subjectID : string) : Prop :=
  match subjectType with
  | SubjectTypeUser => subjectID = userID
  | SubjectTypeRole => subjectID ∈ roleIDs
  | SubjectTypeTenant => subjectID = "all"
  end.

(** The reason of an inherited grant, by the kind of subject that matched. *)
Definition inheritedReason (subjectType : SubjectType) : string :=
  match subjectType with
  | SubjectTypeUser => "inherited from parent category"
  | SubjectTypeRole => "inherited from parent category via role"
  | SubjectTypeTenant => "inherited from parent category via tenant"
  end.

(** [result] reports the relation of a tuple that the store of [e] returned
    without error for tenant [tenantID], that has not expired at [now] and
    whose relation grants [permission]. *)
Definition grantedBy (e : Engine) (now : Time) (tenantID : N) (permission : Permission)
    (result : CheckResult) : Prop :=
  ∃ resourceType resourceID subjectType subjectID tuple,
    HasPermission (store e) tenantID resourceType resourceID subjectType subjectID
    = (Some tuple, None)
    ∧ expired now tuple = false
    ∧ RelationGrantsPermission (tuple_Relation tuple) permission = true
    ∧ result_Relation result = Some (tuple_Relation tuple).

(** What the store lists for a subject: the ids of a listing that succeeded,
    nothing for one that failed. *)
Definition listed (e : Engine) (tenantID : N) (subjectType : SubjectType)
    (subjectID : string) (resourceType : ResourceType) : list string :=
  let '(ids, err) :=
    ListResourcesBySubject (store e) tenantID subjectType subjectID resourceType in
  match err with
  | Some _ => []
  | None => ids
  end.

(** One run of the loop body of [GetEffectivePermissions] on the answer
    [results perm] that [Check] gave for [perm]. *)
Definition recordStep (results : Permission → CheckResult)
    (acc : gset Permission * Relation) (perm : Permission) : gset Permission * Relation :=
  recordResult perm (results perm) acc.

(** The reasons of the allowing answers, and the reasons with which the
    sub-checks deny. *)
Definition allowingReasons : list string :=
  ["direct permission";
   "inherited from parent category";
   "inherited from parent category via role";
   "inherited from parent category via tenant"].

Definition internalDenialReasons : list string :=
  ["permission expired";
   "error checking permission";
   "relation does not grant permission";
   "no direct permission";
   "no inherited permission";
   "error getting document category";
   "error getting category parent"].

(** ** In-memory ports

    A store over a list of tuples and a lookup over finite tables, as a test
    double of the two ports would be written; and ports whose every call
    fails, as under a cancelled context. *)

Module Fixture.

Definition tupleMatches (tenantID : N) (resourceType : ResourceType) (resourceID : string)
    (subjectType : SubjectType) (subjectID : string) (tuple : PermissionTuple) : bool :=
  bool_decide (tuple_TenantID tuple = tenantID)
  && bool_decide (tuple_ResourceType tuple = resourceType)
  && bool_decide (tuple_ResourceID tuple = resourceID)
  && bool_decide (tuple_SubjectType tuple = subjectType)
  && bool_decide (tuple_SubjectID tuple = subjectID).

Definition subjectMatches (tenantID : N) (subjectType : SubjectType) (subjectID : string)
    (resourceType : ResourceType) (tuple : PermissionTuple) : bool :=
  bool_decide (tuple_TenantID tuple = tenantID)
  && bool_decide (tuple_SubjectType tuple = subjectType)
  && bool_decide (tuple_SubjectID tuple = subjectID)
  && bool_decide (tuple_ResourceType tuple = resourceType).

Definition memoryStore (tuples : list PermissionTuple) : PermissionStore :=
  {| HasPermission := λ tenantID resourceType resourceID subjectType subjectID,
       (List.find (tupleMatches tenantID resourceType resourceID subjectType subjectID) tuples,
        None);
     ListResourcesBySubject := λ tenantID subjectType subjectID resourceType,
       (List.map tuple_ResourceID
          (List.filter (subjectMatches tenantID subjectType subjectID resourceType) tuples),
        None) |}.

Definition memoryLookup (parents documents : gmap string string)
    (roles : gmap string (list string)) : ResourceLookup :=
  {| GetCategoryParentID := λ _ categoryID, (parents !! categoryID, None);
     GetDocumentCategoryID := λ _ documentID, (documents !! documentID, None);
     GetUserRoleIDs := λ _ userID, (default [] (roles !! userID), None) |}.

Definition cancelledStore : PermissionStore :=
  {| HasPermission := λ _ _ _ _ _, (None, Some "context canceled");
     ListResourcesBySubject := λ _ _ _ _, ([], Some "context canceled") |}.

Definition cancelledLookup : ResourceLookup :=
  {| GetCategoryParentID := λ _ _, (None, Some "context canceled");
     GetDocumentCategoryID := λ _ _, (None, Some "context canceled");
     GetUserRoleIDs := λ _ _, ([], Some "context canceled") |}.

(** A tuple of tenant 1 without expiry. *)
Definition grant (id : N) (resourceType : ResourceType) (resourceID : string)
    (relation : Relation) (subjectType : SubjectType) (subjectID : string)
    : PermissionTuple :=
  {| tuple_ID := id; tuple_TenantID := 1; tuple_ResourceType := resourceType;
     tuple_ResourceID := resourceID; tuple_Relation := relation;
     tuple_SubjectType := subjectType; tuple_SubjectID := subjectID;
     tuple_GrantedBy := None; tuple_ExpiresAt := None; tuple_CreateTime := 0%Z |}.

(** The same tuple with an expiry instant. *)
Definition expiring (tuple : PermissionTuple) (expiresAt : Time) : PermissionTuple :=
  {| tuple_ID := tuple_ID tuple; tuple_TenantID := tuple_TenantID tuple;
     tuple_ResourceType := tuple_ResourceType tuple;
     tuple_ResourceID := tuple_ResourceID tuple;
     tuple_Relation := tuple_Relation tuple;
     tuple_SubjectType := tuple_SubjectType tuple;
     tuple_SubjectID := tuple_SubjectID tuple;
     tuple_GrantedBy := tuple_GrantedBy tuple;
     tuple_ExpiresAt := Some expiresAt;
     tuple_CreateTime := tuple_CreateTime tuple |}.

Definition checkOf (userID : string) (permission : Permission)
    (resourceType : ResourceType) (resourceID : string) : CheckContext :=
  {| check_TenantID := 1; check_UserID := userID; check_ResourceType := resourceType;
     check_ResourceID := resourceID; check_Permission := permission |}.

(** Owner on category C1 for user U; C2 is a child of C1; document D is in
    C2. *)
Definition inheritance : Engine :=
  {| store := memoryStore [grant 1 ResourceTypeCategory "C1" RelationOwner SubjectTypeUser "U"];
     lookup := memoryLookup {[ "C2" := "C1" ]} {[ "D" := "C2" ]} ∅ |}.

(** The same hierarchy with the Owner tuple on C1 held by the role "staff"
    of user U. *)
Definition inheritanceByRole : Engine :=
  {| store :=
       memoryStore [grant 1 ResourceTypeCategory "C1" RelationOwner SubjectTypeRole "staff"];
     lookup :=
       memoryLookup {[ "C2" := "C1" ]} {[ "D" := "C2" ]} {[ "U" := ["guest"; "staff"] ]} |}.

(** The same hierarchy with the Owner tuple on C1 held by the tenant
    wildcard. *)
Definition inheritanceByTenant : Engine :=
  {| store :=
       memoryStore [grant 1 ResourceTypeCategory "C1" RelationOwner SubjectTypeTenant "all"];
     lookup := memoryLookup {[ "C2" := "C1" ]} {[ "D" := "C2" ]} ∅ |}.

(** [parent(C1) = C2], [parent(C2) = C1], no tuple anywhere. *)
Definition cyclic : Engine :=
  {| store := memoryStore [];
     lookup := memoryLookup (<[ "C1" := "C2" ]> {[ "C2" := "C1" ]}) ∅ ∅ |}.

(** An Owner tuple on document X for user U that expired at instant 5. *)
Definition lapsed : Engine :=
  {| store :=
       memoryStore
         [expiring (grant 1 ResourceTypeDocument "X" RelationOwner SubjectTypeUser "U") 5%Z];
     lookup := memoryLookup ∅ ∅ ∅ |}.

(** Editor on document X for user U. *)
Definition editor : Engine :=
  {| store := memoryStore [grant 1 ResourceTypeDocument "X" RelationEditor SubjectTypeUser "U"];
     lookup := memoryLookup ∅ ∅ ∅ |}.

(** R1 for user U, R2 for the role "staff" that U holds, R3 for the tenant
    wildcard, and R1 a second time through the role. *)
Definition shared : Engine :=
  {| store :=
       memoryStore
         [grant 1 ResourceTypeDocument "R1" RelationViewer SubjectTypeUser "U";
          grant 2 ResourceTypeDocument "R2" RelationViewer SubjectTypeRole "staff";
          grant 3 ResourceTypeDocument "R3" RelationViewer SubjectTypeTenant "all";
          grant 4 ResourceTypeDocument "R1" RelationEditor SubjectTypeRole "staff"];
     lookup := memoryLookup ∅ ∅ {[ "U" := ["staff"] ]} |}.

(** The store fails on the direct check of user U and answers for the role
    "staff", which holds Viewer on document X. *)
Definition flaky : Engine :=
  {| store :=
       {| HasPermission := λ tenantID resourceType resourceID subjectType subjectID,
            match subjectType with
            | SubjectTypeUser => (None, Some "connection reset")
            | _ =>
                HasPermission
                  (memoryStore
                     [grant 1 ResourceTypeDocument "X" RelationViewer SubjectTypeRole "staff"])
                  tenantID resourceType resourceID subjectType subjectID
            end;
          ListResourcesBySubject := λ _ _ _ _, ([], None) |};
     lookup := memoryLookup ∅ ∅ {[ "U" := ["staff"] ]} |}.

Definition cancelled : Engine :=
  {| store := cancelledStore; lookup := cancelledLookup |}.

End Fixture.

Local Open Scope list_scope.

(** ** Errors of the store as missing tuples

    The store that reports no tuple wherever [st] answers [HasPermission]
    with an error, and the engine over it: what [Check] is compared with to
    say that an error of the store denies and does nothing else. *)
Definition silenced (st : PermissionStore) : PermissionStore :=
  {| HasPermission := λ tenantID resourceType resourceID subjectType subjectID,
       match HasPermission st tenantID resourceType resourceID subjectType subjectID with
       | (_, Some _) => (None, None)
       | answer => answer
       end;
     ListResourcesBySubject := ListResourcesBySubject st |}.

Definition withSilencedStore (e : Engine) : Engine :=
  {| store := silenced (store e); lookup := lookup e |}.

(** ** The checker

    The façade of [Checker] over [Check]: a Go [error] result is an
    [option error], [nil] being [None]. *)

(** [fmt.Errorf("access denied: %s", reason)] *)
Definition accessDenied (reason : string) : error :=
  String.append "access denied: " reason.

(** [if !result.Allowed { return fmt.Errorf(...) }; return nil] *)
Definition denialOf (result : CheckResult) : option error :=
  if result_Allowed result then None else Some (accessDenied (result_Reason result)).

Section CheckerOps.

Variable e : Engine.
Variable now : Time.
Variable fuel : nat.

Definition CanRead (tenantID : N) (userID : string) (resourceType : ResourceType)
    (resourceID : string) : option (option error) :=
  denialOf <$>
    Check e now fuel
      {| check_TenantID := tenantID; check_UserID := userID;
         check_ResourceType := resourceType; check_ResourceID := resourceID;
         check_Permission := PermissionRead |}.

Definition CanWrite (tenantID : N) (userID : string) (resourceType : ResourceType)
    (resourceID : string) : option (option error) :=
  denialOf <$>
    Check e now fuel
      {| check_TenantID := tenantID; check_UserID := userID;
         check_ResourceType := resourceType; check_ResourceID := resourceID;
         check_Permission := PermissionWrite |}.

Definition CanDelete (tenantID : N) (userID : string) (resourceType : ResourceType)
    (resourceID : string) : option (option error) :=
  denialOf <$>
    Check e now fuel
      {| check_TenantID := tenantID; check_UserID := userID;
         check_ResourceType := resourceType; check_ResourceID := resourceID;
         check_Permission := PermissionDelete |}.

Definition CanShare (tenantID : N) (userID : string) (resourceType : ResourceType)
    (resourceID : string) : option (option error) :=
  denialOf <$>
    Check e now fuel
      {| check_TenantID := tenantID; check_UserID := userID;
         check_ResourceType := resourceType; check_ResourceID := resourceID;
         check_Permission := PermissionShare |}.

Definition CanDownload (tenantID : N) (userID : string) (resourceType : ResourceType)
    (resourceID : string) : option (option error) :=
  denialOf <$>
    Check e now fuel
      {| check_TenantID := tenantID; check_UserID := userID;
         check_ResourceType := resourceType; check_ResourceID := resourceID;
         check_Permission := PermissionDownload |}.

Definition CheckPermission (tenantID : N) (userID : string) (resourceType : ResourceType)
    (resourceID : string) (permission : Permission) : option (bool * string) :=
  (λ result, (result_Allowed result, result_Reason result)) <$>
    Check e now fuel
      {| check_TenantID := tenantID; check_UserID := userID;
         check_ResourceType := resourceType; check_ResourceID := resourceID;
         check_Permission := permission |}.

Definition RequirePermission (tenantID : N) (userID : string) (resourceType : ResourceType)
    (resourceID : string) (permission : Permission) : option (option error) :=
  (λ '(allowed, reason), if allowed : bool then None else Some (accessDenied reason)) <$>
    CheckPermission tenantID userID resourceType resourceID permission.

Definition CanReadCategory (tenantID : N) (userID categoryID : string) :=
  CanRead tenantID userID ResourceTypeCategory categoryID.

Definition CanWriteCategory (tenantID : N) (userID categoryID : string) :=
  CanWrite tenantID userID ResourceTypeCategory categoryID.

Definition CanDeleteCategory (tenantID : N) (userID categoryID : string) :=
  CanDelete tenantID userID ResourceTypeCategory categoryID.

Definition CanShareCategory (tenantID : N) (userID categoryID : string) :=
  CanShare tenantID userID ResourceTypeCategory categoryID.

Definition CanReadDocument (tenantID : N) (userID documentID : string) :=
  CanRead tenantID userID ResourceTypeDocument documentID.

Definition CanWriteDocument (tenantID : N) (userID documentID : string) :=
  CanWrite tenantID userID ResourceTypeDocument documentID.

Definition CanDeleteDocument (tenantID : N) (userID documentID : string) :=
  CanDelete tenantID userID ResourceTypeDocument documentID.

Definition CanShareDocument (tenantID : N) (userID documentID : string) :=
  CanShare tenantID userID ResourceTypeDocument documentID.

Definition CanDownloadDocument (tenantID : N) (userID documentID : string) :=
  CanDownload tenantID userID ResourceTypeDocument documentID.

(** The call of the checker for one permission, as [RequirePermission]
    dispatches it by hand. *)
Definition canOf (permission : Permission) :=
  match permission with
  | PermissionRead => CanRead
  | PermissionWrite => CanWrite
  | PermissionDelete => CanDelete
  | PermissionShare => CanShare
  | PermissionDownload => CanDownload
  end.

End CheckerOps.

(** [Checker.ListAccessibleCategories] and [Checker.ListAccessibleDocuments]:
    the listing of the engine with the resource type fixed and the permission
    Read. *)
Definition ListAccessibleCategories (e : Engine) (tenantID : N) (userID : string) :=
  ListAccessibleResources e tenantID userID ResourceTypeCategory PermissionRead.

Definition ListAccessibleDocuments (e : Engine) (tenantID : N) (userID : string) :=
  ListAccessibleResources e tenantID userID ResourceTypeDocument PermissionRead.

(** ** The production lookup

    [resourceLookupImpl] of the providers: the two hierarchy queries go to
    the repositories, which stay ports here; the role query answers with the
    roles of the request context, [grpcx.GetRolesFromContext(ctx)], whatever
    the tenant and the user asked for, and never fails. *)
Definition resourceLookupImpl
    (categoryRepo_GetCategoryParentID : N → string → option string * option error)
    (documentRepo_GetDocumentCategoryID : N → string → option string * option error)
    (rolesFromContext : list string) : ResourceLookup :=
  {| GetCategoryParentID := categoryRepo_GetCategoryParentID;
     GetDocumentCategoryID := documentRepo_GetDocumentCategoryID;
     GetUserRoleIDs := λ _ _, (rolesFromContext, None) |}.

Module FixtureMore.
Import Fixture.

(** The store of [inheritance] with, besides, an Owner tuple of tenant 2 on
    document D for user U. *)
Definition otherTenant : Engine :=
  {| store :=
       memoryStore
         [grant 1 ResourceTypeCategory "C1" RelationOwner SubjectTypeUser "U";
          {| tuple_ID := 9; tuple_TenantID := 2; tuple_ResourceType := ResourceTypeDocument;
             tuple_ResourceID := "D"; tuple_Relation := RelationOwner;
             tuple_SubjectType := SubjectTypeUser; tuple_SubjectID := "U";
             tuple_GrantedBy := None; tuple_ExpiresAt := None; tuple_CreateTime := 0%Z |}];
     lookup := memoryLookup {[ "C2" := "C1" ]} {[ "D" := "C2" ]} ∅ |}.

End FixtureMore.

Module FixtureProviders.
Import Fixture.

(** The request context carries the role "staff"; Viewer on document X is
    held by that role. *)
Definition staffOnly : Engine :=
  {| store := memoryStore [grant 1 ResourceTypeDocument "X" RelationViewer SubjectTypeRole "staff"];
     lookup := resourceLookupImpl (λ _ _, (None, None)) (λ _ _, (None, None)) ["staff"] |}.

End FixtureProviders.

(** ** Sorting parents before children

    [topologicalSortByParentID] of the backup service, generic in the item
    type.  The closure [walk] appends to the captured slice [result], which
    is threaded here as an accumulator; its recursion is bounded by fuel, one
    unit for each nested call. *)

Section TopologicalSort.

Context {T : Type}.
Variable getID : T → string.
Variable getParentID : T → string.

(** [for _, item := range items { idSet[getID(item)] = true }] *)
Definition idSetOf (items : list T) : gset string :=
  foldl (λ idSet item, {[getID item]} ∪ idSet) ∅ items.

(** [pid == "" || !idSet[pid]]: the item goes to [roots]. *)
Definition isRoot (idSet : gset string) (item : T) : Prop :=
  getParentID item = EmptyString ∨ getParentID item ∉ idSet.

#[global] Instance isRoot_dec idSet item : Decision (isRoot idSet item).
Proof. unfold isRoot. apply _. Defined.

(** One run of the second loop on the pair of [childMap] and [roots];
    [childMap[pid]] of a missing key is the nil slice. *)
Definition classify (idSet : gset string) (acc : gmap string (list T) * list T) (item : T)
    : gmap string (list T) * list T :=
  let '(childMap, roots) := acc in
  let pid := getParentID item in
  if decide (isRoot idSet item)
  then (childMap, roots ++ [item])
  else (<[pid := default [] (childMap !! pid) ++ [item]]> childMap, roots).

(** The body of [walk]: the loop over [nodes], with [walkChildren] for the
    recursive call. *)
Definition walkNodes (childMap : gmap string (list T))
    (walkChildren : list T → list T → option (list T))
    : list T → list T → option (list T) :=
  fix loop (nodes result : list T) {struct nodes} : option (list T) :=
    match nodes with
    | [] => Some result
    | n :: rest =>
        let result := result ++ [n] in
        match childMap !! getID n with
        | Some children =>
            match walkChildren children result with
            | None => None
            | Some result => loop rest result
            end
        | None => loop rest result
        end
    end.

Fixpoint walk (fuel : nat) (childMap : gmap string (list T))
    : list T → list T → option (list T) :=
  match fuel with
  | O => λ _ _, None
  | S fuel' => walkNodes childMap (walk fuel' childMap)
  end.

(** [childMap] and [roots] when the second loop is over. *)
Definition sortTables (items : list T) : gmap string (list T) * list T :=
  foldl (classify (idSetOf items)) (∅, []) items.

Definition topologicalSortByParentID (fuel : nat) (items : list T) : option (list T) :=
  let '(childMap, roots) := sortTables items in
  walk fuel childMap roots [].

(** The chain of parents of an item up to a root, the item first: what the
    sort can reach.  An item on a cycle of parents has no such chain. *)
Inductive chainToRoot (items : list T) : list T → T → Prop :=
  | chain_root x :
      x ∈ items → isRoot (idSetOf items) x → chainToRoot items [x] x
  | chain_child l p c :
      chainToRoot items l p →
      c ∈ items →
      ¬ isRoot (idSetOf items) c →
      getParentID c = getID p →
      chainToRoot items (c :: l) c.

(** The pre-order of the forest below [nodes] that [walk] appends. *)
Inductive preorder (childMap : gmap string (list T)) : list T → list T → Prop :=
  | preorder_nil : preorder childMap [] []
  | preorder_leaf n rest below :
      childMap !! getID n = None →
      preorder childMap rest below →
      preorder childMap (n :: rest) (n :: below)
  | preorder_node n rest children under below :
      childMap !! getID n = Some children →
      preorder childMap children under →
      preorder childMap rest below →
      preorder childMap (n :: rest) (n :: under ++ below).

End TopologicalSort.

Module FixtureSort.

(** Items as pairs of an id and a parent id. *)
Definition idOf (item : string * string) : string := item.1.
Definition parentOf (item : string * string) : string := item.2.

(** A child listed before its parent, and a grandchild. *)
Definition shuffled : list (string * string) :=
  [("c", "b"); ("b", "a"); ("a", EmptyString); ("d", "a")].

(** A root, and two items that are each other's parent. *)
Definition withCycle : list (string * string) :=
  [("a", EmptyString); ("x", "y"); ("y", "x")].

(** A root "a" and a second item of the same id whose parent is "a". *)
Definition duplicated : list (string * string) :=
  [("a", EmptyString); ("a", "a")].

End FixtureSort.

(** ** The permission service: paging the accessible resources

    [PermissionService.ListAccessibleResources].  [uint32] values are
    integers below 2^32 and their arithmetic wraps; [int] is the 64-bit
    integer of the platforms the service is built for, so the conversions
    [int(...)] of a [uint32] and the sum [start + int(pageSize)] are exact. *)

Module PermissionService.

Definition uint32 (z : Z) : Z := (z mod 2 ^ 32)%Z.

(** The part of the method after the call of the engine: [resourceIDs] is the
    slice that the engine returned, [reqPage] and [reqPageSize] the optional
    fields of the request; the result is the pair of [ResourceIds] and
    [Total] of the response. *)
Definition pageOfResources (resourceIDs : list string) (reqPage reqPageSize : option Z)
    : list string * Z :=
  let total := uint32 (Z.of_nat (length resourceIDs)) in
  let page := default 1%Z reqPage in
  let pageSize := default 20%Z reqPageSize in
  let resourceIDs :=
    if (0 <? page)%Z && (0 <? pageSize)%Z
    then
      let start := uint32 ((page - 1) * pageSize) in
      let end_ := (start + pageSize)%Z in
      if (Z.of_nat (length resourceIDs) <=? start)%Z then []
      else if (Z.of_nat (length resourceIDs) <? end_)%Z
      then drop (Z.to_nat start) resourceIDs
      else take (Z.to_nat end_ - Z.to_nat start) (drop (Z.to_nat start) resourceIDs)
    else resourceIDs in
  (resourceIDs, total).

(** The method: the error of the engine is returned as it is; otherwise the
    response is a page of the slice of the engine, which ranges over the
    accessible ids in an order that is left open. *)
Definition ListAccessibleResources (e : Engine) (tenantID : N) (userId : string)
    (resourceType : ResourceType) (reqPage reqPageSize : option Z)
    (response : list string * Z + error) : Prop :=
  match ListAccessibleResources e tenantID userId resourceType PermissionRead with
  | inr err => response = inr err
  | inl accessibleIDs =>
      ∃ resourceIDs,
        rangeOver accessibleIDs resourceIDs
        ∧ response = inl (pageOfResources resourceIDs reqPage reqPageSize)
  end.

End PermissionService.

(** ** The category tree of the category service

    [filterTreeNodes].  The messages [Category] and [CategoryTreeNode] are
    generated code outside the sources: a node is taken as the pair of its
    [Category] and its [Children], and of a category only the [Id] is read.
    The Go function writes the filtered children back into the node it
    keeps; the node returned here is the node with the new children. *)

Section CategoryTree.

Context {Category : Type}.
Variable category_Id : Category → string.

#[local] Unset Elimination Schemes.
Inductive CategoryTreeNode : Type :=
  TreeNode (node_Category : Category) (node_Children : list CategoryTreeNode).
#[local] Set Elimination Schemes.

(** The loop of [filterTreeNodes] over [nodes], with [body] for what it does
    with one node: [Some None] is the [continue], [Some (Some node)] the
    [append], [None] the end of the fuel inside a check. *)
Definition filterLoop (body : CategoryTreeNode → option (option CategoryTreeNode))
    : list CategoryTreeNode → option (list CategoryTreeNode) :=
  fix loop (nodes : list CategoryTreeNode) : option (list CategoryTreeNode) :=
    match nodes with
    | [] => Some []
    | node :: rest =>
        match body node with
        | None => None
        | Some kept =>
            match loop rest with
            | None => None
            | Some filtered =>
                Some match kept with
                     | Some node' => node' :: filtered
                     | None => filtered
                     end
            end
        end
    end.

Variable e : Engine.
Variable now : Time.
Variable fuel : nat.

(** The body of the loop: the check of the node, then the recursive call on
    its children. *)
Fixpoint filterTreeNode (tenantID : N) (userID : string) (node : CategoryTreeNode)
    {struct node} : option (option CategoryTreeNode) :=
  match node with
  | TreeNode category children =>
      match CanReadCategory e now fuel tenantID userID (category_Id category) with
      | None => None
      | Some (Some _) => Some None
      | Some None =>
          match filterLoop (filterTreeNode tenantID userID) children with
          | None => None
          | Some children' => Some (Some (TreeNode category children'))
          end
      end
  end.

Definition filterTreeNodes (tenantID : N) (userID : string)
    : list CategoryTreeNode → option (list CategoryTreeNode) :=
  filterLoop (filterTreeNode tenantID userID).

(** The paths of ids from a root of the forest to each of its nodes, in
    pre-order. *)
Fixpoint pathsOfNode (node : CategoryTreeNode) {struct node} : list (list string) :=
  match node with
  | TreeNode category children =>
      [category_Id category]
      :: List.map (cons (category_Id category)) (List.flat_map pathsOfNode children)
  end.

Definition pathsOf (nodes : list CategoryTreeNode) : list (list string) :=
  List.flat_map pathsOfNode nodes.

(** The category ids that the user may read, as the filter sees them. *)
Definition readable (tenantID : N) (userID : string) (categoryID : string) : Prop :=
  CanReadCategory e now fuel tenantID userID categoryID = Some None.

#[global] Instance readable_dec tenantID userID categoryID :
  Decision (readable tenantID userID categoryID).
Proof. unfold readable. apply _. Defined.

End CategoryTree.

Module FixtureTree.
Import Fixture.

(** Categories are their ids. *)
Definition idOfCategory (category : string) : string := category.

(** User U holds Viewer on "docs" and on "docs/private/notes", nothing on
    "docs/private" and nothing on "archive"; the hierarchy lookup knows no
    parents. *)
Definition partlyReadable : Engine :=
  {| store :=
       memoryStore
         [grant 1 ResourceTypeCategory "docs" RelationViewer SubjectTypeUser "U";
          grant 2 ResourceTypeCategory "docs/private/notes" RelationViewer
            SubjectTypeUser "U";
          grant 3 ResourceTypeCategory "docs/public" RelationViewer SubjectTypeUser "U"];
     lookup := memoryLookup ∅ ∅ ∅ |}.

Definition tree : list (@CategoryTreeNode string) :=
  [TreeNode "docs"
     [TreeNode "docs/private" [TreeNode "docs/private/notes" []];
      TreeNode "docs/public" []];
   TreeNode "archive" []].

End FixtureTree.


(** ** The document service: deleting documents in a batch

    [DocumentService.BatchDeleteDocuments].  The repositories and the file
    storage are ports.  Of a stored document only the [FileKey] is read.
    The calls that change something outside (the batch delete of the
    repository, the delete of the storage, the delete of the permissions of
    a document) are returned as the list of the calls made, in their order;
    the results of the last two are logged or dropped by the code and have
    no say in what it does next. *)

Module DocumentService.

Inductive Call : Type :=
  | CallBatchDelete (ids : list string) (permanent : bool)
  | CallStorageDelete (key : string)
  | CallDeleteByResource (tenantID : N) (resourceType : string) (resourceID : string).

Record BatchDeleteDocumentsResponse : Type := {
  response_DeletedCount : Z;
  response_FailedIds : list string;
}.

(** The inner loops [for _, x := range ids { if id == x { found = true; break } }]. *)
Definition found (id : string) (ids : list string) : bool :=
  existsb (String.eqb id) ids.

Section BatchDeleteDocuments.

Context {Document : Type}.
Variable document_FileKey : Document → string.
Variable documentRepo_GetByID : string → option Document * option error.
Variable documentRepo_BatchDelete : list string → bool → Z * list string * option error.
Variable e : Engine.
Variable now : Time.
Variable fuel : nat.

(** The first loop: the ids that pass [CanDeleteDocument], appended to
    [allowedIDs]. *)
Fixpoint allowedLoop (tenantID : N) (userID : string) (ids allowedIDs : list string)
    : option (list string) :=
  match ids with
  | [] => Some allowedIDs
  | id :: rest =>
      match CanDeleteDocument e now fuel tenantID userID id with
      | None => None
      | Some (Some _) => allowedLoop tenantID userID rest allowedIDs
      | Some None => allowedLoop tenantID userID rest (allowedIDs ++ [id])
      end
  end.

(** [if err == nil && doc != nil { fileKeys = append(fileKeys, doc.FileKey) }] *)
Definition fileKeysLoop (allowedIDs : list string) : list string :=
  foldl
    (λ fileKeys id,
       match documentRepo_GetByID id with
       | (Some doc, None) => fileKeys ++ [document_FileKey doc]
       | _ => fileKeys
       end)
    [] allowedIDs.

(** The requested ids that are not in [allowedIDs], appended to [failedIDs]. *)
Definition unauthorizedLoop (ids allowedIDs failedIDs : list string) : list string :=
  foldl (λ failedIDs id, if found id allowedIDs then failedIDs else failedIDs ++ [id])
    failedIDs ids.

(** The last loop: the permissions of each allowed id that is not in
    [failedIDs] are deleted. *)
Definition permissionLoop (tenantID : N) (allowedIDs failedIDs : list string) : list Call :=
  foldl
    (λ calls id,
       if found id failedIDs then calls
       else calls ++ [CallDeleteByResource tenantID "RESOURCE_TYPE_DOCUMENT" id])
    [] allowedIDs.

Definition BatchDeleteDocuments (tenantID : N) (userID : string)
    (req_Ids : list string) (req_Permanent : bool)
    : option ((BatchDeleteDocumentsResponse + error) * list Call) :=
  match allowedLoop tenantID userID req_Ids [] with
  | None => None
  | Some allowedIDs =>
      Some
        (if Nat.eqb (length allowedIDs) 0
         then (inl {| response_DeletedCount := 0; response_FailedIds := req_Ids |}, [])
         else
           let fileKeys := if req_Permanent then fileKeysLoop allowedIDs else [] in
           let '(deletedCount, failedIDs, err) :=
             documentRepo_BatchDelete allowedIDs req_Permanent in
           match err with
           | Some err => (inr err, [CallBatchDelete allowedIDs req_Permanent])
           | None =>
               let failedIDs := unauthorizedLoop req_Ids allowedIDs failedIDs in
               let storageCalls :=
                 if req_Permanent then List.map CallStorageDelete fileKeys else [] in
               let permissionCalls := permissionLoop tenantID allowedIDs failedIDs in
               (inl {| response_DeletedCount := PermissionService.uint32 deletedCount;
                       response_FailedIds := failedIDs |},
                [CallBatchDelete allowedIDs req_Permanent] ++ storageCalls ++ permissionCalls)
           end)
  end.

(** The ids that the user may delete, as the first loop sees them. *)
Definition deletable (tenantID : N) (userID : string) (documentID : string) : Prop :=
  CanDeleteDocument e now fuel tenantID userID documentID = Some None.

#[global] Instance deletable_dec tenantID userID documentID :
  Decision (deletable tenantID userID documentID).
Proof. unfold deletable. apply _. Defined.

End BatchDeleteDocuments.

End DocumentService.

Module FixtureBatch.
Import Fixture.

(** User U owns the documents "a" and "b" and holds nothing on "c". *)
Definition owner : Engine :=
  {| store :=
       memoryStore
         [grant 1 ResourceTypeDocument "a" RelationOwner SubjectTypeUser "U";
          grant 2 ResourceTypeDocument "b" RelationOwner SubjectTypeUser "U"];
     lookup := memoryLookup ∅ ∅ ∅ |}.

(** Documents are their ids; the file of document [id] is stored under
    "files/" followed by the id. *)
Definition fileKeyOf (document : string) : string := String.append "files/" document.

Definition getByID (id : string) : option string * option error := (Some id, None).

(** A repository that deletes every document but "b", which it reports as
    failed. *)
Definition batchDelete (ids : list string) (permanent : bool)
    : Z * list string * option error :=
  (Z.of_nat (length (filter (λ id, id ≠ "b") ids)), filter (λ id, id = "b") ids, None).

End FixtureBatch.

(** ** The document processor

    [DocumentProcessor.ProcessDocument].  The repository, Gotenberg and Tika
    are ports; the method returns nothing, and what it does is the list of
    the calls it makes, in their order.  A [map[string]string] that may be
    [nil] is an [option] of a map.  Only the answer of the first write
    decides what follows: the errors of the later writes are logged. *)

Module DocumentProcessor.

Definition mimeTypePDF : string := "application/pdf".
Definition mimeTypeDOC : string := "application/msword".
Definition mimeTypeDOCX : string :=
  "application/vnd.openxmlformats-officedocument.wordprocessingml.document".

Definition statusProcessing : string := "PROCESSING_STATUS_PROCESSING".
Definition statusCompleted : string := "PROCESSING_STATUS_COMPLETED".
Definition statusFailed : string := "PROCESSING_STATUS_FAILED".
Definition statusSkipped : string := "PROCESSING_STATUS_SKIPPED".

Definition bytes : Type := list Byte.byte.
Definition Metadata : Type := option (gmap string string).

Inductive Call : Type :=
  | CallUpdateProcessingResult (documentID text : string) (metadata : Metadata)
      (status : string)
  | CallConvertToPDF (content : bytes) (fileName : string)
  | CallExtractText (content : bytes) (mimeType : string)
  | CallExtractMetadata (content : bytes) (mimeType : string).

Section ProcessDocument.

Variable documentRepo_UpdateProcessingResult :
  string → string → Metadata → string → option error.
Variable gotenberg_ConvertToPDF : bytes → string → bytes * option error.
Variable tika_ExtractText : bytes → string → string * option error.
Variable tika_ExtractMetadata : bytes → string → Metadata * option error.

(** The part of the method after the [switch]: the two calls of Tika on
    [pdfContent] and the write of the outcome. *)
Definition extractAndStore (documentID : string) (pdfContent : bytes) : list Call :=
  let '(text, err) := tika_ExtractText pdfContent mimeTypePDF in
  CallExtractText pdfContent mimeTypePDF ::
  match err with
  | Some _ => [CallUpdateProcessingResult documentID EmptyString None statusFailed]
  | None =>
      let '(metadata, err) := tika_ExtractMetadata pdfContent mimeTypePDF in
      let metadata := match err with Some _ => None | None => metadata end in
      [CallExtractMetadata pdfContent mimeTypePDF;
       CallUpdateProcessingResult documentID text metadata statusCompleted]
  end.

Definition ProcessDocument (documentID : string) (fileContent : bytes) (mimeType : string)
    : list Call :=
  CallUpdateProcessingResult documentID EmptyString None statusProcessing ::
  match documentRepo_UpdateProcessingResult documentID EmptyString None statusProcessing with
  | Some _ => []
  | None =>
      if String.eqb mimeType mimeTypePDF then extractAndStore documentID fileContent
      else if String.eqb mimeType mimeTypeDOC || String.eqb mimeType mimeTypeDOCX then
        let ext := if String.eqb mimeType mimeTypeDOCX then ".docx" else ".doc" in
        let fileName := String.append "document" ext in
        let '(converted, err) := gotenberg_ConvertToPDF fileContent fileName in
        CallConvertToPDF fileContent fileName ::
        match err with
        | Some _ => [CallUpdateProcessingResult documentID EmptyString None statusFailed]
        | None => extractAndStore documentID converted
        end
      else [CallUpdateProcessingResult documentID EmptyString None statusSkipped]
  end.

(** The PDF that the method hands to Tika for a file of type [mimeType], if
    it gets that far. *)
Definition pdfContentOf (fileContent : bytes) (mimeType : string) (pdfContent : bytes) : Prop :=
  (mimeType = mimeTypePDF ∧ pdfContent = fileContent)
  ∨ (mimeType = mimeTypeDOC
     ∧ gotenberg_ConvertToPDF fileContent "document.doc" = (pdfContent, None))
  ∨ (mimeType = mimeTypeDOCX
     ∧ gotenberg_ConvertToPDF fileContent "document.docx" = (pdfContent, None)).

End ProcessDocument.

(** The writes among the calls. *)
Definition isUpdate (call : Call) : bool :=
  match call with CallUpdateProcessingResult _ _ _ _ => true | _ => false end.

End DocumentProcessor.

Module FixtureProcessor.
Import DocumentProcessor.

(** Gotenberg converts every file to the one byte 0x50; Tika reads the text
    "hello" in every PDF and fails on the metadata; the repository accepts
    every write. *)
Definition update (documentID text : string) (metadata : Metadata) (status : string)
    : option error := None.

Definition convert (content : bytes) (fileName : string) : bytes * option error :=
  ([Byte.x50], None).

Definition extractText (content : bytes) (mimeType : string) : string * option error :=
  ("hello", None).

Definition extractMetadata (content : bytes) (mimeType : string) : Metadata * option error :=
  (None, Some "tika: 500").

End FixtureProcessor.

(** ** The backup service: restoring a backup

    [BackupService.ImportBackup] with [importCategories], [importDocuments]
    and [importDocumentPermissions].  The entities of the database layer are
    generated code outside the sources: of an entity the import reads the
    [ID], the [TenantID] and, of a category, the [ParentID]; the other fields
    are handed on to the database as they are.  [json.Unmarshal] and the
    database client are ports.  The database changes while the import runs:
    the writes that the import has tried so far are threaded through it, and
    the client answers a lookup or a save given those writes.  A counter of
    the report is a 64-bit integer; [%d] prints an integer in decimal. *)

From stdpp Require pretty.

Module BackupService.

Definition backupModule : string := "paperless".
Definition backupVersion : string := "1.0".

Definition RawMessage : Type := list Byte.byte.

Definition int64 (z : Z) : Z := ((z + 2 ^ 63) mod 2 ^ 64 - 2 ^ 63)%Z.

Record EntityImportResult : Type := {
  import_EntityType : string;
  import_Total : Z;
  import_Created : Z;
  import_Updated : Z;
  import_Skipped : Z;
  import_Failed : Z;
}.

Record backupEntities : Type := {
  data_Categories : list RawMessage;
  data_Documents : list RawMessage;
  data_DocumentPermissions : list RawMessage;
}.

(** [ExportedAt] is not read by the import. *)
Record backupData : Type := {
  backup_Module : string;
  backup_Version : string;
  backup_TenantID : N;
  backup_FullBackup : bool;
  backup_Data : backupEntities;
}.

Record ImportBackupResponse : Type := {
  response_Success : bool;
  response_Results : list EntityImportResult;
  response_Warnings : list string;
}.

(** [&EntityImportResult{EntityType: name, Total: int64(len(items))}] *)
Definition newResult (name : string) (items : list RawMessage) : EntityImportResult :=
  {| import_EntityType := name; import_Total := int64 (Z.of_nat (length items));
     import_Created := 0; import_Updated := 0; import_Skipped := 0; import_Failed := 0 |}.

(** [result.Created++] and the like. *)
Definition countCreated (r : EntityImportResult) : EntityImportResult :=
  {| import_EntityType := import_EntityType r; import_Total := import_Total r;
     import_Created := int64 (import_Created r + 1); import_Updated := import_Updated r;
     import_Skipped := import_Skipped r; import_Failed := import_Failed r |}.

Definition countUpdated (r : EntityImportResult) : EntityImportResult :=
  {| import_EntityType := import_EntityType r; import_Total := import_Total r;
     import_Created := import_Created r; import_Updated := int64 (import_Updated r + 1);
     import_Skipped := import_Skipped r; import_Failed := import_Failed r |}.

Definition countSkipped (r : EntityImportResult) : EntityImportResult :=
  {| import_EntityType := import_EntityType r; import_Total := import_Total r;
     import_Created := import_Created r; import_Updated := import_Updated r;
     import_Skipped := int64 (import_Skipped r + 1); import_Failed := import_Failed r |}.

Definition countFailed (r : EntityImportResult) : EntityImportResult :=
  {| import_EntityType := import_EntityType r; import_Total := import_Total r;
     import_Created := import_Created r; import_Updated := import_Updated r;
     import_Skipped := import_Skipped r; import_Failed := int64 (import_Failed r + 1) |}.

(** [tid := tenantID; if full && e.TenantID != nil { tid = *e.TenantID }] *)
Definition tenantFor (tenantID : N) (full : bool) (entityTenantID : option N) : N :=
  if full then default tenantID entityTenantID else tenantID.

Section ImportFunctions.

Context {Category Document DocumentPermission : Type}.
Variable category_ID : Category → string.
Variable category_TenantID : Category → option N.
Variable category_ParentID : Category → option string.
Variable document_ID : Document → string.
Variable document_TenantID : Document → option N.
Variable permission_ID : DocumentPermission → Z.
Variable permission_TenantID : DocumentPermission → option N.

(** The builders that the import saves: an update of the row of the id of
    the entity, or a create of a row in the tenant [tid]. *)
Inductive Write : Type :=
  | UpdateCategory (entity : Category)
  | CreateCategory (tid : N) (entity : Category)
  | UpdateDocument (entity : Document)
  | CreateDocument (tid : N) (entity : Document)
  | UpdateDocumentPermission (entity : DocumentPermission)
  | CreateDocumentPermission (tid : N) (entity : DocumentPermission).

Variable unmarshalCategory : RawMessage → Category + error.
Variable unmarshalDocument : RawMessage → Document + error.
Variable unmarshalDocumentPermission : RawMessage → DocumentPermission + error.
Variable unmarshalBackup : RawMessage → backupData + error.

(** [existing != nil] after [client.X.Get(ctx, id)], and the error of
    [Save], given the writes tried so far. *)
Variable client_GetCategory : list Write → string → bool.
Variable client_GetDocument : list Write → string → bool.
Variable client_GetDocumentPermission : list Write → Z → bool.
Variable client_Save : list Write → Write → option error.

(** The value of [paperlessV1.RestoreMode_RESTORE_MODE_SKIP]. *)
Variable RestoreMode_RESTORE_MODE_SKIP : Z.

(** The report, the warnings and the writes while an import function runs. *)
Record ImportState : Type := {
  state_result : EntityImportResult;
  state_warnings : list string;
  state_writes : list Write;
}.

Definition failWith (warning : string) (st : ImportState) : ImportState :=
  {| state_result := countFailed (state_result st);
     state_warnings := state_warnings st ++ [warning];
     state_writes := state_writes st |}.

(** The part that the three import functions share, for one entity:
    [if existing != nil { skip or update } else { create }], with [name] and
    [idText] for the texts of the warnings. *)
Definition saveEntity (name idText : string) (existing : bool) (update create : Write)
    (mode : Z) (st : ImportState) : ImportState :=
  if existing then
    if (mode =? RestoreMode_RESTORE_MODE_SKIP)%Z then
      {| state_result := countSkipped (state_result st);
         state_warnings := state_warnings st;
         state_writes := state_writes st |}
    else
      match client_Save (state_writes st) update with
      | Some err =>
          {| state_result := countFailed (state_result st);
             state_warnings :=
               state_warnings st
               ++ [String.append name
                     (String.append ": update "
                        (String.append idText (String.append ": " err)))];
             state_writes := state_writes st ++ [update] |}
      | None =>
          {| state_result := countUpdated (state_result st);
             state_warnings := state_warnings st;
             state_writes := state_writes st ++ [update] |}
      end
  else
    match client_Save (state_writes st) create with
    | Some err =>
        {| state_result := countFailed (state_result st);
           state_warnings :=
             state_warnings st
             ++ [String.append name
                   (String.append ": create "
                      (String.append idText (String.append ": " err)))];
           state_writes := state_writes st ++ [create] |}
    | None =>
        {| state_result := countCreated (state_result st);
           state_warnings := state_warnings st;
           state_writes := state_writes st ++ [create] |}
    end.

Definition saveCategory (tenantID : N) (full : bool) (mode : Z) (st : ImportState)
    (e : Category) : ImportState :=
  let tid := tenantFor tenantID full (category_TenantID e) in
  saveEntity "categories" (category_ID e)
    (client_GetCategory (state_writes st) (category_ID e))
    (UpdateCategory e) (CreateCategory tid e) mode st.

(** The first loop of [importCategories]: the state and [entities]. *)
Definition unmarshalCategories (st : ImportState) (items : list RawMessage)
    : ImportState * list Category :=
  foldl
    (λ '(st, entities) raw,
       match unmarshalCategory raw with
       | inr err =>
           (failWith (String.append "categories: unmarshal error: " err) st, entities)
       | inl e => (st, entities ++ [e])
       end)
    (st, []) items.

(** [writes] are the writes tried before the call. *)
Definition importCategories (fuel : nat) (writes : list Write) (items : list RawMessage)
    (tenantID : N) (full : bool) (mode : Z) : option ImportState :=
  let '(st, entities) :=
    unmarshalCategories
      {| state_result := newResult "categories" items; state_warnings := [];
         state_writes := writes |}
      items in
  match
    topologicalSortByParentID category_ID
      (λ e, default EmptyString (category_ParentID e)) fuel entities
  with
  | None => None
  | Some sorted => Some (foldl (saveCategory tenantID full mode) st sorted)
  end.

Definition importDocuments (writes : list Write) (items : list RawMessage)
    (tenantID : N) (full : bool) (mode : Z) : ImportState :=
  foldl
    (λ st raw,
       match unmarshalDocument raw with
       | inr err => failWith (String.append "documents: unmarshal error: " err) st
       | inl e =>
           let tid := tenantFor tenantID full (document_TenantID e) in
           saveEntity "documents" (document_ID e)
             (client_GetDocument (state_writes st) (document_ID e))
             (UpdateDocument e) (CreateDocument tid e) mode st
       end)
    {| state_result := newResult "documents" items; state_warnings := [];
       state_writes := writes |}
    items.

Definition importDocumentPermissions (writes : list Write) (items : list RawMessage)
    (tenantID : N) (full : bool) (mode : Z) : ImportState :=
  foldl
    (λ st raw,
       match unmarshalDocumentPermission raw with
       | inr err => failWith (String.append "documentPermissions: unmarshal error: " err) st
       | inl e =>
           let tid := tenantFor tenantID full (permission_TenantID e) in
           saveEntity "documentPermissions" (pretty.pretty (permission_ID e))
             (client_GetDocumentPermission (state_writes st) (permission_ID e))
             (UpdateDocumentPermission e) (CreateDocumentPermission tid e) mode st
       end)
    {| state_result := newResult "documentPermissions" items; state_warnings := [];
       state_writes := writes |}
    items.

(** One run of the loop over [importFuncs]: nothing for an empty [items],
    else the call of the import function [fn] and the two appends. *)
Definition importStep (items : list RawMessage)
    (fn : list Write → list RawMessage → option ImportState)
    (acc : list EntityImportResult * list string * list Write)
    : option (list EntityImportResult * list string * list Write) :=
  let '(results, warnings, writes) := acc in
  if Nat.eqb (length items) 0 then Some acc
  else
    match fn writes items with
    | None => None
    | Some st =>
        Some (results ++ [state_result st], warnings ++ state_warnings st, state_writes st)
    end.

(** [tenantID] and [isPlatformAdmin] are what the request context gives;
    [None] is the end of the fuel of the sort of the categories. *)
Definition ImportBackup (fuel : nat) (tenantID : N) (isPlatformAdmin : bool)
    (req_Mode : Z) (req_Data : RawMessage)
    : option ((ImportBackupResponse + error) * list Write) :=
  match unmarshalBackup req_Data with
  | inr err => Some (inr (String.append "invalid backup data: " err), [])
  | inl backup =>
      if negb (String.eqb (backup_Module backup) backupModule) then
        Some
          (inr (String.append "backup module mismatch: expected "
                  (String.append backupModule
                     (String.append ", got " (backup_Module backup)))), [])
      else if negb (String.eqb (backup_Version backup) backupVersion) then
        Some
          (inr (String.append "backup version mismatch: expected "
                  (String.append backupVersion
                     (String.append ", got " (backup_Version backup)))), [])
      else if backup_FullBackup backup && negb isPlatformAdmin then
        Some (inr "only platform admins can restore full backups", [])
      else
        let tenantID :=
          if negb isPlatformAdmin || negb (backup_FullBackup backup) then tenantID
          else 0%N in
        let full := backup_FullBackup backup in
        match
          importStep (data_Categories (backup_Data backup))
            (λ writes items, importCategories fuel writes items tenantID full req_Mode)
            ([], [], [])
        with
        | None => None
        | Some acc =>
            match
              importStep (data_Documents (backup_Data backup))
                (λ writes items, Some (importDocuments writes items tenantID full req_Mode))
                acc
            with
            | None => None
            | Some acc =>
                match
                  importStep (data_DocumentPermissions (backup_Data backup))
                    (λ writes items,
                       Some (importDocumentPermissions writes items tenantID full req_Mode))
                    acc
                with
                | None => None
                | Some (results, warnings, writes) =>
                    Some
                      (inl {| response_Success := true; response_Results := results;
                              response_Warnings := warnings |},
                       writes)
                end
            end
        end
  end.

(** The categories among [items] that unmarshal, in their order: the
    [entities] of [importCategories]. *)
Definition categoriesOf (items : list RawMessage) : list Category :=
  omap (λ raw, match unmarshalCategory raw with inl e => Some e | inr _ => None end) items.

(** The tenant of the row that a write creates. *)
Definition createdIn (write : Write) : option N :=
  match write with
  | CreateCategory tid _ | CreateDocument tid _ | CreateDocumentPermission tid _ => Some tid
  | _ => None
  end.

Definition isUpdate (write : Write) : bool :=
  match write with
  | UpdateCategory _ | UpdateDocument _ | UpdateDocumentPermission _ => true
  | _ => false
  end.

(** The report and the warnings of [st] account for [k] items of [n]. *)
Definition counted (n k : Z) (st : ImportState) : Prop :=
  let r := state_result st in
  import_Total r = n
  ∧ (0 ≤ import_Created r)%Z ∧ (0 ≤ import_Updated r)%Z
  ∧ (0 ≤ import_Skipped r)%Z ∧ (0 ≤ import_Failed r)%Z
  ∧ (import_Created r + import_Updated r + import_Skipped r + import_Failed r = k)%Z
  ∧ Z.of_nat (length (state_warnings st)) = import_Failed r.

End ImportFunctions.

End BackupService.

Module FixtureBackup.
Import BackupService.

(** The id that the byte [b] stands for: the string of the one character. *)
Definition idOfByte (b : Byte.byte) : string := String (Ascii.ascii_of_byte b) EmptyString.

(** A category is the pair of the bytes of its id and of its parent id, the
    zero byte for no parent; a document and a permission are the byte of
    their id.  Every entity says that it is of tenant 7. *)
Definition categoryID (c : Byte.byte * Byte.byte) : string := idOfByte c.1.

Definition categoryParentID (c : Byte.byte * Byte.byte) : option string :=
  if Byte.eqb c.2 Byte.x00 then None else Some (idOfByte c.2).

Definition permissionID (p : Byte.byte) : Z := Z.of_N (Byte.to_N p).

Definition tenantOfEntity {A} (entity : A) : option N := Some 7%N.

Definition unmarshalCategory (raw : RawMessage) : Byte.byte * Byte.byte + error :=
  match raw with
  | [id; parent] => inl (id, parent)
  | _ => inr "unexpected end of JSON input"
  end.

Definition unmarshalByte (raw : RawMessage) : Byte.byte + error :=
  match raw with
  | [id] => inl id
  | _ => inr "unexpected end of JSON input"
  end.

(** The categories "b" below "a", the root "a", "x" and "y" that are each
    other's parent, and an item that does not unmarshal. *)
Definition categories : list RawMessage :=
  [[Byte.x62; Byte.x61]; [Byte.x61; Byte.x00]; [Byte.x78; Byte.x79];
   [Byte.x79; Byte.x78]; []].

(** The documents "d" and "e", and an item that does not unmarshal. *)
Definition documents : list RawMessage := [[Byte.x64]; [Byte.x65]; []].

(** A backup of the tenant 7; it is a full backup when the request data are
    not the zero byte. *)
Definition unmarshalBackup (raw : RawMessage) : backupData + error :=
  match raw with
  | [flag] =>
      inl {| backup_Module := "paperless"; backup_Version := "1.0";
             backup_TenantID := 7; backup_FullBackup := negb (Byte.eqb flag Byte.x00);
             backup_Data :=
               {| data_Categories := [[Byte.x62; Byte.x61]; [Byte.x61; Byte.x00]];
                  data_Documents := documents;
                  data_DocumentPermissions := [[Byte.x01]] |} |}
  | _ => inr "unexpected end of JSON input"
  end.

Definition Write : Type := @Write (Byte.byte * Byte.byte) Byte.byte Byte.byte.

(** A database that holds the document "d" and nothing else, and that
    refuses no write. *)
Definition getCategory (writes : list Write) (id : string) : bool := false.
Definition getDocument (writes : list Write) (id : string) : bool := String.eqb id "d".
Definition getDocumentPermission (writes : list Write) (id : Z) : bool := false.
Definition save (writes : list Write) (write : Write) : option error := None.

Definition RESTORE_MODE_SKIP : Z := 1.
Definition RESTORE_MODE_OVERWRITE : Z := 2.

End FixtureBackup.

(** ** The document service: listing documents

    [DocumentService.ListDocuments].  The request and the response are
    generated messages: of the request the method reads [CategoryId],
    [Page], [PageSize] and [Status]; [NameFilter], [MimeTypeFilter] and
    [IncludeSubcategories] go to the repository as they are and are kept
    together as [req_Filters].  The constructor of the access error, the
    constant of the unspecified status and the name of a status are
    generated code and parameters here. *)

Module DocumentListing.

Record ListDocumentsRequest {Filters : Type} : Type := {
  req_CategoryId : option string;
  req_Page : option Z;
  req_PageSize : option Z;
  req_Status : option Z;
  req_Filters : Filters;
}.

Record ListDocumentsResponse {Proto : Type} : Type := {
  response_Documents : list Proto;
  response_Total : Z;
}.

Section ListDocuments.

Context {Document Proto Filters : Type}.
Variable document_ID : Document → string.
Variable ErrorAccessDenied : string → error.
Variable DocumentStatus_DOCUMENT_STATUS_UNSPECIFIED : Z.
Variable DocumentStatus_String : Z → string.
Variable documentRepo_List :
  N → option string → option string → Filters → Z → Z → list Document * Z * option error.
Variable documentRepo_ToProtoWithCategoryPath : Document → Proto * option error.
Variable e : Engine.
Variable now : Time.
Variable fuel : nat.

(** The call of the repository, with the defaults of the page and the name
    of the status. *)
Definition listPage (tenantID : N) (req : @ListDocumentsRequest Filters)
    : list Document * Z * option error :=
  let page := default 1%Z (req_Page req) in
  let pageSize := default 20%Z (req_PageSize req) in
  let status :=
    match req_Status req with
    | Some status =>
        if negb (status =? DocumentStatus_DOCUMENT_STATUS_UNSPECIFIED)%Z
        then Some (DocumentStatus_String status)
        else None
    | None => None
    end in
  documentRepo_List tenantID (req_CategoryId req) status (req_Filters req) page pageSize.

(** The loop that filters the page by the read permission. *)
Fixpoint protoDocumentsLoop (tenantID : N) (userID : string) (documents : list Document)
    (protoDocuments : list Proto) : option (list Proto + error) :=
  match documents with
  | [] => Some (inl protoDocuments)
  | doc :: rest =>
      match CanReadDocument e now fuel tenantID userID (document_ID doc) with
      | None => None
      | Some (Some _) => protoDocumentsLoop tenantID userID rest protoDocuments
      | Some None =>
          match documentRepo_ToProtoWithCategoryPath doc with
          | (_, Some err) => Some (inr err)
          | (proto, None) =>
              protoDocumentsLoop tenantID userID rest (protoDocuments ++ [proto])
          end
      end
  end.

Definition ListDocuments (tenantID : N) (userID : string)
    (req : @ListDocumentsRequest Filters) : option (@ListDocumentsResponse Proto + error) :=
  match
    match req_CategoryId req with
    | Some categoryId =>
        if negb (String.eqb categoryId EmptyString)
        then CanReadCategory e now fuel tenantID userID categoryId
        else Some None
    | None => Some None
    end
  with
  | None => None
  | Some (Some _) => Some (inr (ErrorAccessDenied "no read access to category"))
  | Some None =>
      let '(documents, total, err) := listPage tenantID req in
      match err with
      | Some err => Some (inr err)
      | None =>
          match protoDocumentsLoop tenantID userID documents [] with
          | None => None
          | Some (inr err) => Some (inr err)
          | Some (inl protoDocuments) =>
              Some (inl {| response_Documents := protoDocuments;
                           response_Total := PermissionService.uint32 total |})
          end
      end
  end.

(** The documents that the user may read, as the loop sees them. *)
Definition readableDocument (tenantID : N) (userID : string) (doc : Document) : Prop :=
  CanReadDocument e now fuel tenantID userID (document_ID doc) = Some None.

#[global] Instance readableDocument_dec tenantID userID doc :
  Decision (readableDocument tenantID userID doc).
Proof. unfold readableDocument. apply _. Defined.

End ListDocuments.

End DocumentListing.

Module FixtureListing.

(** Documents and their messages are their ids; the repository lists "a",
    "c" and "b" of the 3 documents in every page; user U of [FixtureBatch]
    may read "a" and "b". *)
Definition listAll (tenantID : N) (categoryId status : option string) (filters : unit)
    (page pageSize : Z) : list string * Z * option error :=
  (["a"; "c"; "b"], 3%Z, None).

Definition toProto (doc : string) : string * option error := (doc, None).

Definition request : @DocumentListing.ListDocumentsRequest unit :=
  {| DocumentListing.req_CategoryId := None; DocumentListing.req_Page := None;
     DocumentListing.req_PageSize := None; DocumentListing.req_Status := None;
     DocumentListing.req_Filters := tt |}.

End FixtureListing.
Local Open Scope string_scope.

(** ** Basic facts about the sub-checks *)

(** Membership in a list that is written out. *)
Ltac in_list := apply list_elem_of_In; simpl; tauto.

Section EngineFacts.

Variable e : Engine.
Variable now : Time.

(** An allowing direct check comes from a tuple that the store returned
    without error, that has not expired and whose relation grants the
    permission; the result carries that relation. *)
Lemma checkDirectPermission_allowed check subjectType subjectID :
  result_Allowed (checkDirectPermission e now check subjectType subjectID) = true →
  ∃ tuple,
    HasPermission (store e) (check_TenantID check) (check_ResourceType check)
      (check_ResourceID check) subjectType subjectID = (Some tuple, None)
    ∧ expired now tuple = false
    ∧ RelationGrantsPermission (tuple_Relation tuple) (check_Permission check) = true
    ∧ checkDirectPermission e now check subjectType subjectID =
        {| result_Allowed := true;
           result_Relation := Some (tuple_Relation tuple);
           result_Reason := "direct permission" |}.
Proof.
  unfold checkDirectPermission.
  destruct (HasPermission _ _ _ _ _ _) as [[tuple|] [err|]]; simpl; try discriminate.
  destruct (expired now tuple) eqn:Hexp; simpl; try discriminate.
  destruct (RelationGrantsPermission _ _) eqn:Hgr; simpl; try discriminate.
  intros _. by exists tuple.
Qed.

Lemma checkDirectPermission_grantedBy check subjectType subjectID :
  result_Allowed (checkDirectPermission e now check subjectType subjectID) = true →
  grantedBy e now (check_TenantID check) (check_Permission check)
    (checkDirectPermission e now check subjectType subjectID).
Proof.
  intros H. destruct (checkDirectPermission_allowed _ _ _ H) as (t & Hs & Hx & Hg & ->).
  by exists (check_ResourceType check), (check_ResourceID check), subjectType, subjectID, t.
Qed.

Lemma grantedBy_withReason tenantID permission result reason :
  grantedBy e now tenantID permission result →
  grantedBy e now tenantID permission (withReason result reason).
Proof. done. Qed.

Lemma grantedBy_grants tenantID permission result :
  grantedBy e now tenantID permission result →
  ∃ relation, result_Relation result = Some relation
    ∧ RelationGrantsPermission relation permission = true.
Proof. intros (? & ? & ? & ? & t & _ & _ & Hg & Hr). by exists (tuple_Relation t). Qed.

Lemma checkRoles_Some check roleIDs result :
  checkRoles e now check roleIDs = Some result →
  ∃ roleID, roleID ∈ roleIDs
    ∧ result = checkDirectPermission e now check SubjectTypeRole roleID
    ∧ result_Allowed result = true.
Proof.
  induction roleIDs as [|r rest IH]; simpl; [discriminate|].
  destruct (result_Allowed (checkDirectPermission e now check SubjectTypeRole r)) eqn:Ha.
  - intros [= <-]. exists r. split; [left | done].
  - intros H. destruct (IH H) as (r' & Hin & Heq & Hal).
    exists r'. split; [by right | done].
Qed.

Lemma checkRoles_None check roleIDs :
  checkRoles e now check roleIDs = None ↔
  ∀ roleID, roleID ∈ roleIDs →
    result_Allowed (checkDirectPermission e now check SubjectTypeRole roleID) = false.
Proof.
  induction roleIDs as [|r rest IH]; simpl.
  - split; [intros _ ? Hin; inversion Hin | done].
  - destruct (result_Allowed (checkDirectPermission e now check SubjectTypeRole r)) eqn:Ha.
    + split; [discriminate|]. intros H. specialize (H r (list_elem_of_here _ _)). congruence.
    + rewrite IH. split.
      * intros H r' Hin. inversion Hin; subst; auto.
      * intros H r' Hin. apply H. by right.
Qed.

(** The role loop returns the answer of the first role, in the order of the
    slice, whose direct check allows. *)
Lemma checkRoles_find check roleIDs :
  checkRoles e now check roleIDs =
  List.find result_Allowed
    (List.map (checkDirectPermission e now check SubjectTypeRole) roleIDs).
Proof.
  induction roleIDs as [|r rest IH]; simpl; [done|].
  by destruct (result_Allowed _).
Qed.

Lemma checkRolesInherited_spec categoryCheck roleIDs :
  checkRolesInherited e now categoryCheck roleIDs =
  (λ result, withReason result "inherited from parent category via role")
    <$> checkRoles e now categoryCheck roleIDs.
Proof.
  induction roleIDs as [|r rest IH]; simpl; [done|].
  by destruct (result_Allowed _).
Qed.

Lemma checkLevel_Some check roleIDs categoryID result :
  checkLevel e now check roleIDs categoryID = Some result →
  result_Allowed result = true
  ∧ grantedBy e now (check_TenantID check) (check_Permission check) result.
Proof.
  unfold checkLevel.
  destruct (result_Allowed (checkDirectPermission e now _ SubjectTypeUser _)) eqn:Hu.
  { intros [= <-]. split; [done|].
    by apply grantedBy_withReason,
      (checkDirectPermission_grantedBy (categoryCheckOf check categoryID)). }
  rewrite checkRolesInherited_spec.
  destruct (checkRoles e now _ roleIDs) as [r|] eqn:Hr; simpl.
  { intros [= <-]. apply checkRoles_Some in Hr as (rid & _ & -> & Hal).
    split; [done|].
    by apply grantedBy_withReason,
      (checkDirectPermission_grantedBy (categoryCheckOf check categoryID)). }
  destruct (result_Allowed (checkDirectPermission e now _ SubjectTypeTenant _)) eqn:Ht;
    [|discriminate].
  intros [= <-]. split; [done|].
  by apply grantedBy_withReason,
    (checkDirectPermission_grantedBy (categoryCheckOf check categoryID)).
Qed.

Lemma checkLevel_reason check roleIDs categoryID result :
  checkLevel e now check roleIDs categoryID = Some result →
  result_Reason result ∈ allowingReasons.
Proof.
  unfold checkLevel.
  destruct (result_Allowed (checkDirectPermission e now _ SubjectTypeUser _)).
  { intros [= <-]. in_list. }
  rewrite checkRolesInherited_spec.
  destruct (checkRoles e now _ roleIDs) as [r|]; simpl.
  { intros [= <-]. in_list. }
  destruct (result_Allowed (checkDirectPermission e now _ SubjectTypeTenant _));
    [|discriminate].
  intros [= <-]. in_list.
Qed.

(** *** The hierarchy walk *)

Lemma walkHierarchy_allowed_grantedBy fuel check roleIDs visited parent result :
  walkHierarchy e now fuel check roleIDs visited parent = Some result →
  result_Allowed result = true →
  grantedBy e now (check_TenantID check) (check_Permission check) result.
Proof.
  revert visited parent.
  induction fuel as [|fuel IH]; intros visited [c|]; simpl;
    try discriminate; try (intros [= <-]; discriminate).
  destruct (decide (c ∈ visited)); [intros [= <-]; discriminate|].
  destruct (checkLevel e now check roleIDs c) as [r|] eqn:Hl.
  { intros [= <-] _. by apply checkLevel_Some in Hl as [_ ?]. }
  destruct (GetCategoryParentID _ _ _) as [next [err|]];
    [intros [= <-]; discriminate|].
  apply IH.
Qed.

(** More fuel never changes an answer that was reached. *)
Lemma walkHierarchy_fuel_mono fuel fuel' check roleIDs visited parent result :
  walkHierarchy e now fuel check roleIDs visited parent = Some result →
  (fuel ≤ fuel')%nat →
  walkHierarchy e now fuel' check roleIDs visited parent = Some result.
Proof.
  revert fuel' visited parent.
  induction fuel as [|fuel IH]; intros fuel' visited [c|]; simpl; try discriminate.
  - intros H _. by destruct fuel'.
  - intros H Hle. destruct fuel' as [|fuel']; [lia|]. simpl.
    destruct (decide (c ∈ visited)); [done|].
    destruct (checkLevel e now check roleIDs c); [done|].
    destruct (GetCategoryParentID _ _ _) as [next [err|]]; [done|].
    apply IH; [done | lia].
  - intros H _. by destruct fuel'.
Qed.

(** Every run of the loop body puts a new id of [categories] into [visited],
    so the walk is over before the fuel is when the fuel exceeds the number
    of ids not yet visited. *)
Lemma walkHierarchy_terminates categories fuel check roleIDs visited parent :
  hierarchyWithin e (check_TenantID check) categories →
  (∀ c, parent = Some c → c ∈ categories) →
  (size (categories ∖ visited) < fuel)%nat →
  is_Some (walkHierarchy e now fuel check roleIDs visited parent).
Proof.
  intros [Hpar _]. revert visited parent.
  induction fuel as [|fuel IH]; intros visited [c|] Hin Hsz; simpl; try done; [lia|].
  destruct (decide (c ∈ visited)) as [|Hnv]; [done|].
  destruct (checkLevel e now check roleIDs c); [done|].
  destruct (GetCategoryParentID _ _ _) as [next [err|]] eqn:Hnext; [done|].
  apply IH.
  - intros c' ->. by eapply Hpar.
  - assert (c ∈ categories) as Hc by by apply Hin.
    assert (categories ∖ ({[c]} ∪ visited) ⊂ categories ∖ visited) as Hsub.
    { split.
      - intros x. rewrite !elem_of_difference, elem_of_union. tauto.
      - intros Hsup. specialize (Hsup c). revert Hsup.
        rewrite !elem_of_difference, elem_of_union, elem_of_singleton. tauto. }
    apply subset_size in Hsub. lia.
Qed.

Lemma checkHierarchy_terminates categories fuel check roleIDs :
  hierarchyWithin e (check_TenantID check) categories →
  (size categories < fuel)%nat →
  is_Some (checkHierarchy e now fuel check roleIDs).
Proof.
  intros Hw Hsz. unfold checkHierarchy.
  assert (size (categories ∖ ∅) < fuel)%nat as Hsz'.
  { by rewrite difference_empty_L. }
  destruct (check_ResourceType check).
  - destruct (GetDocumentCategoryID _ _ _) as [cat [err|]] eqn:Hd; [done|].
    apply (walkHierarchy_terminates categories); [done | | done].
    intros c ->. destruct Hw as [_ Hdoc]. by eapply Hdoc.
  - destruct (GetCategoryParentID _ _ _) as [cat [err|]] eqn:Hd; [done|].
    apply (walkHierarchy_terminates categories); [done | | done].
    intros c ->. destruct Hw as [Hpar _]. by eapply Hpar.
  - apply (walkHierarchy_terminates categories); [done | | done]. intros c [=].
Qed.

Lemma checkHierarchy_fuel_mono fuel fuel' check roleIDs result :
  checkHierarchy e now fuel check roleIDs = Some result →
  (fuel ≤ fuel')%nat →
  checkHierarchy e now fuel' check roleIDs = Some result.
Proof.
  unfold checkHierarchy. intros H Hle.
  destruct (check_ResourceType check).
  - destruct (GetDocumentCategoryID _ _ _) as [cat [err|]]; [done|].
    by eapply walkHierarchy_fuel_mono.
  - destruct (GetCategoryParentID _ _ _) as [cat [err|]]; [done|].
    by eapply walkHierarchy_fuel_mono.
  - by eapply walkHierarchy_fuel_mono.
Qed.

Lemma checkHierarchy_allowed_grantedBy fuel check roleIDs result :
  checkHierarchy e now fuel check roleIDs = Some result →
  result_Allowed result = true →
  grantedBy e now (check_TenantID check) (check_Permission check) result.
Proof.
  unfold checkHierarchy.
  destruct (check_ResourceType check).
  - destruct (GetDocumentCategoryID _ _ _) as [cat [err|]];
      [intros [= <-]; discriminate|].
    apply walkHierarchy_allowed_grantedBy.
  - destruct (GetCategoryParentID _ _ _) as [cat [err|]];
      [intros [= <-]; discriminate|].
    apply walkHierarchy_allowed_grantedBy.
  - apply walkHierarchy_allowed_grantedBy.
Qed.

Lemma walkHierarchy_allowed_reason fuel check roleIDs visited parent result :
  walkHierarchy e now fuel check roleIDs visited parent = Some result →
  result_Allowed result = true →
  result_Reason result ∈ allowingReasons.
Proof.
  revert visited parent.
  induction fuel as [|fuel IH]; intros visited [c|]; simpl;
    try discriminate; try (intros [= <-]; discriminate).
  destruct (decide (c ∈ visited)); [intros [= <-]; discriminate|].
  destruct (checkLevel e now check roleIDs c) as [r|] eqn:Hl.
  { intros [= <-] _. by eapply checkLevel_reason. }
  destruct (GetCategoryParentID _ _ _) as [next [err|]];
    [intros [= <-]; discriminate|].
  apply IH.
Qed.

Lemma checkHierarchy_allowed_reason fuel check roleIDs result :
  checkHierarchy e now fuel check roleIDs = Some result →
  result_Allowed result = true →
  result_Reason result ∈ allowingReasons.
Proof.
  unfold checkHierarchy.
  destruct (check_ResourceType check).
  - destruct (GetDocumentCategoryID _ _ _) as [cat [err|]];
      [intros [= <-]; discriminate|].
    apply walkHierarchy_allowed_reason.
  - destruct (GetCategoryParentID _ _ _) as [cat [err|]];
      [intros [= <-]; discriminate|].
    apply walkHierarchy_allowed_reason.
  - apply walkHierarchy_allowed_reason.
Qed.

End EngineFacts.

(** ** [Check] *)

Lemma find_app_first {A} (f : A → bool) (l1 l2 : list A) :
  List.find f (l1 ++ l2) =
  match List.find f l1 with
  | Some x => Some x
  | None => List.find f l2
  end.
Proof. induction l1 as [|x l1 IH]; simpl; [done|]. by destruct (f x). Qed.

(** The first allowing answer is the one before which every answer denies. *)
Lemma find_first_allowing (results : list CheckResult) i result :
  results !! i = Some result →
  result_Allowed result = true →
  (∀ j result',
     (j < i)%nat → results !! j = Some result' → result_Allowed result' = false) →
  List.find result_Allowed results = Some result.
Proof.
  revert i. induction results as [|r rest IH]; intros [|i]; simpl; try done.
  - intros [= ->] -> _. done.
  - intros Hi Ha Hbefore.
    rewrite (Hbefore 0%nat r) by (done || lia).
    apply (IH i); [done..|].
    intros j r' Hj. apply (Hbefore (S j)). lia.
Qed.

Lemma find_no_allowing (results : list CheckResult) :
  (∀ result, result ∈ results → result_Allowed result = false) →
  List.find result_Allowed results = None.
Proof.
  induction results as [|r rest IH]; simpl; [done|].
  intros H. rewrite (H r) by left. apply IH. intros r' Hin. apply H. by right.
Qed.

Section CheckFacts.

Variable e : Engine.
Variable now : Time.

(** When one of the direct steps allows, [Check] returns the first that does,
    whatever the fuel: the hierarchy is not consulted. *)
Lemma Check_direct fuel check result :
  List.find result_Allowed (directSteps e now check) = Some result →
  Check e now fuel check = Some result.
Proof.
  unfold Check, directSteps, rolesChecked. simpl.
  destruct (result_Allowed (checkDirectPermission e now check SubjectTypeUser _)); [done|].
  destruct (GetUserRoleIDs _ _ _) as [roleIDs [err|]]; simpl.
  - destruct (result_Allowed (checkDirectPermission e now check SubjectTypeTenant _));
      [done | discriminate].
  - rewrite find_app_first, <- checkRoles_find.
    destruct (checkRoles e now check roleIDs); [done|]. simpl.
    destruct (result_Allowed (checkDirectPermission e now check SubjectTypeTenant _));
      [done | discriminate].
Qed.

(** When no direct step allows, [Check] returns what the hierarchy step
    answers on the role ids of the one role lookup, if it allows, and the
    final denial otherwise. *)
Lemma Check_inherited fuel check :
  List.find result_Allowed (directSteps e now check) = None →
  Check e now fuel check =
  match checkHierarchy e now fuel check
          (GetUserRoleIDs (lookup e) (check_TenantID check) (check_UserID check)).1 with
  | None => None
  | Some result =>
      Some (if result_Allowed result then result else denied "no permission found")
  end.
Proof.
  unfold Check, directSteps, rolesChecked. simpl.
  destruct (result_Allowed (checkDirectPermission e now check SubjectTypeUser _));
    [discriminate|].
  destruct (GetUserRoleIDs _ _ _) as [roleIDs [err|]]; simpl.
  - destruct (result_Allowed (checkDirectPermission e now check SubjectTypeTenant _));
      [discriminate|].
    intros _. destruct (checkHierarchy _ _ _ _ _) as [r|]; [|done]. by destruct (result_Allowed r).
  - rewrite find_app_first, <- checkRoles_find.
    destruct (checkRoles e now check roleIDs); [discriminate|]. simpl.
    destruct (result_Allowed (checkDirectPermission e now check SubjectTypeTenant _));
      [discriminate|].
    intros _. destruct (checkHierarchy _ _ _ _ _) as [r|]; [|done]. by destruct (result_Allowed r).
Qed.

Lemma Check_terminates categories fuel check :
  hierarchyWithin e (check_TenantID check) categories →
  (size categories < fuel)%nat →
  is_Some (Check e now fuel check).
Proof.
  intros Hw Hsz.
  destruct (List.find result_Allowed (directSteps e now check)) as [r|] eqn:Hd.
  - rewrite (Check_direct _ _ _ Hd). done.
  - rewrite (Check_inherited _ _ Hd).
    destruct (checkHierarchy_terminates e now categories fuel check
                (GetUserRoleIDs (lookup e) (check_TenantID check) (check_UserID check)).1
                Hw Hsz) as [h ->].
    done.
Qed.

Lemma Check_fuel_mono fuel fuel' check result :
  Check e now fuel check = Some result →
  (fuel ≤ fuel')%nat →
  Check e now fuel' check = Some result.
Proof.
  intros H Hle.
  destruct (List.find result_Allowed (directSteps e now check)) as [r|] eqn:Hd.
  - rewrite (Check_direct fuel' _ _ Hd). by rewrite (Check_direct fuel _ _ Hd) in H.
  - rewrite (Check_inherited fuel' _ Hd). rewrite (Check_inherited fuel _ Hd) in H.
    destruct (checkHierarchy e now fuel check _) as [h|] eqn:Hh; [|done].
    by rewrite (checkHierarchy_fuel_mono _ _ _ _ _ _ _ Hh Hle).
Qed.

(** Every direct step that allows rests on a tuple that grants the
    permission asked for. *)
Lemma directSteps_grantedBy check result :
  result ∈ directSteps e now check →
  result_Allowed result = true →
  grantedBy e now (check_TenantID check) (check_Permission check) result.
Proof.
  unfold directSteps. intros Hin Ha.
  apply elem_of_cons in Hin as [-> | Hin];
    [by apply checkDirectPermission_grantedBy|].
  apply elem_of_app in Hin as [Hin | Hin].
  - apply list_elem_of_In, in_map_iff in Hin as (roleID & <- & _).
    by apply checkDirectPermission_grantedBy.
  - apply list_elem_of_singleton in Hin as ->. by apply checkDirectPermission_grantedBy.
Qed.

(** [Check] allows only on the strength of a tuple, and denies only with its
    own final reason. *)
Lemma Check_Some fuel check result :
  Check e now fuel check = Some result →
  (result_Allowed result = true
   ∧ grantedBy e now (check_TenantID check) (check_Permission check) result)
  ∨ result = denied "no permission found".
Proof.
  destruct (List.find result_Allowed (directSteps e now check)) as [r|] eqn:Hd.
  - rewrite (Check_direct _ _ _ Hd). intros [= <-].
    apply find_some in Hd as [Hin Ha]. left. split; [done|].
    apply directSteps_grantedBy; [|done]. by apply list_elem_of_In.
  - rewrite (Check_inherited _ _ Hd).
    destruct (checkHierarchy e now fuel check _) as [h|] eqn:Hh; [|discriminate].
    destruct (result_Allowed h) eqn:Ha; intros [= <-]; [left | by right].
    split; [done|]. by eapply checkHierarchy_allowed_grantedBy.
Qed.

Lemma Check_allowed_reason fuel check result :
  Check e now fuel check = Some result →
  result_Allowed result = true →
  result_Reason result ∈ allowingReasons.
Proof.
  destruct (List.find result_Allowed (directSteps e now check)) as [r|] eqn:Hd.
  - rewrite (Check_direct _ _ _ Hd). intros [= <-] _.
    apply find_some in Hd as [Hin Ha]. apply list_elem_of_In in Hin.
    assert (∃ st sid, r = checkDirectPermission e now check st sid) as (st & sid & ->).
    { unfold directSteps in Hin.
      apply elem_of_cons in Hin as [-> | Hin]; [by eauto|].
      apply elem_of_app in Hin as [Hin | Hin].
      - apply list_elem_of_In, in_map_iff in Hin as (roleID & <- & _). by eauto.
      - apply list_elem_of_singleton in Hin as ->. by eauto. }
    destruct (checkDirectPermission_allowed e now _ _ _ Ha) as (t & _ & _ & _ & ->).
    in_list.
  - rewrite (Check_inherited _ _ Hd).
    destruct (checkHierarchy e now fuel check _) as [h|] eqn:Hh; [|discriminate].
    destruct (result_Allowed h) eqn:Ha; intros [= <-]; [|discriminate].
    intros _. by eapply checkHierarchy_allowed_reason.
Qed.

End CheckFacts.

(** ** The in-memory ports *)

Lemma memoryLookup_within st parents documents roles tenantID :
  hierarchyWithin
    {| store := st; lookup := Fixture.memoryLookup parents documents roles |}
    tenantID (map_img parents ∪ map_img documents).
Proof.
  split; simpl; intros k p [= Hk]; apply elem_of_union; [left | right];
    apply elem_of_map_img; by exists k.
Qed.

(** ** Properties of [Check] *)

(** C1. For every tenant, user, resource and permission, [Check] goes through
    the candidate grants in strict order: the direct tuple of the user on the
    target resource, then the direct tuple of each role id in the order of
    the role lookup, then the tenant wildcard tuple of subject "all", then
    the inheritance through the hierarchy.  It returns the first answer that
    allows; when no step allows it returns allowed=false with the reason
    "no permission found".  (On a finite hierarchy and with fuel beyond its
    size, so that the hierarchy step has an answer.) *)
Theorem Check_strict_order e now categories fuel check :
  hierarchyWithin e (check_TenantID check) categories →
  (size categories < fuel)%nat →
  ∃ inherited,
    checkHierarchy e now fuel check
      (GetUserRoleIDs (lookup e) (check_TenantID check) (check_UserID check)).1
    = Some inherited
    ∧ let steps :=
        ([checkDirectPermission e now check SubjectTypeUser (check_UserID check)]
         ++ List.map (checkDirectPermission e now check SubjectTypeRole)
              (rolesChecked e (check_TenantID check) (check_UserID check))
         ++ [checkDirectPermission e now check SubjectTypeTenant "all"]
         ++ [inherited])%list in
      Check e now fuel check = Some (firstAllowing steps)
      ∧ (∀ i result,
           steps !! i = Some result →
           result_Allowed result = true →
           (∀ j result', (j < i)%nat → steps !! j = Some result' →
              result_Allowed result' = false) →
           Check e now fuel check = Some result)
      ∧ ((∀ result, result ∈ steps → result_Allowed result = false) →
         Check e now fuel check = Some (denied "no permission found")).
Proof.
  intros Hw Hsz.
  destruct (checkHierarchy_terminates e now categories fuel check
              (GetUserRoleIDs (lookup e) (check_TenantID check) (check_UserID check)).1
              Hw Hsz) as [inherited Hh].
  exists inherited. split; [done|].
  assert (([checkDirectPermission e now check SubjectTypeUser (check_UserID check)]
           ++ List.map (checkDirectPermission e now check SubjectTypeRole)
                (rolesChecked e (check_TenantID check) (check_UserID check))
           ++ [checkDirectPermission e now check SubjectTypeTenant "all"]
           ++ [inherited])%list
          = (directSteps e now check ++ [inherited])%list) as ->.
  { unfold directSteps. simpl. by rewrite <- app_assoc. }
  assert (Check e now fuel check
          = Some (firstAllowing (directSteps e now check ++ [inherited])%list)) as Heq.
  { unfold firstAllowing. rewrite find_app_first.
    destruct (List.find result_Allowed (directSteps e now check)) as [r|] eqn:Hd.
    - by rewrite (Check_direct _ _ _ _ _ Hd).
    - rewrite (Check_inherited _ _ _ _ Hd), Hh. simpl.
      by destruct (result_Allowed inherited). }
  cbv zeta. split; [done|]. split.
  - intros i result Hi Ha Hbefore. rewrite Heq. unfold firstAllowing.
    by rewrite (find_first_allowing _ i result).
  - intros Hnone. rewrite Heq. unfold firstAllowing.
    by rewrite find_no_allowing.
Qed.

Lemma Check_strict_order_witness :
  ∃ inherited,
    checkHierarchy Fixture.inheritance 0%Z 3
      (Fixture.checkOf "U" PermissionRead ResourceTypeDocument "D") [] = Some inherited
    ∧ Check Fixture.inheritance 0%Z 3
        (Fixture.checkOf "U" PermissionRead ResourceTypeDocument "D")
      = Some inherited.
Proof.
  destruct (Check_strict_order Fixture.inheritance 0%Z
              (map_img ({[ "C2" := "C1" ]} : gmap string string)
               ∪ map_img ({[ "D" := "C2" ]} : gmap string string))
              3 (Fixture.checkOf "U" PermissionRead ResourceTypeDocument "D"))
    as (inherited & Hh & Heq & _ & _).
  - apply memoryLookup_within.
  - vm_compute. lia.
  - exists inherited. split; [exact Hh|].
    rewrite Heq. revert Hh. vm_compute. by intros [= <-].
Defined.

(** C2. A tuple whose [expiresAt] is set and lies before the current time
    makes the direct check on it fail with the reason "permission expired":
    the tuple never allows, whatever its relation would grant. *)
Theorem expired_tuple_never_allows e now check subjectType subjectID tuple expiresAt :
  HasPermission (store e) (check_TenantID check) (check_ResourceType check)
    (check_ResourceID check) subjectType subjectID = (Some tuple, None) →
  tuple_ExpiresAt tuple = Some expiresAt →
  Before expiresAt now = true →
  checkDirectPermission e now check subjectType subjectID = denied "permission expired"
  ∧ result_Allowed (checkDirectPermission e now check subjectType subjectID) = false.
Proof.
  intros Hstore Hexp Hbefore.
  assert (checkDirectPermission e now check subjectType subjectID
          = denied "permission expired") as ->; [|done].
  unfold checkDirectPermission, expired. by rewrite Hstore, Hexp, Hbefore.
Qed.

Lemma expired_tuple_never_allows_witness :
  RelationGrantsPermission RelationOwner PermissionRead = true
  ∧ checkDirectPermission Fixture.lapsed 10%Z
      (Fixture.checkOf "U" PermissionRead ResourceTypeDocument "X") SubjectTypeUser "U"
    = denied "permission expired".
Proof.
  split; [reflexivity|].
  apply (expired_tuple_never_allows Fixture.lapsed 10%Z
           (Fixture.checkOf "U" PermissionRead ResourceTypeDocument "X")
           SubjectTypeUser "U"
           (Fixture.expiring
              (Fixture.grant 1 ResourceTypeDocument "X" RelationOwner SubjectTypeUser "U")
              5%Z)
           5%Z); reflexivity.
Defined.

(** C3. On every hierarchy, of whatever shape, a cyclic one included, the
    upward walk of [Check] comes to an end: the walk keeps a set of visited
    ids, which grows by the id of each level it checks, and stops at an id
    that is already in the set; [Check] has an answer, the same for every
    larger fuel.  On the cycle parent(C1) = C2, parent(C2) = C1 with no tuple
    anywhere the check of category C1 returns allowed=false. *)
Theorem hierarchy_walk_terminates e now categories fuel check roleIDs :
  hierarchyWithin e (check_TenantID check) categories →
  (size categories < fuel)%nat →
  is_Some (checkHierarchy e now fuel check roleIDs)
  ∧ is_Some (Check e now fuel check)
  ∧ (∀ fuel', (fuel ≤ fuel')%nat → Check e now fuel' check = Check e now fuel check)
  ∧ (∀ n visited categoryID,
       categoryID ∈ visited →
       walkHierarchy e now (S n) check roleIDs visited (Some categoryID)
       = Some (denied "no inherited permission"))
  ∧ (∀ n visited categoryID nextParent,
       categoryID ∉ visited →
       checkLevel e now check roleIDs categoryID = None →
       GetCategoryParentID (lookup e) (check_TenantID check) categoryID = (nextParent, None) →
       walkHierarchy e now (S n) check roleIDs visited (Some categoryID)
       = walkHierarchy e now n check roleIDs ({[categoryID]} ∪ visited) nextParent)
  ∧ (∀ C1 C2,
       check_ResourceType check = ResourceTypeCategory →
       check_ResourceID check = C1 →
       check_Permission check = PermissionRead →
       GetCategoryParentID (lookup e) (check_TenantID check) C1 = (Some C2, None) →
       GetCategoryParentID (lookup e) (check_TenantID check) C2 = (Some C1, None) →
       (∀ resourceType resourceID subjectType subjectID,
          HasPermission (store e) (check_TenantID check) resourceType resourceID
            subjectType subjectID = (None, None)) →
       ∃ result, Check e now fuel check = Some result ∧ result_Allowed result = false).
Proof.
  intros Hw Hsz. split; [by eapply checkHierarchy_terminates|].
  split; [by eapply Check_terminates|].
  split; [|split; [|split]].
  - intros fuel' Hle.
    destruct (Check_terminates e now categories fuel check Hw Hsz) as [r Hr].
    rewrite Hr. by eapply Check_fuel_mono.
  - intros n visited c Hin. simpl. by rewrite decide_True.
  - intros n visited c next Hnin Hlevel Hnext. simpl.
    by rewrite decide_False, Hlevel, Hnext.
  - intros C1 C2 _ _ _ _ _ Hnone.
    destruct (Check_terminates e now categories fuel check Hw Hsz) as [r Hr].
    exists r. split; [done|].
    destruct (Check_Some _ _ _ _ _ Hr) as [[_ Hg] | ->]; [|done].
    destruct Hg as (rt & rid & st & sid & t & Hs & _). rewrite Hnone in Hs. discriminate.
Qed.

Lemma hierarchy_walk_terminates_witness :
  ∃ result,
    Check Fixture.cyclic 0%Z 3
      (Fixture.checkOf "U" PermissionRead ResourceTypeCategory "C1") = Some result
    ∧ result_Allowed result = false.
Proof.
  destruct (hierarchy_walk_terminates Fixture.cyclic 0%Z
              (map_img (<[ "C1" := "C2" ]> {[ "C2" := "C1" ]} : gmap string string)
               ∪ map_img (∅ : gmap string string))
              3 (Fixture.checkOf "U" PermissionRead ResourceTypeCategory "C1") [])
    as (_ & _ & _ & _ & _ & Hcycle).
  - apply memoryLookup_within.
  - vm_compute. lia.
  - apply (Hcycle "C1" "C2"); reflexivity.
Defined.

Section ErrorsAsAbsence.

Variable e : Engine.
Variable now : Time.

(** A direct check over the silenced store allows exactly when the direct
    check over the store does, and then with the same result. *)
Lemma checkDirectPermission_silenced check subjectType subjectID :
  result_Allowed (checkDirectPermission (withSilencedStore e) now check subjectType subjectID)
  = result_Allowed (checkDirectPermission e now check subjectType subjectID)
  ∧ (result_Allowed (checkDirectPermission e now check subjectType subjectID) = true →
     checkDirectPermission (withSilencedStore e) now check subjectType subjectID
     = checkDirectPermission e now check subjectType subjectID).
Proof.
  unfold checkDirectPermission, withSilencedStore, silenced. simpl.
  by destruct (HasPermission (store e) _ _ _ _ _) as [[tuple|] [err|]].
Qed.

Lemma checkDirectPermission_silenced_allowed check subjectType subjectID :
  (if result_Allowed
        (checkDirectPermission (withSilencedStore e) now check subjectType subjectID)
   then Some (checkDirectPermission (withSilencedStore e) now check subjectType subjectID)
   else None)
  = (if result_Allowed (checkDirectPermission e now check subjectType subjectID)
     then Some (checkDirectPermission e now check subjectType subjectID)
     else None).
Proof.
  destruct (checkDirectPermission_silenced check subjectType subjectID) as [Hallowed Hsame].
  rewrite Hallowed.
  destruct (result_Allowed (checkDirectPermission e now check subjectType subjectID));
    [by rewrite Hsame | done].
Qed.

Lemma checkRoles_silenced check roleIDs :
  checkRoles (withSilencedStore e) now check roleIDs = checkRoles e now check roleIDs.
Proof.
  induction roleIDs as [|roleID rest IH]; simpl; [done|].
  destruct (checkDirectPermission_silenced check SubjectTypeRole roleID) as [Hallowed Hsame].
  rewrite Hallowed, IH.
  destruct (result_Allowed (checkDirectPermission e now check SubjectTypeRole roleID));
    [by rewrite Hsame | done].
Qed.

Lemma checkLevel_silenced check roleIDs categoryID :
  checkLevel (withSilencedStore e) now check roleIDs categoryID
  = checkLevel e now check roleIDs categoryID.
Proof.
  unfold checkLevel. rewrite !checkRolesInherited_spec, checkRoles_silenced.
  destruct (checkDirectPermission_silenced (categoryCheckOf check categoryID)
              SubjectTypeUser (check_UserID check)) as [Huser HuserSame].
  destruct (checkDirectPermission_silenced (categoryCheckOf check categoryID)
              SubjectTypeTenant "all") as [Htenant HtenantSame].
  rewrite Huser, Htenant.
  destruct (result_Allowed
              (checkDirectPermission e now (categoryCheckOf check categoryID)
                 SubjectTypeUser (check_UserID check))); [by rewrite HuserSame|].
  destruct (_ <$> checkRoles e now (categoryCheckOf check categoryID) roleIDs); [done|].
  destruct (result_Allowed
              (checkDirectPermission e now (categoryCheckOf check categoryID)
                 SubjectTypeTenant "all")); [by rewrite HtenantSame | done].
Qed.

Lemma walkHierarchy_silenced fuel check roleIDs visited parent :
  walkHierarchy (withSilencedStore e) now fuel check roleIDs visited parent
  = walkHierarchy e now fuel check roleIDs visited parent.
Proof.
  revert visited parent.
  induction fuel as [|fuel IH]; intros visited [categoryID|]; simpl; try done.
  destruct (decide (categoryID ∈ visited)); [done|].
  rewrite checkLevel_silenced.
  destruct (checkLevel e now check roleIDs categoryID); [done|].
  destruct (GetCategoryParentID _ _ _) as [next [err|]]; [done|]. apply IH.
Qed.

(** For [Check] an error of the store is a missing tuple. *)
Lemma Check_silenced fuel check :
  Check (withSilencedStore e) now fuel check = Check e now fuel check.
Proof.
  unfold Check.
  destruct (checkDirectPermission_silenced check SubjectTypeUser (check_UserID check))
    as [Huser HuserSame].
  destruct (checkDirectPermission_silenced check SubjectTypeTenant "all")
    as [Htenant HtenantSame].
  rewrite Huser, Htenant.
  destruct (result_Allowed
              (checkDirectPermission e now check SubjectTypeUser (check_UserID check)));
    [by rewrite HuserSame|].
  change (lookup (withSilencedStore e)) with (lookup e).
  destruct (GetUserRoleIDs _ _ _) as [roleIDs err].
  rewrite checkRoles_silenced.
  destruct (match err with Some _ => None | None => checkRoles e now check roleIDs end);
    [done|].
  destruct (result_Allowed (checkDirectPermission e now check SubjectTypeTenant "all"));
    [by rewrite HtenantSame|].
  replace (checkHierarchy (withSilencedStore e) now fuel check roleIDs)
    with (checkHierarchy e now fuel check roleIDs); [done|].
  unfold checkHierarchy. change (lookup (withSilencedStore e)) with (lookup e).
  destruct (check_ResourceType check).
  - destruct (GetDocumentCategoryID _ _ _) as [c [?|]]; [done|].
    by rewrite walkHierarchy_silenced.
  - destruct (GetCategoryParentID _ _ _) as [c [?|]]; [done|].
    by rewrite walkHierarchy_silenced.
  - by rewrite walkHierarchy_silenced.
Qed.

End ErrorsAsAbsence.

(** C5. Whenever the store's [HasPermission] answers with an error, for
    whatever check and subject, the direct check denies with the reason
    "error checking permission".  No error reaches the caller of [Check]:
    its answer never carries that reason, and it is the answer that [Check]
    gives over the store that reports no tuple wherever the store failed, so
    an error denies the sub-check it occurs in and neither allows nor stops
    any other.  In particular an error on the direct check of the user
    leaves the role branch and the tenant branch in place: an allowing role
    or tenant tuple is still found. *)
Theorem store_error_fails_closed e now fuel check :
  (∀ anyCheck subjectType subjectID,
     (HasPermission (store e) (check_TenantID anyCheck) (check_ResourceType anyCheck)
        (check_ResourceID anyCheck) subjectType subjectID).2 ≠ None →
     checkDirectPermission e now anyCheck subjectType subjectID
     = denied "error checking permission")
  ∧ (∀ result, Check e now fuel check = Some result →
       result_Reason result ≠ "error checking permission")
  ∧ Check e now fuel check = Check (withSilencedStore e) now fuel check
  ∧ ((HasPermission (store e) (check_TenantID check) (check_ResourceType check)
        (check_ResourceID check) SubjectTypeUser (check_UserID check)).2 ≠ None →
     (∀ result,
        checkRoles e now check (rolesChecked e (check_TenantID check) (check_UserID check))
        = Some result →
        Check e now fuel check = Some result)
     ∧ (checkRoles e now check (rolesChecked e (check_TenantID check) (check_UserID check))
        = None →
        result_Allowed (checkDirectPermission e now check SubjectTypeTenant "all") = true →
        Check e now fuel check
        = Some (checkDirectPermission e now check SubjectTypeTenant "all"))).
Proof.
  assert (∀ anyCheck subjectType subjectID,
            (HasPermission (store e) (check_TenantID anyCheck)
               (check_ResourceType anyCheck) (check_ResourceID anyCheck)
               subjectType subjectID).2 ≠ None →
            checkDirectPermission e now anyCheck subjectType subjectID
            = denied "error checking permission") as Hdeny.
  { intros anyCheck st sid. unfold checkDirectPermission.
    destruct (HasPermission _ _ _ _ st sid) as [tuple [err|]]; simpl; [done|].
    intros Herr. by destruct Herr. }
  split; [done|]. split; [|split; [by rewrite Check_silenced|]].
  - intros result Hr.
    destruct (Check_Some _ _ _ _ _ Hr) as [[Ha _] | ->]; [|discriminate].
    pose proof (Check_allowed_reason _ _ _ _ _ Hr Ha) as Hin.
    apply list_elem_of_In in Hin. simpl in Hin. intros Heq. rewrite Heq in Hin.
    destruct Hin as [?|[?|[?|[?|[]]]]]; discriminate.
  - intros Huser. split.
    + intros result Hroles. apply Check_direct.
      unfold directSteps. simpl. rewrite (Hdeny _ _ _ Huser). simpl.
      by rewrite find_app_first, <- checkRoles_find, Hroles.
    + intros Hroles Htenant. apply Check_direct.
      unfold directSteps. simpl. rewrite (Hdeny _ _ _ Huser). simpl.
      by rewrite find_app_first, <- checkRoles_find, Hroles; simpl; rewrite Htenant.
Qed.

Lemma store_error_fails_closed_witness :
  checkDirectPermission Fixture.flaky 0%Z
    (Fixture.checkOf "U" PermissionRead ResourceTypeDocument "X") SubjectTypeUser "U"
  = denied "error checking permission"
  ∧ Check Fixture.flaky 0%Z 0
      (Fixture.checkOf "U" PermissionRead ResourceTypeDocument "X")
    = Some {| result_Allowed := true;
              result_Relation := Some RelationViewer;
              result_Reason := "direct permission" |}
  ∧ Check (withSilencedStore Fixture.flaky) 0%Z 0
      (Fixture.checkOf "U" PermissionRead ResourceTypeDocument "X")
    = Some {| result_Allowed := true;
              result_Relation := Some RelationViewer;
              result_Reason := "direct permission" |}.
Proof.
  destruct (store_error_fails_closed Fixture.flaky 0%Z 0
              (Fixture.checkOf "U" PermissionRead ResourceTypeDocument "X"))
    as (Hdeny & _ & Hsilenced & Hsiblings).
  destruct Hsiblings as [Hrole _]; [discriminate|].
  assert (Check Fixture.flaky 0%Z 0
            (Fixture.checkOf "U" PermissionRead ResourceTypeDocument "X")
          = Some {| result_Allowed := true;
                    result_Relation := Some RelationViewer;
                    result_Reason := "direct permission" |}) as Hcheck
    by (apply Hrole; reflexivity).
  split; [apply Hdeny; discriminate|]. split; [exact Hcheck|].
  rewrite <- Hsilenced. exact Hcheck.
Defined.

(** C6. A cancelled check is never reported as allowed: when every call of a
    port, store or lookup, answers with an error, as under a cancelled or
    expired context, [Check] returns allowed=false. *)
Theorem cancelled_check_denies e now fuel check :
  (∀ tenantID resourceType resourceID subjectType subjectID,
     (HasPermission (store e) tenantID resourceType resourceID subjectType subjectID).2
     ≠ None) →
  (∀ tenantID categoryID, (GetCategoryParentID (lookup e) tenantID categoryID).2 ≠ None) →
  (∀ tenantID documentID, (GetDocumentCategoryID (lookup e) tenantID documentID).2 ≠ None) →
  (∀ tenantID userID, (GetUserRoleIDs (lookup e) tenantID userID).2 ≠ None) →
  ∃ result, Check e now fuel check = Some result ∧ result_Allowed result = false.
Proof.
  intros Hstore Hparent Hdoc Hroles.
  assert (∀ roleIDs, is_Some (checkHierarchy e now fuel check roleIDs)) as Hh.
  { intros roleIDs. unfold checkHierarchy. destruct (check_ResourceType check).
    - specialize (Hdoc (check_TenantID check) (check_ResourceID check)).
      destruct (GetDocumentCategoryID _ _ _) as [c [err|]]; [done | by destruct Hdoc].
    - specialize (Hparent (check_TenantID check) (check_ResourceID check)).
      destruct (GetCategoryParentID _ _ _) as [c [err|]]; [done | by destruct Hparent].
    - by destruct fuel. }
  assert (is_Some (Check e now fuel check)) as [r Hr].
  { destruct (List.find result_Allowed (directSteps e now check)) as [r|] eqn:Hd.
    - by rewrite (Check_direct _ _ _ _ _ Hd).
    - rewrite (Check_inherited _ _ _ _ Hd).
      by destruct (Hh (GetUserRoleIDs (lookup e) (check_TenantID check)
                         (check_UserID check)).1) as [h ->]. }
  exists r. split; [done|].
  destruct (Check_Some _ _ _ _ _ Hr) as [[_ Hg] | ->]; [|done].
  destruct Hg as (rt & rid & st & sid & t & Hs & _).
  specialize (Hstore (check_TenantID check) rt rid st sid).
  rewrite Hs in Hstore. by destruct Hstore.
Qed.

Lemma cancelled_check_denies_witness :
  ∃ result,
    Check Fixture.cancelled 0%Z 0
      (Fixture.checkOf "U" PermissionRead ResourceTypeDocument "D") = Some result
    ∧ result_Allowed result = false.
Proof.
  apply (cancelled_check_denies Fixture.cancelled 0%Z 0
           (Fixture.checkOf "U" PermissionRead ResourceTypeDocument "D"));
    intros; discriminate.
Defined.

(** C9. Every denial that [Check] returns carries the reason
    "no permission found": the reasons with which the sub-checks deny
    ("permission expired", "error checking permission", "relation does not
    grant permission", "no direct permission", "no inherited permission" and
    the two reasons of a failed hierarchy resolution) never come out of
    [Check], since only allowing sub-results leave the evaluation steps. *)
Theorem denial_reason_is_final e now fuel check result :
  Check e now fuel check = Some result →
  (result_Allowed result = false → result_Reason result = "no permission found")
  ∧ result_Reason result ∉ internalDenialReasons.
Proof.
  intros Hr.
  destruct (Check_Some _ _ _ _ _ Hr) as [[Ha _] | ->].
  - split; [by rewrite Ha|].
    pose proof (Check_allowed_reason _ _ _ _ _ Hr Ha) as Hin.
    apply list_elem_of_In in Hin. simpl in Hin.
    intros Hbad. apply list_elem_of_In in Hbad. simpl in Hbad.
    destruct Hin as [Hin|[Hin|[Hin|[Hin|[]]]]]; rewrite <- Hin in Hbad;
      repeat (destruct Hbad as [Hbad|Hbad]; [discriminate|]); done.
  - split; [done|]. intros Hbad. apply list_elem_of_In in Hbad. simpl in Hbad.
    repeat (destruct Hbad as [Hbad|Hbad]; [discriminate|]); done.
Qed.

Lemma denial_reason_is_final_witness :
  result_Reason
    (checkDirectPermission Fixture.lapsed 10%Z
       (Fixture.checkOf "U" PermissionRead ResourceTypeDocument "X") SubjectTypeUser "U")
  = "permission expired"
  ∧ ∃ result,
      Check Fixture.lapsed 10%Z 0
        (Fixture.checkOf "U" PermissionRead ResourceTypeDocument "X") = Some result
      ∧ result_Reason result = "no permission found".
Proof.
  split; [reflexivity|].
  eexists. split; [reflexivity|].
  apply (denial_reason_is_final Fixture.lapsed 10%Z 0
           (Fixture.checkOf "U" PermissionRead ResourceTypeDocument "X"));
    reflexivity.
Defined.

(** C10. Whenever [Check] returns allowed=true, the relation of the result is
    set and it grants the permission asked for, by the grants table; so it
    is for every path that yields an allowing result: the direct checks and
    the hierarchy walk. *)
Theorem allowed_result_grants e now fuel check result :
  Check e now fuel check = Some result →
  result_Allowed result = true →
  (∃ relation, result_Relation result = Some relation
     ∧ RelationGrantsPermission relation (check_Permission check) = true)
  ∧ (∀ subjectType subjectID,
       result_Allowed (checkDirectPermission e now check subjectType subjectID) = true →
       ∃ relation,
         result_Relation (checkDirectPermission e now check subjectType subjectID)
         = Some relation
         ∧ RelationGrantsPermission relation (check_Permission check) = true)
  ∧ (∀ roleIDs inherited,
       checkHierarchy e now fuel check roleIDs = Some inherited →
       result_Allowed inherited = true →
       ∃ relation, result_Relation inherited = Some relation
         ∧ RelationGrantsPermission relation (check_Permission check) = true).
Proof.
  intros Hr Ha. split; [|split].
  - destruct (Check_Some _ _ _ _ _ Hr) as [[_ Hg] | ->]; [|discriminate].
    by eapply grantedBy_grants.
  - intros st sid Hal. eapply grantedBy_grants.
    by apply checkDirectPermission_grantedBy.
  - intros roleIDs h Hh Hal. eapply grantedBy_grants.
    by eapply checkHierarchy_allowed_grantedBy.
Qed.

Lemma allowed_result_grants_witness :
  ∃ relation,
    (result_Relation <$>
       Check Fixture.inheritance 0%Z 2
         (Fixture.checkOf "U" PermissionDelete ResourceTypeDocument "D"))
    = Some (Some relation)
    ∧ RelationGrantsPermission relation PermissionDelete = true.
Proof.
  destruct (allowed_result_grants Fixture.inheritance 0%Z 2
              (Fixture.checkOf "U" PermissionDelete ResourceTypeDocument "D")
              {| result_Allowed := true;
                 result_Relation := Some RelationOwner;
                 result_Reason := "inherited from parent category" |})
    as ((relation & Hrel & Hgrants) & _).
  - reflexivity.
  - reflexivity.
  - exists relation. split; [|exact Hgrants].
    simpl in Hrel. injection Hrel as <-. reflexivity.
Defined.

(** ** Inheritance *)

Section Inheritance.

Variable e : Engine.
Variable now : Time.

Lemma checkDirectPermission_no_tuple check subjectType subjectID :
  HasPermission (store e) (check_TenantID check) (check_ResourceType check)
    (check_ResourceID check) subjectType subjectID = (None, None) →
  checkDirectPermission e now check subjectType subjectID = denied "no direct permission".
Proof. unfold checkDirectPermission. by intros ->. Qed.

Lemma checkDirectPermission_tuple check subjectType subjectID tuple :
  HasPermission (store e) (check_TenantID check) (check_ResourceType check)
    (check_ResourceID check) subjectType subjectID = (Some tuple, None) →
  expired now tuple = false →
  RelationGrantsPermission (tuple_Relation tuple) (check_Permission check) = true →
  checkDirectPermission e now check subjectType subjectID =
  {| result_Allowed := true;
     result_Relation := Some (tuple_Relation tuple);
     result_Reason := "direct permission" |}.
Proof. unfold checkDirectPermission. by intros -> -> ->. Qed.

(** The role loop returns the answer of role [roleID] when that role allows
    and every other role of the slice denies. *)
Lemma checkRoles_only check roleIDs roleID :
  roleID ∈ roleIDs →
  result_Allowed (checkDirectPermission e now check SubjectTypeRole roleID) = true →
  (∀ other, other ∈ roleIDs → other ≠ roleID →
     result_Allowed (checkDirectPermission e now check SubjectTypeRole other) = false) →
  checkRoles e now check roleIDs
  = Some (checkDirectPermission e now check SubjectTypeRole roleID).
Proof.
  intros Hin Ha Hothers.
  induction roleIDs as [|r rest IH]; [by inversion Hin|]. simpl.
  destruct (decide (r = roleID)) as [-> | Hne]; [by rewrite Ha|].
  rewrite (Hothers r) by (by left || done).
  apply IH.
  - by apply elem_of_cons in Hin as [-> | Hin].
  - intros other Hother. apply Hothers. by right.
Qed.

(** The walk uses the port of the hierarchy and the store, and the role ids
    it was given; it never asks the role lookup. *)
Lemma checkDirectPermission_store_only e' check subjectType subjectID :
  store e' = store e →
  checkDirectPermission e' now check subjectType subjectID
  = checkDirectPermission e now check subjectType subjectID.
Proof. unfold checkDirectPermission. by intros ->. Qed.

Lemma checkLevel_store_only e' check roleIDs categoryID :
  store e' = store e →
  checkLevel e' now check roleIDs categoryID = checkLevel e now check roleIDs categoryID.
Proof.
  intros Hs. unfold checkLevel.
  rewrite !(checkDirectPermission_store_only e') by done.
  replace (checkRolesInherited e' now (categoryCheckOf check categoryID) roleIDs)
    with (checkRolesInherited e now (categoryCheckOf check categoryID) roleIDs); [done|].
  induction roleIDs as [|r rest IH]; simpl; [done|].
  by rewrite (checkDirectPermission_store_only e'), IH.
Qed.

Lemma walkHierarchy_roles_given e' fuel check roleIDs visited parent :
  store e' = store e →
  (∀ tenantID categoryID,
     GetCategoryParentID (lookup e') tenantID categoryID
     = GetCategoryParentID (lookup e) tenantID categoryID) →
  walkHierarchy e' now fuel check roleIDs visited parent
  = walkHierarchy e now fuel check roleIDs visited parent.
Proof.
  intros Hs Hp. revert visited parent.
  induction fuel as [|fuel IH]; intros visited [c|]; simpl; try done.
  destruct (decide (c ∈ visited)); [done|].
  rewrite (checkLevel_store_only e') by done.
  destruct (checkLevel e now check roleIDs c); [done|].
  rewrite Hp. destruct (GetCategoryParentID _ _ _) as [next [err|]]; [done|]. apply IH.
Qed.

Lemma checkHierarchy_roles_given e' fuel check roleIDs :
  store e' = store e →
  (∀ tenantID categoryID,
     GetCategoryParentID (lookup e') tenantID categoryID
     = GetCategoryParentID (lookup e) tenantID categoryID) →
  (∀ tenantID documentID,
     GetDocumentCategoryID (lookup e') tenantID documentID
     = GetDocumentCategoryID (lookup e) tenantID documentID) →
  checkHierarchy e' now fuel check roleIDs = checkHierarchy e now fuel check roleIDs.
Proof.
  intros Hs Hp Hd. unfold checkHierarchy.
  rewrite Hp, Hd.
  destruct (check_ResourceType check).
  - destruct (GetDocumentCategoryID _ _ _) as [c [err|]]; [done|].
    by apply walkHierarchy_roles_given.
  - destruct (GetCategoryParentID _ _ _) as [c [err|]]; [done|].
    by apply walkHierarchy_roles_given.
  - by apply walkHierarchy_roles_given.
Qed.

(** A level without any tuple lets the walk go on. *)
Lemma checkLevel_no_tuple check roleIDs categoryID :
  (∀ subjectType subjectID,
     HasPermission (store e) (check_TenantID check) ResourceTypeCategory categoryID
       subjectType subjectID = (None, None)) →
  checkLevel e now check roleIDs categoryID = None.
Proof.
  intros Hnone. unfold checkLevel.
  rewrite !checkDirectPermission_no_tuple by apply Hnone. simpl.
  rewrite checkRolesInherited_spec.
  replace (checkRoles e now (categoryCheckOf check categoryID) roleIDs) with
    (@None CheckResult); [done|].
  symmetry. apply checkRoles_None. intros r _.
  by rewrite checkDirectPermission_no_tuple by apply Hnone.
Qed.

(** A level whose one tuple is held through [subjectType], [subjectID]
    answers with the relation of the tuple and the reason of that kind of
    subject. *)
Lemma checkLevel_one_tuple check roleIDs categoryID subjectType subjectID tuple :
  holds (check_UserID check) roleIDs subjectType subjectID →
  HasPermission (store e) (check_TenantID check) ResourceTypeCategory categoryID
    subjectType subjectID = (Some tuple, None) →
  expired now tuple = false →
  RelationGrantsPermission (tuple_Relation tuple) (check_Permission check) = true →
  (∀ st sid, (st, sid) ≠ (subjectType, subjectID) →
     HasPermission (store e) (check_TenantID check) ResourceTypeCategory categoryID st sid
     = (None, None)) →
  checkLevel e now check roleIDs categoryID
  = Some {| result_Allowed := true;
            result_Relation := Some (tuple_Relation tuple);
            result_Reason := inheritedReason subjectType |}.
Proof.
  intros Hholds Hs Hexp Hgr Hothers. unfold checkLevel.
  destruct subjectType; simpl in Hholds.
  - subst subjectID.
    by rewrite (checkDirectPermission_tuple (categoryCheckOf check categoryID) _ _ tuple).
  - rewrite (checkDirectPermission_no_tuple (categoryCheckOf check categoryID))
      by (apply Hothers; congruence).
    simpl. rewrite checkRolesInherited_spec.
    rewrite (checkRoles_only _ _ subjectID).
    + by rewrite (checkDirectPermission_tuple (categoryCheckOf check categoryID) _ _ tuple).
    + done.
    + by rewrite (checkDirectPermission_tuple (categoryCheckOf check categoryID) _ _ tuple).
    + intros other _ Hne.
      rewrite (checkDirectPermission_no_tuple (categoryCheckOf check categoryID)); [done|].
      apply Hothers. congruence.
  - subst subjectID.
    rewrite (checkDirectPermission_no_tuple (categoryCheckOf check categoryID))
      by (apply Hothers; congruence).
    simpl. rewrite checkRolesInherited_spec.
    replace (checkRoles e now (categoryCheckOf check categoryID) roleIDs) with
      (@None CheckResult).
    + simpl.
      by rewrite (checkDirectPermission_tuple (categoryCheckOf check categoryID) _ _ tuple).
    + symmetry. apply checkRoles_None. intros r _.
      rewrite (checkDirectPermission_no_tuple (categoryCheckOf check categoryID)); [done|].
      apply Hothers. congruence.
Qed.

End Inheritance.

Lemma memoryStore_single tuple tenantID resourceType resourceID subjectType subjectID :
  (resourceType, resourceID, subjectType, subjectID)
  ≠ (tuple_ResourceType tuple, tuple_ResourceID tuple,
     tuple_SubjectType tuple, tuple_SubjectID tuple) →
  HasPermission (Fixture.memoryStore [tuple]) tenantID resourceType resourceID
    subjectType subjectID = (None, None).
Proof.
  intros Hne. simpl.
  destruct (Fixture.tupleMatches _ _ _ _ _ tuple) eqn:Hm; [|done].
  unfold Fixture.tupleMatches in Hm.
  repeat (apply andb_true_iff in Hm as [Hm ?]).
  repeat match goal with
         | H : bool_decide _ = true |- _ => apply bool_decide_eq_true in H
         end.
  destruct Hne. congruence.
Qed.

(** C4. User U holds an Owner tuple on category C1, category C2 has parent
    C1, document D is in C2 and there is no other tuple: the check of Read on
    D for U returns allowed=true with the reason rewritten to tell the
    inheritance, "inherited from parent category", and with "via role" or
    "via tenant" appended when the tuple is held through a role of U or
    through the tenant wildcard.  The role ids are those of the one lookup
    made before the walk: the walk takes them as its argument, applies them
    at every level and never asks the role lookup itself. *)
Theorem inherited_owner_allows e now fuel tenantID userID C1 C2 D subjectType subjectID tuple :
  holds userID (GetUserRoleIDs (lookup e) tenantID userID).1 subjectType subjectID →
  HasPermission (store e) tenantID ResourceTypeCategory C1 subjectType subjectID
  = (Some tuple, None) →
  tuple_Relation tuple = RelationOwner →
  expired now tuple = false →
  (∀ resourceType resourceID st sid,
     (resourceType, resourceID, st, sid) ≠ (ResourceTypeCategory, C1, subjectType, subjectID) →
     HasPermission (store e) tenantID resourceType resourceID st sid = (None, None)) →
  GetCategoryParentID (lookup e) tenantID C2 = (Some C1, None) →
  GetDocumentCategoryID (lookup e) tenantID D = (Some C2, None) →
  (2 ≤ fuel)%nat →
  let check :=
    {| check_TenantID := tenantID; check_UserID := userID;
       check_ResourceType := ResourceTypeDocument; check_ResourceID := D;
       check_Permission := PermissionRead |} in
  Check e now fuel check
  = Some {| result_Allowed := true;
            result_Relation := Some RelationOwner;
            result_Reason := inheritedReason subjectType |}
  ∧ Check e now fuel check
    = checkHierarchy e now fuel check (GetUserRoleIDs (lookup e) tenantID userID).1
  ∧ (∀ e' roleIDs,
       store e' = store e →
       (∀ t categoryID,
          GetCategoryParentID (lookup e') t categoryID
          = GetCategoryParentID (lookup e) t categoryID) →
       (∀ t documentID,
          GetDocumentCategoryID (lookup e') t documentID
          = GetDocumentCategoryID (lookup e) t documentID) →
       checkHierarchy e' now fuel check roleIDs = checkHierarchy e now fuel check roleIDs)
  ∧ (∀ n roleIDs visited categoryID,
       categoryID ∉ visited →
       walkHierarchy e now (S n) check roleIDs visited (Some categoryID)
       = match checkLevel e now check roleIDs categoryID with
         | Some result => Some result
         | None =>
             match GetCategoryParentID (lookup e) tenantID categoryID with
             | (_, Some _) => Some (denied "no inherited permission")
             | (nextParent, None) =>
                 walkHierarchy e now n check roleIDs ({[categoryID]} ∪ visited) nextParent
             end
         end).
Proof.
  intros Hholds Hs Hrel Hexp Hothers Hparent Hdoc Hfuel check.
  set (roleIDs := (GetUserRoleIDs (lookup e) tenantID userID).1) in *.
  assert (∀ st sid, checkDirectPermission e now check st sid = denied "no direct permission")
    as Hdirect.
  { intros st sid. apply checkDirectPermission_no_tuple. apply Hothers. discriminate. }
  assert (List.find result_Allowed (directSteps e now check) = None) as Hfind.
  { apply find_no_allowing. intros r Hin. unfold directSteps in Hin.
    rewrite !Hdirect in Hin.
    apply elem_of_cons in Hin as [-> | Hin]; [done|].
    apply elem_of_app in Hin as [Hin | Hin].
    - apply list_elem_of_In, in_map_iff in Hin as (roleID & <- & _). by rewrite Hdirect.
    - by apply list_elem_of_singleton in Hin as ->. }
  assert (RelationGrantsPermission (tuple_Relation tuple) (check_Permission check) = true)
    as Hgr by by rewrite Hrel.
  assert (checkLevel e now check roleIDs C1
          = Some {| result_Allowed := true;
                    result_Relation := Some RelationOwner;
                    result_Reason := inheritedReason subjectType |}) as Hlevel.
  { rewrite <- Hrel.
    apply (checkLevel_one_tuple e now check roleIDs C1 subjectType subjectID tuple);
      try done.
    intros st sid Hne. apply Hothers. congruence. }
  assert (checkHierarchy e now fuel check roleIDs
          = Some {| result_Allowed := true;
                    result_Relation := Some RelationOwner;
                    result_Reason := inheritedReason subjectType |}) as Hh.
  { unfold checkHierarchy. simpl. rewrite Hdoc.
    destruct fuel as [|[|fuel]]; [lia | lia |].
    cbn [walkHierarchy]. rewrite decide_False by apply not_elem_of_empty.
    destruct (decide (C2 = C1)) as [-> | Hne]; [by rewrite Hlevel|].
    rewrite checkLevel_no_tuple; [|intros st sid; apply Hothers; congruence].
    cbn [check_TenantID check]. rewrite Hparent.
    rewrite decide_False; [by rewrite Hlevel|].
    rewrite elem_of_union, elem_of_singleton. intros [? | Hin]; [done|].
    by apply not_elem_of_empty in Hin. }
  assert (Check e now fuel check
          = Some {| result_Allowed := true;
                    result_Relation := Some RelationOwner;
                    result_Reason := inheritedReason subjectType |}) as Hcheck.
  { rewrite (Check_inherited _ _ _ _ Hfind). cbn [check_TenantID check_UserID check].
    fold roleIDs. by rewrite Hh. }
  split; [done|]. split; [by rewrite Hh|]. split.
  - intros e' roles' Hs' Hp' Hd'. by apply checkHierarchy_roles_given.
  - intros n roles' visited c Hnv. cbn [walkHierarchy].
    rewrite decide_False by done.
    destruct (checkLevel e now check roles' c); [done|].
    cbn [check_TenantID check].
    by destruct (GetCategoryParentID _ _ _) as [next [err|]].
Qed.

Example inherited_via_role :
  Check Fixture.inheritanceByRole 0%Z 2
    (Fixture.checkOf "U" PermissionRead ResourceTypeDocument "D")
  = Some {| result_Allowed := true;
            result_Relation := Some RelationOwner;
            result_Reason := "inherited from parent category via role" |}.
Proof. reflexivity. Qed.

Example inherited_via_tenant :
  Check Fixture.inheritanceByTenant 0%Z 2
    (Fixture.checkOf "U" PermissionRead ResourceTypeDocument "D")
  = Some {| result_Allowed := true;
            result_Relation := Some RelationOwner;
            result_Reason := "inherited from parent category via tenant" |}.
Proof. reflexivity. Qed.

(** One unit of fuel is not enough for the two levels above D: the answer is
    "out of fuel", not a denial. *)
Example inherited_needs_two_levels :
  Check Fixture.inheritance 0%Z 1
    (Fixture.checkOf "U" PermissionRead ResourceTypeDocument "D") = None.
Proof. reflexivity. Qed.

Lemma inherited_owner_allows_witness :
  Check Fixture.inheritance 0%Z 2
    (Fixture.checkOf "U" PermissionRead ResourceTypeDocument "D")
  = Some {| result_Allowed := true;
            result_Relation := Some RelationOwner;
            result_Reason := "inherited from parent category" |}.
Proof.
  apply (inherited_owner_allows Fixture.inheritance 0%Z 2 1 "U" "C1" "C2" "D"
           SubjectTypeUser "U"
           (Fixture.grant 1 ResourceTypeCategory "C1" RelationOwner SubjectTypeUser "U")).
  - reflexivity.
  - reflexivity.
  - reflexivity.
  - reflexivity.
  - intros resourceType resourceID st sid Hne. by apply memoryStore_single.
  - reflexivity.
  - reflexivity.
  - lia.
Defined.

(** ** Ranging over a map *)

Lemma rangeOver_NoDup `{Countable K} (m : gset K) (result : list K) :
  rangeOver m result → NoDup result.
Proof. unfold rangeOver. intros ->. apply NoDup_elements. Qed.

Lemma rangeOver_elem_of `{Countable K} (m : gset K) (result : list K) (k : K) :
  rangeOver m result → k ∈ result ↔ k ∈ m.
Proof. unfold rangeOver. intros ->. apply elem_of_elements. Qed.

Lemma rangeOver_elements `{Countable K} (m : gset K) : rangeOver m (elements m).
Proof. by unfold rangeOver. Qed.

(** ** [GetEffectivePermissions] *)

Lemma recordResult_rank relation highestRelation :
  relationRank (if IsRelationAtLeast relation highestRelation
                then relation else highestRelation)
  = Nat.max (relationRank relation) (relationRank highestRelation).
Proof.
  unfold IsRelationAtLeast.
  destruct (Nat.leb_spec (relationRank highestRelation) (relationRank relation)); lia.
Qed.

Section Effective.

Variable e : Engine.
Variable now : Time.
Variable results : Permission → CheckResult.

Lemma effectiveLoop_foldl fuel check perms acc :
  (∀ perm, Check e now fuel (withPermission check perm) = Some (results perm)) →
  effectiveLoop e now fuel check perms acc = Some (foldl (recordStep results) acc perms).
Proof.
  intros Hres. revert acc.
  induction perms as [|perm rest IH]; intros acc; simpl; [done|].
  by rewrite Hres, IH.
Qed.

Lemma foldl_recordStep perms permissions highestRelation :
  ∃ permissions' highestRelation',
    foldl (recordStep results) (permissions, highestRelation) perms
    = (permissions', highestRelation')
    ∧ (∀ perm, perm ∈ permissions' ↔
         perm ∈ permissions ∨ (perm ∈ perms ∧ result_Allowed (results perm) = true))
    ∧ (relationRank highestRelation ≤ relationRank highestRelation')%nat
    ∧ (∀ perm relation,
         perm ∈ perms →
         result_Allowed (results perm) = true →
         result_Relation (results perm) = Some relation →
         (relationRank relation ≤ relationRank highestRelation')%nat)
    ∧ (highestRelation' = highestRelation
       ∨ ∃ perm, perm ∈ perms ∧ result_Allowed (results perm) = true
           ∧ result_Relation (results perm) = Some highestRelation').
Proof.
  revert permissions highestRelation.
  induction perms as [|perm rest IH]; intros permissions highestRelation.
  { exists permissions, highestRelation. simpl. split; [done|]. split.
    - intros p. split; [by left|]. intros [? | [Hin _]]; [done | by inversion Hin].
    - split; [lia|]. split; [|by left]. intros p r Hin. by inversion Hin. }
  simpl.
  destruct (result_Allowed (results perm)) eqn:Ha.
  - destruct (result_Relation (results perm)) as [relation|] eqn:Hr.
    + destruct (IH ({[perm]} ∪ permissions)
                  (if IsRelationAtLeast relation highestRelation
                   then relation else highestRelation))
        as (P' & h' & Heq & Hmem & Hle & Hmax & Hatt).
      rewrite recordResult_rank in Hle.
      exists P', h'. split; [done|]. split; [|split; [lia|split]].
      * intros p. rewrite Hmem, elem_of_union, elem_of_singleton, elem_of_cons.
        split.
        -- intros [[-> | ?] | [? ?]]; auto.
        -- intros [? | [[-> | ?] ?]]; auto.
      * intros p r Hin Hpa Hpr. apply elem_of_cons in Hin as [-> | Hin].
        -- rewrite Hr in Hpr. injection Hpr as ->. lia.
        -- by eapply Hmax.
      * destruct Hatt as [-> | (p & Hin & Hpa & Hpr)].
        -- destruct (IsRelationAtLeast relation highestRelation); [|by left].
           right. exists perm. split; [by left | done].
        -- right. exists p. split; [by right | done].
    + destruct (IH ({[perm]} ∪ permissions) highestRelation)
        as (P' & h' & Heq & Hmem & Hle & Hmax & Hatt).
      exists P', h'. split; [done|]. split; [|split; [lia|split]].
      * intros p. rewrite Hmem, elem_of_union, elem_of_singleton, elem_of_cons.
        split.
        -- intros [[-> | ?] | [? ?]]; auto.
        -- intros [? | [[-> | ?] ?]]; auto.
      * intros p r Hin Hpa Hpr. apply elem_of_cons in Hin as [-> | Hin].
        -- rewrite Hr in Hpr. discriminate.
        -- by eapply Hmax.
      * destruct Hatt as [-> | (p & Hin & Hpa & Hpr)]; [by left|].
        right. exists p. split; [by right | done].
  - destruct (IH permissions highestRelation)
      as (P' & h' & Heq & Hmem & Hle & Hmax & Hatt).
    exists P', h'. split; [done|]. split; [|split; [lia|split]].
    + intros p. rewrite Hmem, elem_of_cons. split.
      * intros [? | [? ?]]; auto.
      * intros [? | [[-> | ?] ?]]; auto. congruence.
    + intros p r Hin Hpa Hpr. apply elem_of_cons in Hin as [-> | Hin].
      * congruence.
      * by eapply Hmax.
    + destruct Hatt as [-> | (p & Hin & Hpa & Hpr)]; [by left|].
      right. exists p. split; [by right | done].
Qed.

End Effective.

(** C7. [GetEffectivePermissions] runs [Check] for each permission in the
    fixed order Read, Write, Delete, Share, Download; it returns exactly the
    permissions for which [Check] allowed; it folds the relation of each
    allowing check into a running maximum for the ranking Owner > Editor >
    Sharer > Viewer > Unspecified, an allowing check without a relation
    leaving the maximum as it is; and the relation is Unspecified when no
    permission is allowed. *)
Theorem effective_permissions e now categories fuel check :
  hierarchyWithin e (check_TenantID check) categories →
  (size categories < fuel)%nat →
  ∃ (results : Permission → CheckResult) permissions highestRelation,
    (∀ perm, Check e now fuel (withPermission check perm) = Some (results perm))
    ∧ GetEffectivePermissions e now fuel check = Some (permissions, highestRelation)
    ∧ (permissions, highestRelation)
      = foldl (λ acc perm, recordResult perm (results perm) acc)
          (∅, RelationUnspecified)
          [PermissionRead; PermissionWrite; PermissionDelete; PermissionShare;
           PermissionDownload]
    ∧ (∀ perm, perm ∈ permissions ↔ result_Allowed (results perm) = true)
    ∧ (∀ slice, rangeOver permissions slice →
         NoDup slice ∧ ∀ perm, perm ∈ slice ↔ result_Allowed (results perm) = true)
    ∧ (∀ perm relation,
         result_Allowed (results perm) = true →
         result_Relation (results perm) = Some relation →
         (relationRank relation ≤ relationRank highestRelation)%nat)
    ∧ (highestRelation = RelationUnspecified
       ∨ ∃ perm, result_Allowed (results perm) = true
           ∧ result_Relation (results perm) = Some highestRelation)
    ∧ ((∀ perm, result_Allowed (results perm) = false) →
       permissions = ∅ ∧ highestRelation = RelationUnspecified)
    ∧ (∀ perm result acc,
         result_Allowed result = true →
         result_Relation result = None →
         (recordResult perm result acc).2 = acc.2).
Proof.
  intros Hw Hsz.
  set (results := λ perm,
         default (denied "no permission found") (Check e now fuel (withPermission check perm))).
  assert (∀ perm, Check e now fuel (withPermission check perm) = Some (results perm))
    as Hres.
  { intros perm. unfold results.
    by destruct (Check_terminates e now categories fuel (withPermission check perm) Hw Hsz)
      as [r ->]. }
  assert (∀ perm, perm ∈ allPermissions) as Hall.
  { intros []; unfold allPermissions; in_list. }
  destruct (foldl_recordStep results allPermissions ∅ RelationUnspecified)
    as (P & h & Heq & Hmem & _ & Hmax & Hatt).
  assert (∀ perm, perm ∈ P ↔ result_Allowed (results perm) = true) as Hmem'.
  { intros perm. rewrite Hmem. split.
    - intros [Hin | [_ ?]]; [|done]. by apply not_elem_of_empty in Hin.
    - intros Ha. right. split; [apply Hall | done]. }
  exists results, P, h.
  split; [done|]. split.
  { unfold GetEffectivePermissions.
    by rewrite (effectiveLoop_foldl e now results fuel check allPermissions _ Hres), Heq. }
  split; [by rewrite <- Heq|]. split; [done|]. split.
  { intros slice Hslice. split; [by eapply rangeOver_NoDup|].
    intros perm. by rewrite (rangeOver_elem_of P slice perm Hslice). }
  split; [intros perm relation; by apply Hmax|]. split.
  { destruct Hatt as [-> | (perm & _ & Ha & Hr)]; [by left|]. right. by exists perm. }
  split.
  - intros Hnone. split.
    + apply set_eq. intros perm. rewrite Hmem', Hnone. split; [done|].
      intros Hin. by apply not_elem_of_empty in Hin.
    + destruct Hatt as [-> | (perm & _ & Ha & _)]; [done|]. by rewrite Hnone in Ha.
  - intros perm result [permissions' highest'] Ha Hr. unfold recordResult.
    by rewrite Ha, Hr.
Qed.

Lemma effective_permissions_witness :
  ∃ permissions,
    GetEffectivePermissions Fixture.editor 0%Z 1
      (Fixture.checkOf "U" PermissionRead ResourceTypeDocument "X")
    = Some (permissions, RelationEditor)
    ∧ PermissionRead ∈ permissions ∧ PermissionWrite ∈ permissions
    ∧ PermissionDownload ∈ permissions
    ∧ (PermissionDelete ∉ permissions) ∧ (PermissionShare ∉ permissions).
Proof.
  destruct (effective_permissions Fixture.editor 0%Z
              (map_img (∅ : gmap string string) ∪ map_img (∅ : gmap string string))
              1 (Fixture.checkOf "U" PermissionRead ResourceTypeDocument "X"))
    as (results & P & h & Hres & Heff & _ & Hmem & _).
  - apply memoryLookup_within.
  - vm_compute. lia.
  - exists P.
    assert (h = RelationEditor) as ->.
    { revert Heff. vm_compute. by intros [= _ <-]. }
    split; [exact Heff|].
    rewrite !Hmem.
    pose proof (Hres PermissionRead) as HR. pose proof (Hres PermissionWrite) as HW.
    pose proof (Hres PermissionDownload) as HL. pose proof (Hres PermissionDelete) as HD.
    pose proof (Hres PermissionShare) as HS.
    vm_compute in HR, HW, HL, HD, HS.
    injection HR as <-. injection HW as <-. injection HL as <-.
    injection HD as <-. injection HS as <-.
    repeat split; simpl; congruence.
Defined.

(** ** [ListAccessibleResources] *)

Lemma addAll_elem_of ids accessibleIDs id :
  id ∈ addAll ids accessibleIDs ↔ id ∈ ids ∨ id ∈ accessibleIDs.
Proof.
  unfold addAll. revert accessibleIDs.
  induction ids as [|x rest IH]; intros acc; simpl.
  - split; [by right|]. intros [Hin | ?]; [by inversion Hin | done].
  - rewrite IH, elem_of_union, elem_of_singleton, elem_of_cons. tauto.
Qed.

Lemma listed_elem_of e tenantID subjectType subjectID resourceType id :
  id ∈ listed e tenantID subjectType subjectID resourceType ↔
  match ListResourcesBySubject (store e) tenantID subjectType subjectID resourceType with
  | (_, Some _) => False
  | (ids, None) => id ∈ ids
  end.
Proof.
  unfold listed. destruct (ListResourcesBySubject _ _ _ _ _) as [ids [err|]]; [|done].
  split; [intros Hin; by inversion Hin | done].
Qed.

Lemma addRoleResources_elem_of e tenantID resourceType roleIDs accessibleIDs id :
  id ∈ addRoleResources e tenantID resourceType roleIDs accessibleIDs ↔
  id ∈ accessibleIDs
  ∨ ∃ roleID, roleID ∈ roleIDs
      ∧ id ∈ listed e tenantID SubjectTypeRole roleID resourceType.
Proof.
  revert accessibleIDs.
  induction roleIDs as [|r rest IH]; intros acc; simpl.
  - split; [by left|]. intros [? | (r & Hin & _)]; [done | by inversion Hin].
  - pose proof (listed_elem_of e tenantID SubjectTypeRole r resourceType id) as Hlisted.
    destruct (ListResourcesBySubject _ _ _ _ _) as [ids [err|]]; rewrite IH.
    + split.
      * intros [? | (r' & Hin & Hid)]; [by left|]. right. exists r'. split; [by right | done].
      * intros [? | (r' & Hin & Hid)]; [by left|].
        apply elem_of_cons in Hin as [-> | Hin]; [by apply Hlisted in Hid|].
        right. by exists r'.
    + rewrite addAll_elem_of. split.
      * intros [[Hid | ?] | (r' & Hin & Hid)]; [|by left|].
        -- right. exists r. split; [by left | by apply Hlisted].
        -- right. exists r'. split; [by right | done].
      * intros [? | (r' & Hin & Hid)]; [by left; right|].
        apply elem_of_cons in Hin as [-> | Hin].
        -- left. left. by apply Hlisted.
        -- right. by exists r'.
Qed.

(** The one hard failure: the error of the listing of the user itself. *)
Lemma ListAccessibleResources_user_error e tenantID userID resourceType permission ids err :
  ListResourcesBySubject (store e) tenantID SubjectTypeUser userID resourceType
  = (ids, Some err) →
  ListAccessibleResources e tenantID userID resourceType permission = inr err.
Proof. unfold ListAccessibleResources. by intros ->. Qed.

(** C8. [ListAccessibleResources] returns exactly the union, without
    duplicates, of the resource ids that the store lists for the user, for
    each role of the user and for the tenant wildcard "all", by resource type
    alone: an id comes once however many paths reach it, the permission asked
    for plays no part, and a failed role lookup counts as no roles, not as a
    failure of the listing.  (The listing of the user itself has to succeed:
    its error is the one the function returns.) *)
Theorem accessible_resources_union e tenantID userID resourceType permission userResources :
  ListResourcesBySubject (store e) tenantID SubjectTypeUser userID resourceType
  = (userResources, None) →
  ∃ accessibleIDs,
    ListAccessibleResources e tenantID userID resourceType permission = inl accessibleIDs
    ∧ (∀ result, rangeOver accessibleIDs result →
         NoDup result
         ∧ ∀ id, id ∈ result ↔
             id ∈ userResources
             ∨ (∃ roleID, roleID ∈ rolesChecked e tenantID userID
                  ∧ id ∈ listed e tenantID SubjectTypeRole roleID resourceType)
             ∨ id ∈ listed e tenantID SubjectTypeTenant "all" resourceType)
    ∧ (∀ permission',
         ListAccessibleResources e tenantID userID resourceType permission'
         = inl accessibleIDs)
    ∧ ((GetUserRoleIDs (lookup e) tenantID userID).2 ≠ None →
       ∀ id, id ∈ accessibleIDs ↔
         id ∈ userResources ∨ id ∈ listed e tenantID SubjectTypeTenant "all" resourceType).
Proof.
  intros Huser.
  set (accessibleIDs :=
         match ListAccessibleResources e tenantID userID resourceType permission with
         | inl ids => ids
         | inr _ => ∅
         end).
  assert (∀ permission',
            ListAccessibleResources e tenantID userID resourceType permission'
            = inl accessibleIDs) as Heq.
  { intros permission'. unfold accessibleIDs, ListAccessibleResources. rewrite Huser.
    by destruct (GetUserRoleIDs _ _ _) as [roleIDs [err|]],
         (ListResourcesBySubject (store e) tenantID SubjectTypeTenant "all" resourceType)
           as [tenantResources [err0|]]. }
  assert (∀ id, id ∈ accessibleIDs ↔
            id ∈ userResources
            ∨ (∃ roleID, roleID ∈ rolesChecked e tenantID userID
                 ∧ id ∈ listed e tenantID SubjectTypeRole roleID resourceType)
            ∨ id ∈ listed e tenantID SubjectTypeTenant "all" resourceType) as Hall.
  { intros id. rewrite (listed_elem_of e tenantID SubjectTypeTenant "all").
    unfold accessibleIDs, ListAccessibleResources, rolesChecked. rewrite Huser.
    destruct (GetUserRoleIDs _ _ _) as [roleIDs [err|]];
      destruct (ListResourcesBySubject (store e) tenantID SubjectTypeTenant "all"
                  resourceType) as [tenantResources [err0|]];
      rewrite ?addAll_elem_of, ?addRoleResources_elem_of, ?addAll_elem_of,
        ?elem_of_empty;
      split; try tauto.
    - intros [? | [(r & Hin & _) | ?]]; [tauto | by inversion Hin | tauto].
    - intros [? | [(r & Hin & _) | ?]]; [tauto | by inversion Hin | tauto]. }
  exists accessibleIDs. split; [apply Heq|]. split; [|split; [apply Heq|]].
  - intros result Hrange. split; [by eapply rangeOver_NoDup|].
    intros id. by rewrite (rangeOver_elem_of _ result id Hrange).
  - intros Hfail id.
    assert (rolesChecked e tenantID userID = []) as Hnone.
    { unfold rolesChecked. destruct (GetUserRoleIDs _ _ _) as [roleIDs [err|]]; [done|].
      by destruct Hfail. }
    rewrite Hall, Hnone. split; [|tauto].
    intros [? | [(r & Hin & _) | ?]]; [tauto | by inversion Hin | tauto].
Qed.

Lemma accessible_resources_union_witness :
  RelationGrantsPermission RelationViewer PermissionDelete = false
  ∧ ∃ accessibleIDs,
      ListAccessibleResources Fixture.shared 1 "U" ResourceTypeDocument PermissionDelete
      = inl accessibleIDs
      ∧ NoDup (elements accessibleIDs)
      ∧ ∀ id, id ∈ elements accessibleIDs ↔ id ∈ ["R1"; "R2"; "R3"; "R1"].
Proof.
  split; [reflexivity|].
  destruct (accessible_resources_union Fixture.shared 1 "U" ResourceTypeDocument
              PermissionDelete ["R1"])
    as (accessibleIDs & Heq & Hrange & _ & _).
  - reflexivity.
  - exists accessibleIDs. split; [exact Heq|].
    destruct (Hrange (elements accessibleIDs) (rangeOver_elements _)) as [Hnodup Hmem].
    split; [exact Hnodup|].
    intros id. rewrite Hmem.
    change (rolesChecked Fixture.shared 1 "U") with ["staff"].
    change (listed Fixture.shared 1 SubjectTypeTenant "all" ResourceTypeDocument)
      with ["R3"].
    split.
    + intros [Hin | [(r & Hr & Hin) | Hin]].
      * apply list_elem_of_singleton in Hin as ->. in_list.
      * apply list_elem_of_singleton in Hr as ->.
        change (listed Fixture.shared 1 SubjectTypeRole "staff" ResourceTypeDocument)
          with ["R2"; "R1"] in Hin.
        apply list_elem_of_In in Hin. simpl in Hin. in_list.
      * apply list_elem_of_singleton in Hin as ->. in_list.
    + intros Hin. apply list_elem_of_In in Hin. simpl in Hin.
      destruct Hin as [<- | [<- | [<- | [<- | []]]]].
      * left. in_list.
      * right. left. exists "staff". split; [in_list|].
        change (listed Fixture.shared 1 SubjectTypeRole "staff" ResourceTypeDocument)
          with ["R2"; "R1"]. in_list.
      * right. right. in_list.
      * left. in_list.
Defined.

Local Open Scope list_scope.

(** ** Further properties of the engine *)

Lemma find_some_allowing (results : list CheckResult) result :
  result ∈ results →
  result_Allowed result = true →
  ∃ first, List.find result_Allowed results = Some first ∧ result_Allowed first = true.
Proof.
  intros Hin Ha.
  destruct (List.find result_Allowed results) as [first|] eqn:Hf.
  - exists first. split; [done|]. by apply find_some in Hf as [_ ?].
  - pose proof (find_none _ _ Hf result) as Hnone.
    rewrite Hnone in Ha; [done|]. by apply list_elem_of_In.
Qed.

(** X1. A grant that the user itself holds on the target decides the check at
    once: the answer is the direct one for every fuel and for every lookup, so
    neither the roles nor the hierarchy are asked. *)
Theorem Check_user_grant_decides e now check tuple :
  HasPermission (store e) (check_TenantID check) (check_ResourceType check)
    (check_ResourceID check) SubjectTypeUser (check_UserID check) = (Some tuple, None) →
  expired now tuple = false →
  RelationGrantsPermission (tuple_Relation tuple) (check_Permission check) = true →
  ∀ fuel otherLookup,
    Check {| store := store e; lookup := otherLookup |} now fuel check
    = Some {| result_Allowed := true;
              result_Relation := Some (tuple_Relation tuple);
              result_Reason := "direct permission" |}.
Proof.
  intros Hs Hexp Hgr fuel otherLookup. unfold Check.
  rewrite (checkDirectPermission_tuple _ now check SubjectTypeUser _ tuple); done.
Qed.

Lemma Check_user_grant_decides_witness :
  Check {| store := store Fixture.editor; lookup := Fixture.cancelledLookup |} 0%Z 0
    (Fixture.checkOf "U" PermissionWrite ResourceTypeDocument "X")
  = Some {| result_Allowed := true;
            result_Relation := Some RelationEditor;
            result_Reason := "direct permission" |}.
Proof.
  apply (Check_user_grant_decides Fixture.editor 0%Z
           (Fixture.checkOf "U" PermissionWrite ResourceTypeDocument "X")
           (Fixture.grant 1 ResourceTypeDocument "X" RelationEditor SubjectTypeUser "U"));
    reflexivity.
Defined.

(** *** Tenant isolation *)

Section TenantIsolation.

Variables e e' : Engine.
Variable now : Time.
Variable tenantID : N.

Hypothesis same_tuples :
  ∀ resourceType resourceID subjectType subjectID,
    HasPermission (store e') tenantID resourceType resourceID subjectType subjectID
    = HasPermission (store e) tenantID resourceType resourceID subjectType subjectID.
Hypothesis same_parents :
  ∀ categoryID,
    GetCategoryParentID (lookup e') tenantID categoryID
    = GetCategoryParentID (lookup e) tenantID categoryID.
Hypothesis same_categories :
  ∀ documentID,
    GetDocumentCategoryID (lookup e') tenantID documentID
    = GetDocumentCategoryID (lookup e) tenantID documentID.
Hypothesis same_roles :
  ∀ userID,
    GetUserRoleIDs (lookup e') tenantID userID = GetUserRoleIDs (lookup e) tenantID userID.

Lemma checkDirectPermission_same_tenant check subjectType subjectID :
  check_TenantID check = tenantID →
  checkDirectPermission e' now check subjectType subjectID
  = checkDirectPermission e now check subjectType subjectID.
Proof. intros Ht. unfold checkDirectPermission. by rewrite Ht, same_tuples. Qed.

Lemma checkRoles_same_tenant check roleIDs :
  check_TenantID check = tenantID →
  checkRoles e' now check roleIDs = checkRoles e now check roleIDs.
Proof.
  intros Ht. induction roleIDs as [|r rest IH]; simpl; [done|].
  by rewrite checkDirectPermission_same_tenant, IH.
Qed.

Lemma checkLevel_same_tenant check roleIDs categoryID :
  check_TenantID check = tenantID →
  checkLevel e' now check roleIDs categoryID = checkLevel e now check roleIDs categoryID.
Proof.
  intros Ht. unfold checkLevel.
  rewrite !checkRolesInherited_spec, checkRoles_same_tenant by done.
  by rewrite !checkDirectPermission_same_tenant.
Qed.

Lemma walkHierarchy_same_tenant fuel check roleIDs visited parent :
  check_TenantID check = tenantID →
  walkHierarchy e' now fuel check roleIDs visited parent
  = walkHierarchy e now fuel check roleIDs visited parent.
Proof.
  intros Ht. revert visited parent.
  induction fuel as [|fuel IH]; intros visited [c|]; simpl; try done.
  destruct (decide (c ∈ visited)); [done|].
  rewrite checkLevel_same_tenant by done.
  destruct (checkLevel e now check roleIDs c); [done|].
  rewrite Ht, same_parents.
  destruct (GetCategoryParentID _ _ _) as [next [err|]]; [done|]. apply IH.
Qed.

Lemma Check_same_tenant fuel check :
  check_TenantID check = tenantID →
  Check e' now fuel check = Check e now fuel check.
Proof.
  intros Ht. unfold Check.
  rewrite !checkDirectPermission_same_tenant by done.
  rewrite Ht, same_roles.
  destruct (GetUserRoleIDs _ _ _) as [roleIDs err].
  rewrite checkRoles_same_tenant by done.
  replace (checkHierarchy e' now fuel check roleIDs)
    with (checkHierarchy e now fuel check roleIDs); [done|].
  unfold checkHierarchy. rewrite Ht, same_parents, same_categories.
  destruct (check_ResourceType check).
  - destruct (GetDocumentCategoryID _ _ _) as [c [?|]]; [done|].
    by rewrite walkHierarchy_same_tenant.
  - destruct (GetCategoryParentID _ _ _) as [c [?|]]; [done|].
    by rewrite walkHierarchy_same_tenant.
  - by rewrite walkHierarchy_same_tenant.
Qed.

End TenantIsolation.

(** X2. The answer of [Check] for a tenant depends on the answers of the ports
    for that tenant alone: two engines whose stores and lookups agree on the
    tenant of the check give the same result, whatever tuples, hierarchies or
    roles they hold for other tenants; so do the effective permissions. *)
Theorem Check_tenant_isolation e e' now fuel check :
  (∀ resourceType resourceID subjectType subjectID,
     HasPermission (store e') (check_TenantID check) resourceType resourceID
       subjectType subjectID
     = HasPermission (store e) (check_TenantID check) resourceType resourceID
         subjectType subjectID) →
  (∀ categoryID,
     GetCategoryParentID (lookup e') (check_TenantID check) categoryID
     = GetCategoryParentID (lookup e) (check_TenantID check) categoryID) →
  (∀ documentID,
     GetDocumentCategoryID (lookup e') (check_TenantID check) documentID
     = GetDocumentCategoryID (lookup e) (check_TenantID check) documentID) →
  (∀ userID,
     GetUserRoleIDs (lookup e') (check_TenantID check) userID
     = GetUserRoleIDs (lookup e) (check_TenantID check) userID) →
  Check e' now fuel check = Check e now fuel check
  ∧ GetEffectivePermissions e' now fuel check = GetEffectivePermissions e now fuel check.
Proof.
  intros Ht Hp Hc Hr. split; [by apply (Check_same_tenant e e' now (check_TenantID check))|].
  unfold GetEffectivePermissions. generalize (∅ : gset Permission, RelationUnspecified).
  induction allPermissions as [|perm rest IH]; intros acc; simpl; [done|].
  rewrite (Check_same_tenant e e' now (check_TenantID check)) by done.
  destruct (Check e now fuel (withPermission check perm)); [apply IH | done].
Qed.

Lemma Check_tenant_isolation_witness :
  Check FixtureMore.otherTenant 0%Z 2
    (Fixture.checkOf "U" PermissionRead ResourceTypeDocument "D")
  = Check Fixture.inheritance 0%Z 2
      (Fixture.checkOf "U" PermissionRead ResourceTypeDocument "D").
Proof.
  apply (Check_tenant_isolation Fixture.inheritance FixtureMore.otherTenant 0%Z 2
           (Fixture.checkOf "U" PermissionRead ResourceTypeDocument "D"));
    intros; reflexivity.
Defined.

(** *** Errors of the listing *)

(** X3. [ListAccessibleResources] fails exactly when the listing of the user
    itself fails, and then with the error of the store; a failure of the role
    lookup, of the listing of a role or of the listing of the tenant wildcard
    never reaches the caller. *)
Theorem ListAccessibleResources_fails_iff e tenantID userID resourceType permission err :
  ListAccessibleResources e tenantID userID resourceType permission = inr err
  ↔ (ListResourcesBySubject (store e) tenantID SubjectTypeUser userID resourceType).2
    = Some err.
Proof.
  unfold ListAccessibleResources.
  destruct (ListResourcesBySubject (store e) tenantID SubjectTypeUser userID resourceType)
    as [userResources [err'|]]; simpl.
  - split; by intros [= ->].
  - destruct (GetUserRoleIDs _ _ _) as [roleIDs [?|]],
      (ListResourcesBySubject (store e) tenantID SubjectTypeTenant "all" resourceType)
        as [tenantResources [?|]]; split; discriminate.
Qed.

(** *** The production lookup *)

(** X4. With the lookup of the providers the roles are those of the request
    context, not those of the user that is checked: a grant held by one of the
    caller's roles allows the check of every user id. *)
Theorem caller_roles_apply_to_every_user
    st parentOf categoryOf rolesFromContext now fuel
    tenantID resourceType resourceID permission roleID tuple :
  let e :=
    {| store := st; lookup := resourceLookupImpl parentOf categoryOf rolesFromContext |} in
  roleID ∈ rolesFromContext →
  HasPermission st tenantID resourceType resourceID SubjectTypeRole roleID
  = (Some tuple, None) →
  expired now tuple = false →
  RelationGrantsPermission (tuple_Relation tuple) permission = true →
  ∀ userID,
    ∃ result,
      Check e now fuel
        {| check_TenantID := tenantID; check_UserID := userID;
           check_ResourceType := resourceType; check_ResourceID := resourceID;
           check_Permission := permission |}
      = Some result
      ∧ result_Allowed result = true.
Proof.
  intros e Hin Hs Hexp Hgr userID.
  set (check := {| check_TenantID := tenantID; check_UserID := userID;
                   check_ResourceType := resourceType; check_ResourceID := resourceID;
                   check_Permission := permission |}).
  destruct (find_some_allowing (directSteps e now check)
              (checkDirectPermission e now check SubjectTypeRole roleID))
    as (first & Hfind & Ha).
  - unfold directSteps. right. apply elem_of_app. left.
    apply list_elem_of_In, in_map_iff. exists roleID. split; [done|].
    by apply list_elem_of_In.
  - by rewrite (checkDirectPermission_tuple e now check SubjectTypeRole roleID tuple).
  - exists first. split; [|done]. by apply Check_direct.
Qed.

Lemma caller_roles_apply_to_every_user_witness :
  ∃ result,
    Check FixtureProviders.staffOnly 0%Z 0
      (Fixture.checkOf "somebody else" PermissionRead ResourceTypeDocument "X")
    = Some result
    ∧ result_Allowed result = true.
Proof.
  apply (caller_roles_apply_to_every_user
           (store FixtureProviders.staffOnly) (λ _ _, (None, None)) (λ _ _, (None, None))
           ["staff"] 0%Z 0 1 ResourceTypeDocument "X" PermissionRead "staff"
           (Fixture.grant 1 ResourceTypeDocument "X" RelationViewer SubjectTypeRole "staff"));
    try reflexivity.
  apply list_elem_of_In. simpl. tauto.
Defined.

(** ** The checker *)

Section CheckerFacts.

Variable e : Engine.
Variable now : Time.
Variable fuel : nat.

Lemma canOf_Check permission tenantID userID resourceType resourceID :
  canOf e now fuel permission tenantID userID resourceType resourceID
  = denialOf <$>
      Check e now fuel
        {| check_TenantID := tenantID; check_UserID := userID;
           check_ResourceType := resourceType; check_ResourceID := resourceID;
           check_Permission := permission |}.
Proof. by destruct permission. Qed.

Lemma RequirePermission_Check tenantID userID resourceType resourceID permission :
  RequirePermission e now fuel tenantID userID resourceType resourceID permission
  = denialOf <$>
      Check e now fuel
        {| check_TenantID := tenantID; check_UserID := userID;
           check_ResourceType := resourceType; check_ResourceID := resourceID;
           check_Permission := permission |}.
Proof.
  unfold RequirePermission, CheckPermission.
  destruct (Check e now fuel _) as [result|]; [|done]. simpl.
  unfold denialOf. by destruct (result_Allowed result).
Qed.

End CheckerFacts.

(** X5. Whatever made the engine deny (an expired tuple, a store error, a
    relation that does not grant, a failed hierarchy lookup), the error of the
    checker reads "access denied: no permission found": for each of the five
    calls and for [RequirePermission]. *)
Theorem checker_denial_message e now fuel permission tenantID userID resourceType
    resourceID err :
  canOf e now fuel permission tenantID userID resourceType resourceID = Some (Some err)
  ∨ RequirePermission e now fuel tenantID userID resourceType resourceID permission
    = Some (Some err) →
  err = "access denied: no permission found".
Proof.
  rewrite canOf_Check, RequirePermission_Check. intros Herr.
  assert (denialOf <$>
            Check e now fuel
              {| check_TenantID := tenantID; check_UserID := userID;
                 check_ResourceType := resourceType; check_ResourceID := resourceID;
                 check_Permission := permission |}
          = Some (Some err)) as H by (by destruct Herr).
  clear Herr.
  destruct (Check e now fuel _) as [result|] eqn:Hr; [|discriminate].
  simpl in H. injection H as H. unfold denialOf in H.
  destruct (Check_Some _ _ _ _ _ Hr) as [[Ha _] | ->].
  - by rewrite Ha in H.
  - simpl in H. by injection H as <-.
Qed.

Lemma checker_denial_message_witness :
  CanReadDocument Fixture.lapsed 10%Z 0 1 "U" "X"
  = Some (Some "access denied: no permission found").
Proof.
  destruct (CanReadDocument Fixture.lapsed 10%Z 0 1 "U" "X") as [[err|]|] eqn:Hcan;
    [|vm_compute in Hcan; discriminate..].
  rewrite (checker_denial_message Fixture.lapsed 10%Z 0 PermissionRead 1 "U"
             ResourceTypeDocument "X" err); [reflexivity|].
  left. exact Hcan.
Defined.

(** X6. [RequirePermission] for a permission is the dedicated call of that
    permission, and both succeed exactly when [CheckPermission] reports
    allowed. *)
Theorem RequirePermission_agrees e now fuel permission tenantID userID resourceType
    resourceID :
  RequirePermission e now fuel tenantID userID resourceType resourceID permission
  = canOf e now fuel permission tenantID userID resourceType resourceID
  ∧ (canOf e now fuel permission tenantID userID resourceType resourceID = Some None
     ↔ ∃ reason,
         CheckPermission e now fuel tenantID userID resourceType resourceID permission
         = Some (true, reason)).
Proof.
  rewrite canOf_Check, RequirePermission_Check. split; [done|].
  unfold CheckPermission. destruct (Check e now fuel _) as [result|]; simpl.
  - unfold denialOf. destruct (result_Allowed result); split.
    + intros _. by eexists.
    + done.
    + discriminate.
    + intros [reason [=]].
  - split; [discriminate | by intros [? ?]].
Qed.

(** ** Sorting parents before children *)

Section SortFacts.

Context {T : Type}.
Variable getID : T → string.
Variable getParentID : T → string.
Variable items : list T.

Local Abbreviation idSet := (idSetOf getID items).
Local Abbreviation root := (isRoot getParentID idSet).
Local Abbreviation tables := (sortTables getID getParentID items).

Lemma idSetOf_elem_of (l : list T) (id : string) :
  id ∈ idSetOf getID l ↔ ∃ x, x ∈ l ∧ getID x = id.
Proof.
  unfold idSetOf.
  assert (∀ acc : gset string,
            id ∈ foldl (λ idSet item, {[getID item]} ∪ idSet) acc l
            ↔ id ∈ acc ∨ ∃ x, x ∈ l ∧ getID x = id) as Hgen.
  { induction l as [|y l IH]; intros acc; simpl.
    - split; [by left|]. intros [? | (x & Hin & _)]; [done | by inversion Hin].
    - rewrite IH, elem_of_union, elem_of_singleton. split.
      + intros [[-> | ?] | (x & Hin & Hid)].
        * right. exists y. split; [by left | done].
        * by left.
        * right. exists x. split; [by right | done].
      + intros [? | (x & Hin & Hid)]; [by left; right|].
        apply elem_of_cons in Hin as [-> | Hin]; [by left; left|].
        right. by exists x. }
  rewrite Hgen. split; [|by right]. intros [Hin | ?]; [|done].
  by apply not_elem_of_empty in Hin.
Qed.

(** What the second loop builds: [roots] holds the root items and
    [childMap] the other items under their parent id, both in the order of
    [items]. *)
Lemma foldl_classify (l : list T) childMap0 roots0 :
  ∃ childMap roots,
    foldl (classify getParentID idSet) (childMap0, roots0) l = (childMap, roots)
    ∧ roots = roots0 ++ filter root l
    ∧ (∀ pid, default [] (childMap !! pid)
              = default [] (childMap0 !! pid)
                ++ filter (λ x, ¬ root x ∧ getParentID x = pid) l)
    ∧ (∀ pid, childMap !! pid = None →
              childMap0 !! pid = None
              ∧ filter (λ x, ¬ root x ∧ getParentID x = pid) l = []).
Proof.
  revert childMap0 roots0.
  induction l as [|x l IH]; intros childMap0 roots0; simpl.
  { exists childMap0, roots0. split; [done|]. split; [|split].
    - by rewrite filter_nil, app_nil_r.
    - intros pid. by rewrite filter_nil, app_nil_r.
    - intros pid Hpid. by rewrite filter_nil. }
  destruct (decide (root x)) as [Hroot | Hroot].
  - destruct (IH childMap0 (roots0 ++ [x])) as (cm & rs & Heq & Hrs & Hcm & Hnone).
    exists cm, rs. split; [done|]. split; [|split].
    + rewrite Hrs, filter_cons_True by done. by rewrite <- app_assoc.
    + intros pid. rewrite Hcm, filter_cons_False; [done|]. tauto.
    + intros pid Hpid. destruct (Hnone pid Hpid) as [? ?].
      rewrite filter_cons_False; [done|]. tauto.
  - destruct (IH (<[getParentID x :=
                      default [] (childMap0 !! getParentID x) ++ [x]]> childMap0) roots0)
      as (cm & rs & Heq & Hrs & Hcm & Hnone).
    exists cm, rs. split; [done|]. split; [|split].
    + by rewrite Hrs, filter_cons_False.
    + intros pid. rewrite Hcm. destruct (decide (getParentID x = pid)) as [<- | Hne].
      * rewrite lookup_insert_eq, filter_cons_True by done. simpl.
        by rewrite <- app_assoc.
      * rewrite lookup_insert_ne by done. rewrite filter_cons_False; [done|]. tauto.
    + intros pid Hpid. destruct (Hnone pid Hpid) as [Hins ?].
      destruct (decide (getParentID x = pid)) as [<- | Hne].
      * by rewrite lookup_insert_eq in Hins.
      * rewrite lookup_insert_ne in Hins by done.
        rewrite filter_cons_False; [done|]. tauto.
Qed.

Lemma sortTables_roots x : x ∈ tables.2 ↔ x ∈ items ∧ root x.
Proof.
  unfold sortTables.
  destruct (foldl_classify items ∅ []) as (cm & rs & -> & -> & _). simpl.
  rewrite list_elem_of_filter. tauto.
Qed.

Lemma sortTables_children pid children c :
  tables.1 !! pid = Some children →
  c ∈ children ↔ c ∈ items ∧ ¬ root c ∧ getParentID c = pid.
Proof.
  unfold sortTables.
  destruct (foldl_classify items ∅ []) as (cm & rs & -> & _ & Hcm & _). simpl.
  intros Hl. specialize (Hcm pid). rewrite Hl, lookup_empty in Hcm. simpl in Hcm.
  rewrite Hcm, list_elem_of_filter. tauto.
Qed.

Lemma sortTables_children_NoDup pid children :
  NoDup items → tables.1 !! pid = Some children → NoDup children.
Proof.
  unfold sortTables.
  destruct (foldl_classify items ∅ []) as (cm & rs & -> & _ & Hcm & _). simpl.
  intros Hnd Hl. specialize (Hcm pid). rewrite Hl, lookup_empty in Hcm. simpl in Hcm.
  rewrite Hcm. by apply NoDup_filter.
Qed.

Lemma sortTables_no_children pid c :
  tables.1 !! pid = None →
  c ∈ items → ¬ root c → getParentID c ≠ pid.
Proof.
  unfold sortTables.
  destruct (foldl_classify items ∅ []) as (cm & rs & -> & _ & _ & Hnone). simpl.
  intros Hl Hin Hnr Hpid. destruct (Hnone pid Hl) as [_ Hnil].
  assert (c ∈ filter (λ x, ¬ root x ∧ getParentID x = pid) items) as Hc
    by (apply list_elem_of_filter; tauto).
  rewrite Hnil in Hc. by inversion Hc.
Qed.

Lemma sortTables_roots_NoDup : NoDup items → NoDup tables.2.
Proof.
  unfold sortTables.
  destruct (foldl_classify items ∅ []) as (cm & rs & -> & -> & _). simpl.
  by apply NoDup_filter.
Qed.

(** *** What [walk] appends *)

Lemma walk_preorder fuel childMap nodes result result' :
  walk getID fuel childMap nodes result = Some result' →
  ∃ below, result' = result ++ below ∧ preorder getID childMap nodes below.
Proof.
  revert nodes result result'.
  induction fuel as [|fuel IH]; [done|].
  intros nodes. induction nodes as [|n rest IHn]; intros result result'; simpl.
  { intros [= <-]. exists []. split; [by rewrite app_nil_r | constructor]. }
  destruct (childMap !! getID n) as [children|] eqn:Hch.
  - destruct (walk getID fuel childMap children (result ++ [n])) as [r1|] eqn:Hw;
      [|discriminate].
    intros Hrest.
    destruct (IH _ _ _ Hw) as (under & -> & Hunder).
    destruct (IHn _ _ Hrest) as (below & -> & Hbelow).
    exists (n :: under ++ below). split.
    + by rewrite <- !app_assoc.
    + by eapply preorder_node.
  - intros Hrest. destruct (IHn _ _ Hrest) as (below & -> & Hbelow).
    exists (n :: below). split.
    + by rewrite <- app_assoc.
    + by apply preorder_leaf.
Qed.

Lemma preorder_nodes childMap nodes below n :
  preorder getID childMap nodes below → n ∈ nodes → n ∈ below.
Proof.
  induction 1 as [|m rest below Hch Hrest IH|m rest children under below Hch _ _ Hrest IH];
    intros Hin; [by inversion Hin| |].
  - apply elem_of_cons in Hin as [-> | Hin]; [by left | right; auto].
  - apply elem_of_cons in Hin as [-> | Hin]; [by left|].
    right. apply elem_of_app. right. auto.
Qed.

Lemma preorder_subset nodes below x :
  preorder getID tables.1 nodes below →
  (∀ n, n ∈ nodes → n ∈ items) →
  x ∈ below → x ∈ items.
Proof.
  induction 1 as [|m rest below Hch Hrest IH
                  |m rest children under below Hch Hunder IHu Hrest IH];
    intros Hnodes Hin; [by inversion Hin| |].
  - apply elem_of_cons in Hin as [-> | Hin]; [apply Hnodes; by left|].
    apply IH; [|done]. intros n Hn. apply Hnodes. by right.
  - apply elem_of_cons in Hin as [-> | Hin]; [apply Hnodes; by left|].
    apply elem_of_app in Hin as [Hin | Hin].
    + apply IHu; [|done]. intros c Hc.
      by apply (sortTables_children _ _ c Hch) in Hc as [? _].
    + apply IH; [|done]. intros n Hn. apply Hnodes. by right.
Qed.

(** Every item that [walk] appends is one of [nodes] or comes after an item
    whose id is its parent id. *)
Lemma preorder_parent_first nodes below j c :
  preorder getID tables.1 nodes below →
  below !! j = Some c →
  c ∈ nodes
  ∨ (¬ root c
     ∧ ∃ i p, (i < j)%nat ∧ below !! i = Some p ∧ getID p = getParentID c).
Proof.
  intros Hpre. revert j c.
  induction Hpre as [|m rest below Hch Hrest IH
                     |m rest children under below Hch Hunder IHu Hrest IH];
    intros j c Hj; [by rewrite lookup_nil in Hj| |].
  - destruct j as [|j]; simpl in Hj.
    + injection Hj as <-. left. by left.
    + destruct (IH j c Hj) as [Hin | (Hnr & i & p & Hlt & Hi & Hp)].
      * left. by right.
      * right. split; [done|]. exists (S i), p. split; [lia | done].
  - destruct j as [|j]; simpl in Hj.
    + injection Hj as <-. left. by left.
    + destruct (decide (j < length under)%nat) as [Hlt | Hge].
      * rewrite lookup_app_l in Hj by done.
        destruct (IHu j c Hj) as [Hin | (Hnr & i & p & Hlt' & Hi & Hp)].
        -- apply (sortTables_children _ _ c Hch) in Hin as (_ & Hnr & Hpid).
           right. split; [done|]. exists 0%nat, m. split; [lia | done].
        -- right. split; [done|]. exists (S i), p. split; [lia|]. split; [|done].
           simpl. rewrite lookup_app_l; [done | lia].
      * rewrite lookup_app_r in Hj by lia.
        destruct (IH _ c Hj) as [Hin | (Hnr & i & p & Hlt' & Hi & Hp)].
        -- left. by right.
        -- right. split; [done|]. exists (S (length under + i)), p.
           split; [lia|]. split; [|done]. simpl.
           rewrite lookup_app_r by lia.
           by replace (length under + i - length under)%nat with i by lia.
Qed.

(** What [walk] appends is closed under children: with an item come all the
    items that name it as their parent. *)
Lemma preorder_closed nodes below p c :
  preorder getID tables.1 nodes below →
  p ∈ below →
  c ∈ items → ¬ root c → getParentID c = getID p →
  c ∈ below.
Proof.
  intros Hpre Hp Hc Hnr Hpid.
  induction Hpre as [|m rest below Hch Hrest IH
                     |m rest children under below Hch Hunder IHu Hrest IH];
    [by inversion Hp| |].
  - apply elem_of_cons in Hp as [-> | Hp].
    + by destruct (sortTables_no_children _ c Hch Hc Hnr).
    + right. auto.
  - apply elem_of_cons in Hp as [-> | Hp].
    + right. apply elem_of_app. left. apply (preorder_nodes tables.1 children under); [done|].
      by apply (sortTables_children _ _ c Hch).
    + right. apply elem_of_app in Hp as [Hp | Hp]; apply elem_of_app; auto.
Qed.

(** *** Chains to a root *)

Lemma chainToRoot_head l x : chainToRoot getID getParentID items l x → ∃ l', l = x :: l'.
Proof. destruct 1; eauto. Qed.

Lemma chainToRoot_item l x : chainToRoot getID getParentID items l x → x ∈ items.
Proof. by destruct 1. Qed.

Lemma chainToRoot_subset l x y :
  chainToRoot getID getParentID items l x → y ∈ l → y ∈ items.
Proof.
  induction 1 as [x Hx Hr | l p c Hl IH Hc Hnr Hpid]; intros Hy.
  - by apply list_elem_of_singleton in Hy as ->.
  - apply elem_of_cons in Hy as [-> | Hy]; auto.
Qed.

(** Every item of a chain has its own chain, a suffix of the chain. *)
Lemma chainToRoot_suffix l x y :
  chainToRoot getID getParentID items l x →
  y ∈ l →
  ∃ l1 l2, l = l1 ++ l2 ∧ chainToRoot getID getParentID items l2 y.
Proof.
  induction 1 as [x Hx Hr | l p c Hl IH Hc Hnr Hpid]; intros Hy.
  - apply list_elem_of_singleton in Hy as ->. exists [], [x]. split; [done|].
    by constructor.
  - apply elem_of_cons in Hy as [-> | Hy].
    + exists [], (c :: l). split; [done|]. by econstructor.
    + destruct (IH Hy) as (l1 & l2 & -> & Hl2). by exists (c :: l1), l2.
Qed.

Section UniqueIDs.

Hypothesis unique_ids : NoDup (getID <$> items).

Lemma unique_ids_NoDup : NoDup items.
Proof. by eapply NoDup_fmap_1. Qed.

Lemma unique_ids_inj x y : x ∈ items → y ∈ items → getID x = getID y → x = y.
Proof.
  revert unique_ids. clear. intros Hnd.
  induction items as [|z l IH]; intros Hx Hy Hid; [by inversion Hx|].
  rewrite fmap_cons in Hnd. apply NoDup_cons in Hnd as [Hz Hnd].
  apply elem_of_cons in Hx as [-> | Hx]; apply elem_of_cons in Hy as [-> | Hy]; auto.
  - destruct Hz. rewrite Hid. by apply list_elem_of_fmap_2.
  - destruct Hz. rewrite <- Hid. by apply list_elem_of_fmap_2.
Qed.

(** With unique ids an item has one chain at most. *)
Lemma chainToRoot_unique l l' x :
  chainToRoot getID getParentID items l x →
  chainToRoot getID getParentID items l' x →
  l = l'.
Proof.
  intros Hl. revert l'.
  induction Hl as [x Hx Hr | l p c Hl IH Hc Hnr Hpid]; intros l' Hl'.
  - inversion Hl'; subst; [done | contradiction].
  - inversion Hl' as [? ? Hr | l0 p0 ? Hl0 ? ? Hpid0]; subst; [contradiction|].
    assert (p0 = p) as ->.
    { apply unique_ids_inj; [by eapply chainToRoot_item.. |]. congruence. }
    by rewrite (IH _ Hl0).
Qed.

Lemma chainToRoot_NoDup l x : chainToRoot getID getParentID items l x → NoDup l.
Proof.
  induction 1 as [x Hx Hr | l p c Hl IH Hc Hnr Hpid].
  - apply NoDup_singleton.
  - apply NoDup_cons. split; [|done]. intros Hin.
    destruct (chainToRoot_suffix _ _ _ Hl Hin) as (l1 & l2 & -> & Hl2).
    assert (chainToRoot getID getParentID items (c :: l1 ++ l2) c) as Hfull
      by by econstructor.
    pose proof (chainToRoot_unique _ _ _ Hl2 Hfull) as Heq.
    apply (f_equal length) in Heq. simpl in Heq. rewrite length_app in Heq. lia.
Qed.

(** A chain is no longer than the list of items. *)
Lemma chainToRoot_length l x :
  chainToRoot getID getParentID items l x → (length l ≤ length items)%nat.
Proof.
  intros Hl. apply submseteq_length, NoDup_submseteq.
  - by eapply chainToRoot_NoDup.
  - intros y Hy. by eapply chainToRoot_subset.
Qed.

Lemma app_cons_tail_inj (A B : list T) a b L :
  A ++ a :: L = B ++ b :: L → A = B ∧ a = b.
Proof.
  intros Heq. change (A ++ [a] ++ L = B ++ [b] ++ L) in Heq.
  rewrite !app_assoc in Heq. apply app_inv_tail in Heq.
  by apply app_inj_tail in Heq.
Qed.

(** Below nodes that share the chain [L] of their parent, every item that
    [walk] appends has a chain through one of the nodes. *)
Lemma preorder_chain nodes below L x :
  preorder getID tables.1 nodes below →
  (∀ n, n ∈ nodes → chainToRoot getID getParentID items (n :: L) n) →
  x ∈ below →
  ∃ Q n, n ∈ nodes ∧ chainToRoot getID getParentID items (Q ++ n :: L) x.
Proof.
  intros Hpre. revert L.
  induction Hpre as [|m rest below Hch Hrest IH
                     |m rest children under below Hch Hunder IHu Hrest IH];
    intros L Hchains Hin; [by inversion Hin| |].
  - apply elem_of_cons in Hin as [-> | Hin].
    + exists [], m. split; [by left|]. apply Hchains. by left.
    + destruct (IH L) as (Q & n & Hn & Hq); [|done|].
      * intros n Hn. apply Hchains. by right.
      * exists Q, n. split; [by right | done].
  - assert (chainToRoot getID getParentID items (m :: L) m) as Hm
      by (apply Hchains; by left).
    apply elem_of_cons in Hin as [-> | Hin]; [exists [], m; split; [by left | done]|].
    apply elem_of_app in Hin as [Hin | Hin].
    + destruct (IHu (m :: L)) as (Q & c & Hc & Hq); [|done|].
      * intros c Hc. apply (sortTables_children _ _ c Hch) in Hc as (Hci & Hnr & Hpid).
        by econstructor.
      * exists (Q ++ [c]), m. split; [by left|]. by rewrite <- app_assoc.
    + destruct (IH L) as (Q & n & Hn & Hq); [|done|].
      * intros n Hn. apply Hchains. by right.
      * exists Q, n. split; [by right | done].
Qed.

Lemma preorder_NoDup nodes below L :
  preorder getID tables.1 nodes below →
  NoDup nodes →
  (∀ n, n ∈ nodes → chainToRoot getID getParentID items (n :: L) n) →
  NoDup below.
Proof.
  intros Hpre. revert L.
  induction Hpre as [|m rest below Hch Hrest IH
                     |m rest children under below Hch Hunder IHu Hrest IH];
    intros L Hnd Hchains; [constructor| |].
  - apply NoDup_cons in Hnd as [Hm Hnd].
    assert (chainToRoot getID getParentID items (m :: L) m) as Hcm
      by (apply Hchains; by left).
    assert (∀ n, n ∈ rest → chainToRoot getID getParentID items (n :: L) n) as Hrc
      by (intros n Hn; apply Hchains; by right).
    apply NoDup_cons. split; [|by eapply IH].
    intros Hin. destruct (preorder_chain _ _ L m Hrest Hrc Hin) as (Q & n & Hn & Hq).
    pose proof (chainToRoot_unique _ _ _ Hcm Hq) as Heq.
    apply (app_cons_tail_inj [] Q m n L) in Heq as [_ ->]. done.
  - apply NoDup_cons in Hnd as [Hm Hnd].
    assert (chainToRoot getID getParentID items (m :: L) m) as Hcm
      by (apply Hchains; by left).
    assert (∀ n, n ∈ rest → chainToRoot getID getParentID items (n :: L) n) as Hrc
      by (intros n Hn; apply Hchains; by right).
    assert (∀ c, c ∈ children → chainToRoot getID getParentID items (c :: m :: L) c)
      as Hcc.
    { intros c Hc. apply (sortTables_children _ _ c Hch) in Hc as (Hci & Hnr & Hpid).
      by econstructor. }
    apply NoDup_cons. split.
    + intros Hin. apply elem_of_app in Hin as [Hin | Hin].
      * destruct (preorder_chain _ _ (m :: L) m Hunder Hcc Hin) as (Q & c & Hc & Hq).
        pose proof (chainToRoot_unique _ _ _ Hcm Hq) as Heq.
        apply (f_equal length) in Heq. rewrite length_app in Heq. simpl in Heq. lia.
      * destruct (preorder_chain _ _ L m Hrest Hrc Hin) as (Q & n & Hn & Hq).
        pose proof (chainToRoot_unique _ _ _ Hcm Hq) as Heq.
        apply (app_cons_tail_inj [] Q m n L) in Heq as [_ ->]. done.
    + apply NoDup_app. split; [|split].
      * apply (IHu (m :: L)); [|done]. by eapply sortTables_children_NoDup, Hch; apply unique_ids_NoDup.
      * intros x Hxu Hxb.
        destruct (preorder_chain _ _ (m :: L) x Hunder Hcc Hxu) as (Q & c & Hc & Hq).
        destruct (preorder_chain _ _ L x Hrest Hrc Hxb) as (Q' & n & Hn & Hq').
        pose proof (chainToRoot_unique _ _ _ Hq Hq') as Heq.
        replace (Q ++ c :: m :: L) with ((Q ++ [c]) ++ m :: L) in Heq
          by by rewrite <- app_assoc.
        apply app_cons_tail_inj in Heq as [_ ->]. done.
      * by eapply IH.
Qed.

(** The nesting of [walk] follows a chain, so it is never deeper than the
    list of items is long. *)
Lemma walk_terminates fuel nodes result L :
  (∀ n, n ∈ nodes → chainToRoot getID getParentID items (n :: L) n) →
  (length L ≤ length items)%nat →
  (length items < fuel + length L)%nat →
  is_Some (walk getID fuel tables.1 nodes result).
Proof.
  revert nodes result L.
  induction fuel as [|fuel IH]; intros nodes result L Hchains HL Hfuel; [lia|].
  simpl. revert result.
  induction nodes as [|n rest IHn]; intros result; simpl; [done|].
  assert (chainToRoot getID getParentID items (n :: L) n) as Hn
    by (apply Hchains; by left).
  assert (∀ r, is_Some (walkNodes getID tables.1 (walk getID fuel tables.1) rest r))
    as Hrest.
  { apply IHn. intros m Hm. apply Hchains. by right. }
  destruct (tables.1 !! getID n) as [children|] eqn:Hch; [|apply Hrest].
  destruct (IH children (result ++ [n]) (n :: L)) as [r1 ->].
  - intros c Hc. apply (sortTables_children _ _ c Hch) in Hc as (Hci & Hnr & Hpid).
    by econstructor.
  - by apply (chainToRoot_length _ n).
  - simpl. lia.
  - apply Hrest.
Qed.

End UniqueIDs.

End SortFacts.

Section SortTheorems.

Context {T : Type}.
Variable getID : T → string.
Variable getParentID : T → string.

Lemma sort_returns_preorder items fuel :
  NoDup (getID <$> items) →
  (length items < fuel)%nat →
  ∃ sorted,
    topologicalSortByParentID getID getParentID fuel items = Some sorted
    ∧ preorder getID (sortTables getID getParentID items).1
        (sortTables getID getParentID items).2 sorted.
Proof.
  intros Huniq Hfuel. unfold topologicalSortByParentID.
  destruct (walk_terminates getID getParentID items Huniq fuel
              (sortTables getID getParentID items).2 [] [])
    as [sorted Hsorted].
  - intros n Hn. apply sortTables_roots in Hn as [? ?]. by constructor.
  - simpl. lia.
  - simpl. lia.
  - destruct (sortTables getID getParentID items) as [childMap roots]. simpl in *.
    exists sorted. split; [done|].
    by destruct (walk_preorder _ _ _ _ _ _ Hsorted) as (below & -> & Hpre).
Qed.

Lemma roots_chains items n :
  n ∈ (sortTables getID getParentID items).2 →
  chainToRoot getID getParentID items [n] n.
Proof. intros Hn. apply sortTables_roots in Hn as [? ?]. by constructor. Qed.

End SortTheorems.

(** X7. When the ids of the items are unique the sort returns, within a
    nesting of at most the number of items; it returns items of the input
    only, and every returned item that has a parent id (the empty string is
    the mark of no parent) which is the id of an item comes after an item of
    that id: parents come before children. *)
Theorem sort_parents_first {T} (getID getParentID : T → string) items fuel :
  NoDup (getID <$> items) →
  (length items < fuel)%nat →
  ∃ sorted,
    topologicalSortByParentID getID getParentID fuel items = Some sorted
    ∧ (∀ x, x ∈ sorted → x ∈ items)
    ∧ ∀ j c,
        sorted !! j = Some c →
        getParentID c ≠ EmptyString →
        (∃ p, p ∈ items ∧ getID p = getParentID c) →
        ∃ i p, (i < j)%nat ∧ sorted !! i = Some p ∧ getID p = getParentID c.
Proof.
  intros Huniq Hfuel.
  destruct (sort_returns_preorder getID getParentID items fuel Huniq Hfuel)
    as (sorted & Heq & Hpre).
  exists sorted. split; [done|]. split.
  - intros x Hx. apply (preorder_subset getID getParentID items _ _ x Hpre); [|done].
    intros n Hn. by apply sortTables_roots in Hn as [? _].
  - intros j c Hj Hne Hparent.
    destruct (preorder_parent_first getID getParentID items _ _ j c Hpre Hj)
      as [Hroot | (_ & i & p & Hlt & Hi & Hp)].
    + apply sortTables_roots in Hroot as [_ [Hempty | Hnotin]]; [done|].
      destruct Hnotin. by apply idSetOf_elem_of.
    + by exists i, p.
Qed.

Lemma sort_parents_first_witness :
  topologicalSortByParentID FixtureSort.idOf FixtureSort.parentOf 5 FixtureSort.shuffled
  = Some [("a", EmptyString); ("b", "a"); ("c", "b"); ("d", "a")].
Proof.
  destruct (sort_parents_first FixtureSort.idOf FixtureSort.parentOf FixtureSort.shuffled 5)
    as (sorted & Heq & _).
  - apply (bool_decide_unpack _). vm_compute. exact I.
  - simpl. lia.
  - rewrite Heq. revert Heq. vm_compute. by intros [= <-].
Defined.

Lemma sort_returns_anchored {T} (getID getParentID : T → string) items fuel :
  NoDup (getID <$> items) →
  (length items < fuel)%nat →
  ∃ sorted,
    topologicalSortByParentID getID getParentID fuel items = Some sorted
    ∧ NoDup sorted
    ∧ ∀ x, x ∈ sorted ↔ ∃ chain, chainToRoot getID getParentID items chain x.
Proof.
  intros Huniq Hfuel.
  destruct (sort_returns_preorder getID getParentID items fuel Huniq Hfuel)
    as (sorted & Heq & Hpre).
  exists sorted. split; [done|]. split.
  - apply (preorder_NoDup getID getParentID items Huniq _ _ [] Hpre).
    + by apply sortTables_roots_NoDup, (unique_ids_NoDup getID).
    + intros n. apply roots_chains.
  - intros x. split.
    + intros Hx.
      destruct (preorder_chain getID getParentID items _ _ [] x Hpre) as (Q & n & _ & Hq);
        [intros n; apply roots_chains | done |].
      eauto.
    + intros [chain Hchain].
      induction Hchain as [x Hx Hr | l p c Hl IH Hc Hnr Hpid].
      * apply (preorder_nodes getID _ _ _ x Hpre). by apply sortTables_roots.
      * by apply (preorder_closed getID getParentID items _ _ p c Hpre).
Qed.

(** X8. With unique ids the sort returns no item twice, and it returns exactly
    the items whose chain of parents ends in a root: an item on a cycle of
    parents is dropped without notice. *)
Theorem sort_keeps_anchored {T} (getID getParentID : T → string) items fuel :
  NoDup (getID <$> items) →
  (length items < fuel)%nat →
  ∃ sorted,
    topologicalSortByParentID getID getParentID fuel items = Some sorted
    ∧ NoDup sorted
    ∧ ∀ x, x ∈ sorted ↔ ∃ chain, chainToRoot getID getParentID items chain x.
Proof. apply sort_returns_anchored. Qed.

Lemma sort_keeps_anchored_witness :
  ∃ sorted,
    topologicalSortByParentID FixtureSort.idOf FixtureSort.parentOf 4 FixtureSort.withCycle
    = Some sorted
    ∧ NoDup sorted
    ∧ (¬ ∃ chain,
           chainToRoot FixtureSort.idOf FixtureSort.parentOf FixtureSort.withCycle chain
             ("x", "y")).
Proof.
  destruct (sort_keeps_anchored FixtureSort.idOf FixtureSort.parentOf FixtureSort.withCycle 4)
    as (sorted & Heq & Hnd & Hmem).
  - apply (bool_decide_unpack _). vm_compute. exact I.
  - simpl. lia.
  - exists sorted. split; [exact Heq|]. split; [exact Hnd|].
    rewrite <- Hmem. revert Heq. vm_compute. intros [= <-] Hin.
    apply list_elem_of_In in Hin. simpl in Hin. destruct Hin as [[=] | []].
Defined.

(** X9. When, besides, every item has a chain of parents that ends in a root
    (the parents form a forest), the sort returns a permutation of the input. *)
Theorem sort_permutation {T} (getID getParentID : T → string) items fuel :
  NoDup (getID <$> items) →
  (length items < fuel)%nat →
  (∀ x, x ∈ items → ∃ chain, chainToRoot getID getParentID items chain x) →
  ∃ sorted,
    topologicalSortByParentID getID getParentID fuel items = Some sorted
    ∧ sorted ≡ₚ items.
Proof.
  intros Huniq Hfuel Hforest.
  destruct (sort_returns_anchored getID getParentID items fuel Huniq Hfuel)
    as (sorted & Heq & Hnd & Hmem).
  exists sorted. split; [done|].
  apply NoDup_Permutation; [done | by eapply (unique_ids_NoDup getID)|].
  intros x. rewrite Hmem. split.
  - intros [chain Hchain]. by eapply chainToRoot_item.
  - apply Hforest.
Qed.

Lemma sort_permutation_witness :
  ∃ sorted,
    topologicalSortByParentID FixtureSort.idOf FixtureSort.parentOf 5 FixtureSort.shuffled
    = Some sorted
    ∧ sorted ≡ₚ FixtureSort.shuffled.
Proof.
  apply (sort_permutation FixtureSort.idOf FixtureSort.parentOf FixtureSort.shuffled 5).
  - apply (bool_decide_unpack _). vm_compute. exact I.
  - simpl. lia.
  - assert (chainToRoot FixtureSort.idOf FixtureSort.parentOf FixtureSort.shuffled
              [("a", EmptyString)] ("a", EmptyString)) as Ha.
    { constructor; [apply list_elem_of_In; simpl; tauto | by left]. }
    assert (chainToRoot FixtureSort.idOf FixtureSort.parentOf FixtureSort.shuffled
              [("b", "a"); ("a", EmptyString)] ("b", "a")) as Hb.
    { apply (chain_child _ _ _ _ ("a", EmptyString)); [exact Ha | | | reflexivity].
      - apply list_elem_of_In; simpl; tauto.
      - apply (bool_decide_unpack _). vm_compute. exact I. }
    intros x Hx. apply list_elem_of_In in Hx. simpl in Hx.
    destruct Hx as [<- | [<- | [<- | [<- | []]]]].
    + exists [("c", "b"); ("b", "a"); ("a", EmptyString)].
      apply (chain_child _ _ _ _ ("b", "a")); [exact Hb | | | reflexivity].
      * apply list_elem_of_In; simpl; tauto.
      * apply (bool_decide_unpack _). vm_compute. exact I.
    + eexists. exact Hb.
    + eexists. exact Ha.
    + exists [("d", "a"); ("a", EmptyString)].
      apply (chain_child _ _ _ _ ("a", EmptyString)); [exact Ha | | | reflexivity].
      * apply list_elem_of_In; simpl; tauto.
      * apply (bool_decide_unpack _). vm_compute. exact I.
Defined.

(** X10. Without unique ids the sort need not return: when an item has the
    id of a root, an id that is not the empty string, and names that id as
    its parent, the walk goes from the item to the children of its id, which
    hold the item, without end, whatever the fuel. *)
Theorem sort_duplicate_id_diverges {T} (getID getParentID : T → string) items r c :
  r ∈ items →
  isRoot getParentID (idSetOf getID items) r →
  c ∈ items →
  getID c = getID r →
  getParentID c = getID r →
  getID r ≠ EmptyString →
  ∀ fuel, topologicalSortByParentID getID getParentID fuel items = None.
Proof.
  intros Hr Hroot Hc Hid Hpid Hne fuel.
  assert (¬ isRoot getParentID (idSetOf getID items) c) as Hnr.
  { intros [Hempty | Hnotin]; [congruence|]. destruct Hnotin.
    apply idSetOf_elem_of. exists r. split; [done | congruence]. }
  destruct ((sortTables getID getParentID items).1 !! getID r) as [children|] eqn:Hch;
    [|by destruct (sortTables_no_children getID getParentID items _ c Hch Hc Hnr)].
  assert (c ∈ children) as Hcin by by apply (sortTables_children _ _ _ _ _ c Hch).
  assert (∀ f nodes m result,
            m ∈ nodes →
            getID m = getID r →
            (∀ result', walk getID f (sortTables getID getParentID items).1 children result'
                        = None) →
            walkNodes getID (sortTables getID getParentID items).1
              (walk getID f (sortTables getID getParentID items).1) nodes result = None)
    as Hloop.
  { intros f nodes m. induction nodes as [|n rest IH]; intros result Hm Hmid Hdeep;
      [by inversion Hm|].
    simpl. destruct (decide (getID n = getID r)) as [Hn | Hn].
    - by rewrite Hn, Hch, Hdeep.
    - apply elem_of_cons in Hm as [-> | Hm]; [done|].
      destruct (_ !! getID n) as [ch|]; [|by apply IH].
      destruct (walk getID f _ ch _); [by apply IH | done]. }
  assert (∀ f result, walk getID f (sortTables getID getParentID items).1 children result
                      = None) as Hdeep.
  { intros f. induction f as [|f IH]; intros result; [done|].
    simpl. by apply (Hloop f children c). }
  unfold topologicalSortByParentID.
  pose proof (proj2 (sortTables_roots getID getParentID items r) (conj Hr Hroot)) as Hrin.
  destruct (sortTables getID getParentID items) as [childMap roots]. simpl in *.
  destruct fuel as [|f]; [done|]. simpl.
  by apply (Hloop f roots r).
Qed.

Lemma sort_duplicate_id_diverges_witness :
  topologicalSortByParentID FixtureSort.idOf FixtureSort.parentOf 1000
    FixtureSort.duplicated = None.
Proof.
  refine (sort_duplicate_id_diverges FixtureSort.idOf FixtureSort.parentOf
            FixtureSort.duplicated ("a", EmptyString) ("a", "a") _ _ _ _ _ _ 1000).
  - apply list_elem_of_In; simpl; tauto.
  - by left.
  - apply list_elem_of_In; simpl; tauto.
  - reflexivity.
  - reflexivity.
  - discriminate.
Defined.

(** ** Paging the accessible resources *)

Section Paging.

Import PermissionService.

Lemma uint32_small z : (0 ≤ z < 2 ^ 32)%Z → uint32 z = z.
Proof. intros Hz. unfold uint32. by apply Z.mod_small. Qed.

(** When the product does not wrap, a page is a window of the list. *)
Lemma pageOfResources_window (resourceIDs : list string) page pageSize :
  (0 < page)%Z → (0 < pageSize)%Z →
  ((page - 1) * pageSize < 2 ^ 32)%Z →
  (pageOfResources resourceIDs (Some page) (Some pageSize)).1
  = take (Z.to_nat pageSize) (drop (Z.to_nat ((page - 1) * pageSize)) resourceIDs).
Proof.
  intros Hp Hs Hwrap. unfold pageOfResources. simpl.
  rewrite (proj2 (Z.ltb_lt 0 page)), (proj2 (Z.ltb_lt 0 pageSize)) by done. simpl.
  rewrite uint32_small by nia.
  set (start := ((page - 1) * pageSize)%Z).
  assert (0 ≤ start)%Z as Hstart by (unfold start; nia).
  destruct (Z.leb_spec (Z.of_nat (length resourceIDs)) start) as [Hle | Hgt].
  - rewrite drop_ge by lia. by rewrite take_nil.
  - destruct (Z.ltb_spec (Z.of_nat (length resourceIDs)) (start + pageSize)) as [Hlt | Hge].
    + rewrite take_ge; [done|]. rewrite length_drop. lia.
    + f_equal. lia.
Qed.

End Paging.

(** X11. A request with a page number and a page size above zero whose product
    stays below 2^32 gets the window of that page: the ids from position (page
    - 1) * pageSize on, at most pageSize of them, in the order of the list. *)
Theorem page_is_window (resourceIDs : list string) page pageSize :
  (0 < page)%Z → (0 < pageSize)%Z →
  ((page - 1) * pageSize < 2 ^ 32)%Z →
  (PermissionService.pageOfResources resourceIDs (Some page) (Some pageSize)).1
  = take (Z.to_nat pageSize) (drop (Z.to_nat ((page - 1) * pageSize)) resourceIDs)
  ∧ (length (PermissionService.pageOfResources resourceIDs (Some page) (Some pageSize)).1
     ≤ Z.to_nat pageSize)%nat.
Proof.
  intros Hp Hs Hwrap. rewrite pageOfResources_window by done.
  split; [done|]. rewrite length_take. lia.
Qed.

Lemma page_is_window_witness :
  (PermissionService.pageOfResources ["a"; "b"; "c"; "d"; "e"] (Some 2%Z) (Some 2%Z)).1
  = ["c"; "d"].
Proof.
  rewrite (proj1 (page_is_window ["a"; "b"; "c"; "d"; "e"] 2 2 ltac:(lia) ltac:(lia)
                    ltac:(lia))).
  reflexivity.
Defined.

(** Within one list the pages of one page size, taken from page 1 on,
    follow one another without gap or overlap. *)
Lemma pageOfResources_partition (resourceIDs : list string) pageSize k :
  (0 < pageSize)%Z →
  (Z.of_nat k * pageSize < 2 ^ 32)%Z →
  concat
    (List.map
       (λ i, (PermissionService.pageOfResources resourceIDs
                (Some (Z.of_nat (S i))) (Some pageSize)).1)
       (seq 0 k))
  = take (k * Z.to_nat pageSize) resourceIDs.
Proof.
  intros Hs. induction k as [|k IH]; intros Hwrap; [done|].
  rewrite seq_S, map_app, concat_app, IH by nia.
  cbn [List.map concat Nat.add]. rewrite app_nil_r.
  rewrite pageOfResources_window by nia.
  replace (Z.to_nat ((Z.of_nat (S k) - 1) * pageSize)) with (k * Z.to_nat pageSize)%nat
    by nia.
  rewrite take_take_drop. f_equal. lia.
Qed.

(** X12. The pages of the service fit together within one ranging of the
    accessible ids only.  For each order in which the id set can be ranged
    over, the first k pages of one page size are the first k * pageSize ids
    of that order, without gap or overlap.  But the service ranges over the
    set anew for every request and the order is left open: when at least two
    ids are accessible, each of them can be the whole of page 1 and also the
    whole of page 2 of page size 1, so the pages of two requests can overlap
    and an id can be in none of them. *)
Theorem pages_overlap_across_requests e tenantID userId resourceType accessibleIDs id
    pageSize k :
  ListAccessibleResources e tenantID userId resourceType PermissionRead
  = inl accessibleIDs →
  id ∈ accessibleIDs →
  (2 ≤ size accessibleIDs)%nat →
  (0 < pageSize)%Z →
  (Z.of_nat k * pageSize < 2 ^ 32)%Z →
  (∀ resourceIDs,
     rangeOver accessibleIDs resourceIDs →
     concat
       (List.map
          (λ i, (PermissionService.pageOfResources resourceIDs
                   (Some (Z.of_nat (S i))) (Some pageSize)).1)
          (seq 0 k))
     = take (k * Z.to_nat pageSize) resourceIDs)
  ∧ PermissionService.ListAccessibleResources e tenantID userId resourceType
      (Some 1%Z) (Some 1%Z)
      (inl ([id], PermissionService.uint32 (Z.of_nat (size accessibleIDs))))
  ∧ PermissionService.ListAccessibleResources e tenantID userId resourceType
      (Some 2%Z) (Some 1%Z)
      (inl ([id], PermissionService.uint32 (Z.of_nat (size accessibleIDs)))).
Proof.
  intros Hengine Hid Hsize Hs Hwrap.
  split; [intros resourceIDs _; by apply pageOfResources_partition|].
  apply elem_of_elements, elem_of_Permutation in Hid as [others Hothers].
  assert (length (elements accessibleIDs) = size accessibleIDs) as Hlen by done.
  destruct others as [|other others].
  { apply Permutation_length in Hothers. simpl in Hothers. lia. }
  assert (∀ resourceIDs page,
            rangeOver accessibleIDs resourceIDs →
            (page = 1 ∨ page = 2)%Z →
            take 1 (drop (Z.to_nat (page - 1)) resourceIDs) = [id] →
            PermissionService.ListAccessibleResources e tenantID userId resourceType
              (Some page) (Some 1%Z)
              (inl ([id], PermissionService.uint32 (Z.of_nat (size accessibleIDs)))))
    as Hpage.
  { intros resourceIDs page Hrange Hpage Hwindow.
    unfold PermissionService.ListAccessibleResources. rewrite Hengine.
    exists resourceIDs. split; [done|]. f_equal.
    rewrite (surjective_pairing (PermissionService.pageOfResources _ _ _)). f_equal.
    - rewrite pageOfResources_window by lia.
      by replace ((page - 1) * 1)%Z with (page - 1)%Z by lia.
    - unfold PermissionService.pageOfResources. simpl.
      apply Permutation_length in Hrange. by rewrite Hrange, Hlen. }
  split.
  - apply (Hpage (id :: other :: others)); [|by left | done].
    unfold rangeOver. by rewrite Hothers.
  - apply (Hpage (other :: id :: others)); [|by right | done].
    unfold rangeOver. rewrite Hothers. apply perm_swap.
Qed.

Lemma pages_overlap_across_requests_witness :
  ∃ total,
    PermissionService.ListAccessibleResources Fixture.shared 1 "U" ResourceTypeDocument
      (Some 1%Z) (Some 1%Z) (inl (["R2"], total))
    ∧ PermissionService.ListAccessibleResources Fixture.shared 1 "U" ResourceTypeDocument
        (Some 2%Z) (Some 1%Z) (inl (["R2"], total)).
Proof.
  destruct (ListAccessibleResources Fixture.shared 1 "U" ResourceTypeDocument PermissionRead)
    as [accessibleIDs | err] eqn:Hengine; [|vm_compute in Hengine; discriminate].
  exists (PermissionService.uint32 (Z.of_nat (size accessibleIDs))).
  apply (pages_overlap_across_requests Fixture.shared 1 "U" ResourceTypeDocument
           accessibleIDs "R2" 1 1 Hengine).
  - injection Hengine as <-. by apply (bool_decide_unpack _).
  - injection Hengine as <-. vm_compute. lia.
  - lia.
  - lia.
Defined.

(** X13. A page number or a page size of zero switches the paging off: the
    whole list is returned, however long. *)
Theorem page_zero_returns_all (resourceIDs : list string) page pageSize :
  page = 0%Z ∨ pageSize = 0%Z →
  (PermissionService.pageOfResources resourceIDs (Some page) (Some pageSize)).1
  = resourceIDs.
Proof.
  intros [-> | ->]; unfold PermissionService.pageOfResources; simpl; [done|].
  by rewrite andb_false_r.
Qed.

Lemma page_zero_returns_all_witness :
  (PermissionService.pageOfResources ["a"; "b"; "c"] (Some 7%Z) (Some 0%Z)).1
  = ["a"; "b"; "c"].
Proof. apply page_zero_returns_all. by right. Defined.

(** X14. The start of a page is computed in 32 bits: for a page size that
    divides 2^32, the page numbers page and page + 2^32 / pageSize give the
    same page, so a page far behind the end of the list can hold its first
    ids. *)
Theorem page_numbers_wrap (resourceIDs : list string) page pageSize period :
  (0 < page)%Z → (0 < period)%Z →
  (pageSize * period = 2 ^ 32)%Z →
  PermissionService.pageOfResources resourceIDs (Some (page + period)%Z) (Some pageSize)
  = PermissionService.pageOfResources resourceIDs (Some page) (Some pageSize).
Proof.
  intros Hp Hq Hperiod. unfold PermissionService.pageOfResources. simpl.
  rewrite (proj2 (Z.ltb_lt 0 page)), (proj2 (Z.ltb_lt 0 (page + period))) by lia.
  replace (PermissionService.uint32 ((page + period - 1) * pageSize))
    with (PermissionService.uint32 ((page - 1) * pageSize)); [done|].
  unfold PermissionService.uint32.
  replace ((page + period - 1) * pageSize)%Z
    with ((page - 1) * pageSize + 1 * 2 ^ 32)%Z by lia.
  by rewrite Z_mod_plus_full.
Qed.

Lemma page_numbers_wrap_witness :
  (PermissionService.pageOfResources ["a"; "b"; "c"] (Some 65537%Z) (Some 65536%Z)).1
  = ["a"; "b"; "c"].
Proof.
  change 65537%Z with (1 + 65536)%Z.
  rewrite (page_numbers_wrap ["a"; "b"; "c"] 1 65536 65536); [reflexivity | lia | lia | lia].
Defined.

Lemma pageOfResources_sublist (resourceIDs : list string) reqPage reqPageSize :
  (PermissionService.pageOfResources resourceIDs reqPage reqPageSize).1
    `sublist_of` resourceIDs.
Proof.
  unfold PermissionService.pageOfResources. simpl.
  destruct ((0 <? default 1%Z reqPage)%Z && (0 <? default 20%Z reqPageSize)%Z); [|done].
  destruct (_ <=? _)%Z; [apply sublist_nil_l|].
  destruct (_ <? _)%Z; [apply sublist_drop|].
  etrans; [apply sublist_take | apply sublist_drop].
Qed.

(** X15. Whatever page is asked for and in whatever order the engine lists the
    ids, the response of the service holds accessible ids only, none of them
    twice, and its total counts all the accessible ids, not those of the page;
    the service fails exactly when the engine does. *)
Theorem service_page_sound e tenantID userId resourceType reqPage reqPageSize response :
  PermissionService.ListAccessibleResources e tenantID userId resourceType
    reqPage reqPageSize response →
  match response with
  | inr err =>
      ListAccessibleResources e tenantID userId resourceType PermissionRead = inr err
  | inl (resourceIds, total) =>
      ∃ accessibleIDs,
        ListAccessibleResources e tenantID userId resourceType PermissionRead
        = inl accessibleIDs
        ∧ NoDup resourceIds
        ∧ (∀ id, id ∈ resourceIds → id ∈ accessibleIDs)
        ∧ ((Z.of_nat (size accessibleIDs) < 2 ^ 32)%Z →
           total = Z.of_nat (size accessibleIDs))
  end.
Proof.
  unfold PermissionService.ListAccessibleResources.
  destruct (ListAccessibleResources e tenantID userId resourceType PermissionRead)
    as [accessibleIDs | err].
  - intros (resourceIDs & Hrange & ->).
    destruct (PermissionService.pageOfResources resourceIDs reqPage reqPageSize)
      as [resourceIds total] eqn:Hpage.
    exists accessibleIDs. split; [done|].
    pose proof (pageOfResources_sublist resourceIDs reqPage reqPageSize) as Hsub.
    rewrite Hpage in Hsub. simpl in Hsub.
    split; [|split].
    + eapply sublist_NoDup; [|done]. by eapply rangeOver_NoDup.
    + intros id Hid. apply (rangeOver_elem_of accessibleIDs resourceIDs id Hrange).
      by eapply elem_of_sublist.
    + intros Hsize. unfold PermissionService.pageOfResources in Hpage.
      injection Hpage as _ <-.
      unfold rangeOver in Hrange. apply Permutation_length in Hrange.
      rewrite Hrange. change (length (elements accessibleIDs)) with (size accessibleIDs).
      by rewrite uint32_small by lia.
  - by intros ->.
Qed.

Lemma service_page_sound_witness :
  ∃ accessibleIDs,
    ListAccessibleResources Fixture.shared 1 "U" ResourceTypeDocument PermissionRead
    = inl accessibleIDs
    ∧ NoDup (PermissionService.pageOfResources (elements accessibleIDs)
               (Some 1%Z) (Some 2%Z)).1.
Proof.
  destruct (ListAccessibleResources Fixture.shared 1 "U" ResourceTypeDocument PermissionRead)
    as [accessibleIDs | err] eqn:Hengine; [|vm_compute in Hengine; discriminate].
  exists accessibleIDs. split; [reflexivity|].
  assert (PermissionService.ListAccessibleResources Fixture.shared 1 "U"
            ResourceTypeDocument (Some 1%Z) (Some 2%Z)
            (inl (PermissionService.pageOfResources (elements accessibleIDs)
                    (Some 1%Z) (Some 2%Z)))) as Hresponse.
  { unfold PermissionService.ListAccessibleResources. rewrite Hengine.
    exists (elements accessibleIDs). split; [apply rangeOver_elements | reflexivity]. }
  apply (service_page_sound Fixture.shared 1 "U" ResourceTypeDocument) in Hresponse.
  destruct (PermissionService.pageOfResources (elements accessibleIDs) (Some 1%Z) (Some 2%Z))
    as [resourceIds total].
  destruct Hresponse as (? & _ & Hnd & _). exact Hnd.
Defined.

(** ** The category tree *)

Section TreeFacts.

Context {Category : Type}.
Variable category_Id : Category → string.
Variable e : Engine.
Variable now : Time.
Variable fuel : nat.
Variable tenantID : N.
Variable userID : string.

Local Abbreviation Node := (@CategoryTreeNode Category).
Local Abbreviation allReadable := (Forall (readable e now fuel tenantID userID)).

Lemma CategoryTreeNode_forest_ind (P : Node → Prop) :
  (∀ category children, Forall P children → P (TreeNode category children)) →
  ∀ node, P node.
Proof.
  intros Hnode. fix IH 1. intros [category children]. apply Hnode.
  induction children as [|child children IHc]; constructor; [apply IH | exact IHc].
Qed.

Lemma filter_allReadable_cons_readable id (paths : list (list string)) :
  readable e now fuel tenantID userID id →
  filter allReadable (List.map (cons id) paths)
  = List.map (cons id) (filter allReadable paths).
Proof.
  intros Hid. induction paths as [|path paths IH]; [done|]. simpl.
  destruct (decide (allReadable path)) as [Hp | Hp].
  - rewrite !filter_cons_True; [|done | by constructor]. simpl. by rewrite IH.
  - rewrite !filter_cons_False; [done | done |]. by intros [_ ?]%Forall_cons.
Qed.

Lemma filter_allReadable_cons_unreadable id (paths : list (list string)) :
  ¬ readable e now fuel tenantID userID id →
  filter allReadable (List.map (cons id) paths) = [].
Proof.
  intros Hid. induction paths as [|path paths IH]; [done|]. simpl.
  rewrite filter_cons_False; [done|]. by intros [? _]%Forall_cons.
Qed.

Lemma pathsOf_cons (node : Node) nodes :
  pathsOf category_Id (node :: nodes)
  = pathsOfNode category_Id node ++ pathsOf category_Id nodes.
Proof. done. Qed.

Hypothesis checks_return :
  ∀ categoryID, is_Some (CanReadCategory e now fuel tenantID userID categoryID).

Lemma filterLoop_paths (nodes : list Node) :
  Forall
    (λ node,
       ∃ kept,
         filterTreeNode category_Id e now fuel tenantID userID node = Some kept
         ∧ pathsOf category_Id (option_list kept)
           = filter allReadable (pathsOfNode category_Id node))
    nodes →
  ∃ filtered,
    filterLoop (filterTreeNode category_Id e now fuel tenantID userID) nodes = Some filtered
    ∧ pathsOf category_Id filtered = filter allReadable (pathsOf category_Id nodes).
Proof.
  induction 1 as [|node nodes (kept & Hkept & Hpaths) _ (filtered & Hrest & Hfiltered)].
  { by exists []. }
  rewrite pathsOf_cons, filter_app, <- Hpaths, <- Hfiltered.
  cbn [filterLoop]. rewrite Hkept. fold (filterLoop (filterTreeNode category_Id e now fuel tenantID userID)).
  rewrite Hrest. eexists. split; [done|].
  destruct kept as [node'|]; [|reflexivity].
  rewrite pathsOf_cons. simpl. by rewrite !app_nil_r.
Qed.

Lemma filterTreeNode_paths (node : Node) :
  ∃ kept,
    filterTreeNode category_Id e now fuel tenantID userID node = Some kept
    ∧ pathsOf category_Id (option_list kept)
      = filter allReadable (pathsOfNode category_Id node).
Proof.
  induction node as [category children IH] using CategoryTreeNode_forest_ind.
  destruct (filterLoop_paths children IH) as (children' & Hloop & Hpaths).
  simpl. fold (pathsOf category_Id children).
  destruct (checks_return (category_Id category)) as [answer Hanswer].
  rewrite Hanswer. destruct answer as [err|].
  - exists None. split; [done|]. simpl.
    assert (¬ readable e now fuel tenantID userID (category_Id category)) as Hnot
      by (unfold readable; rewrite Hanswer; discriminate).
    rewrite filter_cons_False, filter_allReadable_cons_unreadable; [done | done |].
    by intros [? _]%Forall_cons.
  - rewrite Hloop. eexists. split; [done|]. simpl. rewrite app_nil_r.
    fold (pathsOf category_Id children').
    rewrite filter_cons_True by (by repeat constructor).
    by rewrite filter_allReadable_cons_readable, Hpaths.
Qed.

End TreeFacts.

(** X16. The filter keeps a node of the tree exactly when the user may read
    its category and the category of each of its ancestors: the root-to-node
    paths of the result are the paths of the input without unreadable id, in
    the same order. A readable category below an unreadable one is not shown. *)
Theorem filterTreeNodes_paths {Category} (category_Id : Category → string)
    e now categories fuel tenantID userID nodes :
  hierarchyWithin e tenantID categories →
  (size categories < fuel)%nat →
  ∃ filtered,
    filterTreeNodes category_Id e now fuel tenantID userID nodes = Some filtered
    ∧ pathsOf category_Id filtered
      = filter (Forall (readable e now fuel tenantID userID)) (pathsOf category_Id nodes).
Proof.
  intros Hw Hfuel.
  assert (∀ categoryID, is_Some (CanReadCategory e now fuel tenantID userID categoryID))
    as Hreturn.
  { intros categoryID. unfold CanReadCategory, CanRead.
    by destruct (Check_terminates e now categories fuel
                   {| check_TenantID := tenantID; check_UserID := userID;
                      check_ResourceType := ResourceTypeCategory;
                      check_ResourceID := categoryID;
                      check_Permission := PermissionRead |} Hw Hfuel) as [r ->]. }
  apply filterLoop_paths, Forall_forall.
  intros node _. by apply filterTreeNode_paths.
Qed.

Lemma filterTreeNodes_paths_witness :
  ∃ filtered,
    filterTreeNodes FixtureTree.idOfCategory FixtureTree.partlyReadable 0%Z 1 1 "U"
      FixtureTree.tree = Some filtered
    ∧ pathsOf FixtureTree.idOfCategory filtered = [["docs"]; ["docs"; "docs/public"]].
Proof.
  destruct (filterTreeNodes_paths FixtureTree.idOfCategory FixtureTree.partlyReadable 0%Z
              (map_img (∅ : gmap string string) ∪ map_img (∅ : gmap string string))
              1 1 "U" FixtureTree.tree)
    as (filtered & Heq & Hpaths).
  - apply memoryLookup_within.
  - vm_compute. lia.
  - exists filtered. split; [exact Heq|].
    revert Heq. vm_compute. by intros [= <-].
Defined.

(** ** Deleting documents in a batch *)

Section BatchFacts.

Import DocumentService.

Context {Document : Type}.
Variable document_FileKey : Document → string.
Variable documentRepo_GetByID : string → option Document * option error.
Variable documentRepo_BatchDelete : list string → bool → Z * list string * option error.
Variable e : Engine.
Variable now : Time.
Variable fuel : nat.
Variable tenantID : N.
Variable userID : string.

Local Abbreviation allowed := (deletable e now fuel tenantID userID).

Lemma found_elem_of id (ids : list string) : found id ids = true ↔ id ∈ ids.
Proof.
  unfold found. rewrite existsb_exists. split.
  - intros (x & Hx & ->%String.eqb_eq). by apply list_elem_of_In.
  - intros Hid. exists id. split; [by apply list_elem_of_In | apply String.eqb_refl].
Qed.

Lemma found_false id (ids : list string) : found id ids = false ↔ id ∉ ids.
Proof. rewrite <- found_elem_of. by destruct (found id ids). Qed.

Lemma unauthorizedLoop_filter (ids allowedIDs failedIDs : list string) :
  unauthorizedLoop ids allowedIDs failedIDs
  = failedIDs ++ filter (λ id, id ∉ allowedIDs) ids.
Proof.
  unfold unauthorizedLoop. revert failedIDs.
  induction ids as [|id ids IH]; intros failedIDs; simpl.
  { by rewrite app_nil_r. }
  rewrite IH. destruct (found id allowedIDs) eqn:Hfound.
  - apply found_elem_of in Hfound. rewrite filter_cons_False; [done | by intros []].
  - apply found_false in Hfound. by rewrite filter_cons_True, <- app_assoc.
Qed.

Lemma permissionLoop_filter (allowedIDs failedIDs : list string) :
  permissionLoop tenantID allowedIDs failedIDs
  = List.map (CallDeleteByResource tenantID "RESOURCE_TYPE_DOCUMENT")
      (filter (λ id, id ∉ failedIDs) allowedIDs).
Proof.
  unfold permissionLoop.
  enough (∀ calls,
    foldl
      (λ calls id,
         if found id failedIDs then calls
         else calls ++ [CallDeleteByResource tenantID "RESOURCE_TYPE_DOCUMENT" id])
      calls allowedIDs
    = calls ++ List.map (CallDeleteByResource tenantID "RESOURCE_TYPE_DOCUMENT")
                 (filter (λ id, id ∉ failedIDs) allowedIDs)) as Hloop by apply (Hloop []).
  induction allowedIDs as [|id ids IH]; intros calls; simpl.
  { by rewrite app_nil_r. }
  rewrite IH. destruct (found id failedIDs) eqn:Hfound.
  - apply found_elem_of in Hfound. rewrite filter_cons_False; [done | by intros []].
  - apply found_false in Hfound. by rewrite filter_cons_True, <- app_assoc.
Qed.

Lemma fileKeysLoop_elem (allowedIDs : list string) id doc :
  id ∈ allowedIDs →
  documentRepo_GetByID id = (Some doc, None) →
  document_FileKey doc ∈ fileKeysLoop document_FileKey documentRepo_GetByID allowedIDs.
Proof.
  intros Hid Hdoc. unfold fileKeysLoop.
  set (step := λ (fileKeys : list string) (id : string),
         match documentRepo_GetByID id with
         | (Some doc, None) => fileKeys ++ [document_FileKey doc]
         | _ => fileKeys
         end).
  assert (∀ ids fileKeys key, key ∈ fileKeys → key ∈ foldl step fileKeys ids) as Hkeep.
  { induction ids as [|id' ids IH]; intros fileKeys key Hkey; [done|]. simpl.
    apply IH. unfold step. destruct (documentRepo_GetByID id') as [[doc'|] [err|]]; try done.
    apply elem_of_app. by left. }
  generalize (@nil string) as fileKeys.
  induction allowedIDs as [|id' ids IH]; intros fileKeys; [by apply elem_of_nil in Hid|].
  simpl. apply elem_of_cons in Hid as [<- | Hid]; [|by apply IH].
  apply Hkeep. unfold step. rewrite Hdoc. apply elem_of_app. right. constructor.
Qed.

Hypothesis checks_return :
  ∀ documentID, is_Some (CanDeleteDocument e now fuel tenantID userID documentID).

Lemma allowedLoop_filter (ids allowedIDs : list string) :
  allowedLoop e now fuel tenantID userID ids allowedIDs
  = Some (allowedIDs ++ filter allowed ids).
Proof.
  revert allowedIDs. induction ids as [|id ids IH]; intros allowedIDs; simpl.
  { by rewrite app_nil_r. }
  destruct (checks_return id) as [answer Hanswer]. rewrite Hanswer.
  destruct answer as [err|]; rewrite IH.
  - rewrite filter_cons_False; [done|]. unfold deletable. by rewrite Hanswer.
  - by rewrite filter_cons_True, <- app_assoc.
Qed.

(** What the method returns, with the loops as filters. *)
Lemma BatchDeleteDocuments_filter (ids : list string) (permanent : bool) :
  BatchDeleteDocuments document_FileKey documentRepo_GetByID documentRepo_BatchDelete
    e now fuel tenantID userID ids permanent
  = Some
      (let allowedIDs := filter allowed ids in
       if Nat.eqb (length allowedIDs) 0
       then (inl {| response_DeletedCount := 0; response_FailedIds := ids |}, [])
       else
         match documentRepo_BatchDelete allowedIDs permanent with
         | (_, _, Some err) => (inr err, [CallBatchDelete allowedIDs permanent])
         | (deletedCount, failedIDs, None) =>
             let failedIDs' := failedIDs ++ filter (λ id, id ∉ allowedIDs) ids in
             (inl {| response_DeletedCount := PermissionService.uint32 deletedCount;
                     response_FailedIds := failedIDs' |},
              [CallBatchDelete allowedIDs permanent]
              ++ (if permanent
                  then List.map CallStorageDelete
                         (fileKeysLoop document_FileKey documentRepo_GetByID allowedIDs)
                  else [])
              ++ List.map (CallDeleteByResource tenantID "RESOURCE_TYPE_DOCUMENT")
                   (filter (λ id, id ∉ failedIDs') allowedIDs))
         end).
Proof.
  unfold BatchDeleteDocuments. rewrite allowedLoop_filter. simpl.
  destruct (Nat.eqb _ 0); [done|].
  destruct (documentRepo_BatchDelete _ _) as [[deletedCount failedIDs] [err|]]; [done|].
  rewrite unauthorizedLoop_filter, permissionLoop_filter. by destruct permanent.
Qed.

End BatchFacts.

Lemma CanDeleteDocument_returns e now categories fuel tenantID userID documentID :
  hierarchyWithin e tenantID categories →
  (size categories < fuel)%nat →
  is_Some (CanDeleteDocument e now fuel tenantID userID documentID).
Proof.
  intros Hw Hfuel. unfold CanDeleteDocument, CanDelete.
  by destruct (Check_terminates e now categories fuel
                 {| check_TenantID := tenantID; check_UserID := userID;
                    check_ResourceType := ResourceTypeDocument;
                    check_ResourceID := documentID;
                    check_Permission := PermissionDelete |} Hw Hfuel) as [r ->].
Qed.

Lemma elem_of_map_call {A} (f : A → DocumentService.Call) (l : list A) call :
  call ∈ List.map f l ↔ ∃ x, call = f x ∧ x ∈ l.
Proof.
  rewrite list_elem_of_In, in_map_iff. split.
  - intros (x & <- & Hx). exists x. split; [done | by apply list_elem_of_In].
  - intros (x & -> & Hx). exists x. split; [done | by apply list_elem_of_In].
Qed.

(** X17. A document that the user may not delete is left alone by a batch
    delete: its id is in no batch handed to the repository, its permissions
    are not deleted, and when the method answers with a response the id is
    among the failed ids. *)
Theorem batch_delete_skips_denied {Document} (document_FileKey : Document → string)
    documentRepo_GetByID documentRepo_BatchDelete
    e now categories fuel tenantID userID ids permanent :
  hierarchyWithin e tenantID categories →
  (size categories < fuel)%nat →
  ∃ out calls,
    DocumentService.BatchDeleteDocuments document_FileKey documentRepo_GetByID
      documentRepo_BatchDelete e now fuel tenantID userID ids permanent
    = Some (out, calls)
    ∧ ∀ id,
        ¬ DocumentService.deletable e now fuel tenantID userID id →
        (∀ batch permanent', DocumentService.CallBatchDelete batch permanent' ∈ calls →
                             id ∉ batch)
        ∧ (∀ tenantID' resourceType,
             DocumentService.CallDeleteByResource tenantID' resourceType id ∉ calls)
        ∧ (∀ response, out = inl response → id ∈ ids →
                       id ∈ DocumentService.response_FailedIds response).
Proof.
  intros Hw Hfuel.
  rewrite BatchDeleteDocuments_filter
    by (intros documentID; by apply (CanDeleteDocument_returns _ _ categories)).
  cbv zeta.
  set (allowedIDs := filter (DocumentService.deletable e now fuel tenantID userID) ids).
  assert (∀ id, ¬ DocumentService.deletable e now fuel tenantID userID id → id ∉ allowedIDs)
    as Hdenied.
  { intros id Hid [? _]%list_elem_of_filter. done. }
  destruct (Nat.eqb (length allowedIDs) 0).
  { eexists _, _. split; [done|]. intros id Hid. split_and!.
    - by intros batch permanent' ?%elem_of_nil.
    - by intros tenantID' resourceType ?%elem_of_nil.
    - by intros response [= <-]. }
  destruct (documentRepo_BatchDelete allowedIDs permanent)
    as [[deletedCount failedIDs] [err|]].
  { eexists _, _. split; [done|]. intros id Hid. split_and!.
    - intros batch permanent' [= -> ->]%list_elem_of_singleton. by apply Hdenied.
    - by intros tenantID' resourceType [=]%list_elem_of_singleton.
    - done. }
  eexists _, _. split; [done|]. intros id Hid. split_and!.
  - intros batch permanent' [[= -> ->] | [Hin | Hin]%elem_of_app]%elem_of_cons.
    + by apply Hdenied.
    + destruct permanent; [|by apply elem_of_nil in Hin].
      by apply elem_of_map_call in Hin as (key & [=] & _).
    + by apply elem_of_map_call in Hin as (id' & [=] & _).
  - intros tenantID' resourceType [[=] | [Hin | Hin]%elem_of_app]%elem_of_cons.
    + destruct permanent; [|by apply elem_of_nil in Hin].
      by apply elem_of_map_call in Hin as (key & [=] & _).
    + apply elem_of_map_call in Hin as (id' & [= _ _ <-] & [_ Hin]%list_elem_of_filter).
      by apply (Hdenied id).
  - intros response [= <-] Hin. simpl. apply elem_of_app. right.
    apply list_elem_of_filter. split; [by apply Hdenied | done].
Qed.

Lemma batch_delete_skips_denied_witness :
  ∃ out calls,
    DocumentService.BatchDeleteDocuments FixtureBatch.fileKeyOf FixtureBatch.getByID
      FixtureBatch.batchDelete FixtureBatch.owner 0%Z 1 1 "U" ["a"; "c"; "b"] true
    = Some (out, calls)
    ∧ ∀ id,
        ¬ DocumentService.deletable FixtureBatch.owner 0%Z 1 1 "U" id →
        (∀ batch permanent', DocumentService.CallBatchDelete batch permanent' ∈ calls →
                             id ∉ batch)
        ∧ (∀ tenantID' resourceType,
             DocumentService.CallDeleteByResource tenantID' resourceType id ∉ calls)
        ∧ (∀ response, out = inl response → id ∈ ["a"; "c"; "b"] →
                       id ∈ DocumentService.response_FailedIds response).
Proof.
  apply (batch_delete_skips_denied FixtureBatch.fileKeyOf FixtureBatch.getByID
           FixtureBatch.batchDelete FixtureBatch.owner 0%Z
           (map_img (∅ : gmap string string) ∪ map_img (∅ : gmap string string))
           1 1 "U" ["a"; "c"; "b"] true).
  - apply memoryLookup_within.
  - vm_compute. lia.
Defined.

(** X18. A permanent batch delete removes the stored file of every allowed
    document that the repository finds, also of a document that the repository
    then reports as failed: such a document is among the failed ids of the
    response and keeps its permissions, and its file is deleted from the
    storage all the same. *)
Theorem batch_delete_removes_file_of_failed {Document} (document_FileKey : Document → string)
    documentRepo_GetByID documentRepo_BatchDelete
    e now categories fuel tenantID userID ids id doc deletedCount failedIDs :
  hierarchyWithin e tenantID categories →
  (size categories < fuel)%nat →
  id ∈ ids →
  DocumentService.deletable e now fuel tenantID userID id →
  documentRepo_GetByID id = (Some doc, None) →
  documentRepo_BatchDelete
    (filter (DocumentService.deletable e now fuel tenantID userID) ids) true
  = (deletedCount, failedIDs, None) →
  id ∈ failedIDs →
  ∃ response calls,
    DocumentService.BatchDeleteDocuments document_FileKey documentRepo_GetByID
      documentRepo_BatchDelete e now fuel tenantID userID ids true
    = Some (inl response, calls)
    ∧ id ∈ DocumentService.response_FailedIds response
    ∧ DocumentService.CallStorageDelete (document_FileKey doc) ∈ calls
    ∧ DocumentService.CallDeleteByResource tenantID "RESOURCE_TYPE_DOCUMENT" id ∉ calls.
Proof.
  intros Hw Hfuel Hid Hallowed Hdoc Hbatch Hfailed.
  rewrite BatchDeleteDocuments_filter
    by (intros documentID; by apply (CanDeleteDocument_returns _ _ categories)).
  cbv zeta.
  assert (id ∈ filter (DocumentService.deletable e now fuel tenantID userID) ids)
    as Hin by (by apply list_elem_of_filter).
  rewrite Hbatch.
  destruct (filter (DocumentService.deletable e now fuel tenantID userID) ids)
    as [|first allowedIDs] eqn:Hfilter; [by apply elem_of_nil in Hin|].
  cbn [length Nat.eqb]. eexists _, _. split; [done|]. split_and!.
  - simpl. apply elem_of_app. by left.
  - apply elem_of_cons. right. apply elem_of_app. left.
    apply elem_of_map_call. exists (document_FileKey doc). split; [done|].
    by apply fileKeysLoop_elem with id.
  - intros [[=] | [Hcall | Hcall]%elem_of_app]%elem_of_cons.
    + by apply elem_of_map_call in Hcall as (key & [=] & _).
    + apply elem_of_map_call in Hcall as (id' & [= <-] & [Hnot _]%list_elem_of_filter).
      apply Hnot, elem_of_app. by left.
Qed.

Lemma batch_delete_removes_file_of_failed_witness :
  ∃ response calls,
    DocumentService.BatchDeleteDocuments FixtureBatch.fileKeyOf FixtureBatch.getByID
      FixtureBatch.batchDelete FixtureBatch.owner 0%Z 1 1 "U" ["a"; "c"; "b"] true
    = Some (inl response, calls)
    ∧ "b" ∈ DocumentService.response_FailedIds response
    ∧ DocumentService.CallStorageDelete "files/b" ∈ calls
    ∧ DocumentService.CallDeleteByResource 1 "RESOURCE_TYPE_DOCUMENT" "b" ∉ calls.
Proof.
  apply (batch_delete_removes_file_of_failed FixtureBatch.fileKeyOf FixtureBatch.getByID
           FixtureBatch.batchDelete FixtureBatch.owner 0%Z
           (map_img (∅ : gmap string string) ∪ map_img (∅ : gmap string string))
           1 1 "U" ["a"; "c"; "b"] "b" "b" 1%Z ["b"]).
  - apply memoryLookup_within.
  - vm_compute. lia.
  - by repeat constructor.
  - by vm_compute.
  - reflexivity.
  - by vm_compute.
  - by repeat constructor.
Defined.

(** X19. When a batch delete answers with a response, every requested id is
    accounted for in exactly one way: it is among the failed ids, or the
    permissions of the document are deleted. *)
Theorem batch_delete_accounts_for_every_id {Document} (document_FileKey : Document → string)
    documentRepo_GetByID documentRepo_BatchDelete
    e now categories fuel tenantID userID ids permanent :
  hierarchyWithin e tenantID categories →
  (size categories < fuel)%nat →
  ∃ out calls,
    DocumentService.BatchDeleteDocuments document_FileKey documentRepo_GetByID
      documentRepo_BatchDelete e now fuel tenantID userID ids permanent
    = Some (out, calls)
    ∧ ∀ response id,
        out = inl response →
        id ∈ ids →
        (id ∈ DocumentService.response_FailedIds response
         ↔ DocumentService.CallDeleteByResource tenantID "RESOURCE_TYPE_DOCUMENT" id ∉ calls).
Proof.
  intros Hw Hfuel.
  rewrite BatchDeleteDocuments_filter
    by (intros documentID; by apply (CanDeleteDocument_returns _ _ categories)).
  cbv zeta.
  set (allowedIDs := filter (DocumentService.deletable e now fuel tenantID userID) ids).
  destruct (Nat.eqb (length allowedIDs) 0).
  { eexists _, _. split; [done|]. intros response id [= <-] Hid. simpl.
    split; [by intros _ ?%elem_of_nil | done]. }
  destruct (documentRepo_BatchDelete allowedIDs permanent)
    as [[deletedCount failedIDs] [err|]].
  { eexists _, _. split; [done|]. by intros response id [=]. }
  eexists _, _. split; [done|]. intros response id [= <-] Hid. simpl.
  set (failedIDs' := failedIDs ++ filter (λ id, id ∉ allowedIDs) ids).
  split.
  - intros Hfailed [[=] | [Hcall | Hcall]%elem_of_app]%elem_of_cons.
    + destruct permanent; [|by apply elem_of_nil in Hcall].
      by apply elem_of_map_call in Hcall as (key & [=] & _).
    + by apply elem_of_map_call in Hcall as (id' & [= <-] & [Hnot _]%list_elem_of_filter).
  - intros Hcall. destruct (decide (id ∈ failedIDs')) as [|Hnot]; [done|].
    destruct (decide (id ∈ allowedIDs)) as [Hallowed|Hdenied].
    + exfalso. apply Hcall, elem_of_cons. right. apply elem_of_app. right.
      apply elem_of_map_call. exists id. split; [done|]. by apply list_elem_of_filter.
    + apply elem_of_app. right. by apply list_elem_of_filter.
Qed.

Lemma batch_delete_accounts_for_every_id_witness :
  ∃ out calls,
    DocumentService.BatchDeleteDocuments FixtureBatch.fileKeyOf FixtureBatch.getByID
      FixtureBatch.batchDelete FixtureBatch.owner 0%Z 1 1 "U" ["a"; "c"; "b"] false
    = Some (out, calls)
    ∧ ∀ response id,
        out = inl response →
        id ∈ ["a"; "c"; "b"] →
        (id ∈ DocumentService.response_FailedIds response
         ↔ DocumentService.CallDeleteByResource 1 "RESOURCE_TYPE_DOCUMENT" id ∉ calls).
Proof.
  apply (batch_delete_accounts_for_every_id FixtureBatch.fileKeyOf FixtureBatch.getByID
           FixtureBatch.batchDelete FixtureBatch.owner 0%Z
           (map_img (∅ : gmap string string) ∪ map_img (∅ : gmap string string))
           1 1 "U" ["a"; "c"; "b"] false).
  - apply memoryLookup_within.
  - vm_compute. lia.
Defined.

(** ** The document processor *)

Section ProcessorFacts.

Import DocumentProcessor.

Variable documentRepo_UpdateProcessingResult :
  string → string → Metadata → string → option error.
Variable gotenberg_ConvertToPDF : bytes → string → bytes * option error.
Variable tika_ExtractText : bytes → string → string * option error.
Variable tika_ExtractMetadata : bytes → string → Metadata * option error.

Local Abbreviation extract := (extractAndStore tika_ExtractText tika_ExtractMetadata).

(** The calls of [extractAndStore]: calls of Tika, then one write of a final
    status. *)
Lemma extractAndStore_shape documentID pdfContent :
  ∃ calls text metadata status,
    extract documentID pdfContent
    = calls ++ [CallUpdateProcessingResult documentID text metadata status]
    ∧ status ∈ [statusCompleted; statusFailed]
    ∧ Forall (λ call, isUpdate call = false) calls.
Proof.
  unfold extractAndStore.
  destruct (tika_ExtractText pdfContent mimeTypePDF) as [text [err|]].
  - exists [CallExtractText pdfContent mimeTypePDF], EmptyString, None, statusFailed.
    split_and!; [done | by repeat constructor | by repeat constructor].
  - destruct (tika_ExtractMetadata pdfContent mimeTypePDF) as [metadata err].
    eexists [CallExtractText pdfContent mimeTypePDF; CallExtractMetadata pdfContent mimeTypePDF],
      text, _, statusCompleted.
    split_and!; [done | by repeat constructor | by repeat constructor].
Qed.

Lemma extractAndStore_completed documentID pdfContent text metadata :
  CallUpdateProcessingResult documentID text metadata statusCompleted
    ∈ extract documentID pdfContent
  ↔ ∃ metadata' err,
      tika_ExtractText pdfContent mimeTypePDF = (text, None)
      ∧ tika_ExtractMetadata pdfContent mimeTypePDF = (metadata', err)
      ∧ metadata = match err with Some _ => None | None => metadata' end.
Proof.
  unfold extractAndStore.
  destruct (tika_ExtractText pdfContent mimeTypePDF) as [text' [err|]].
  - split.
    + intros [[=] | [[=] | []%elem_of_nil]%elem_of_cons]%elem_of_cons.
    + by intros (? & ? & [=] & _).
  - destruct (tika_ExtractMetadata pdfContent mimeTypePDF) as [metadata' err'].
    split.
    + intros [[=] | [[=] | [[= -> ->] | []%elem_of_nil]%elem_of_cons]%elem_of_cons]%elem_of_cons.
      by exists metadata', err'.
    + intros (? & ? & [= ->] & [= <- <-] & ->). by repeat constructor.
Qed.

End ProcessorFacts.

Lemma final_status_weaken (status : string) :
  status ∈ [DocumentProcessor.statusCompleted; DocumentProcessor.statusFailed] →
  status ∈ [DocumentProcessor.statusCompleted; DocumentProcessor.statusFailed;
            DocumentProcessor.statusSkipped].
Proof.
  intros [-> | [-> | []%elem_of_nil]%elem_of_cons]%elem_of_cons; by repeat constructor.
Qed.

(** X20. The processor leaves no document in the processing status on its own
    account. When the first write, of the processing status, fails, nothing
    else is called. Otherwise the calls end with one more write for the same
    document, of the status completed, failed or skipped, and there is no
    write in between. *)
Theorem processing_status_settles
    documentRepo_UpdateProcessingResult gotenberg_ConvertToPDF tika_ExtractText
    tika_ExtractMetadata documentID fileContent mimeType :
  let first :=
    DocumentProcessor.CallUpdateProcessingResult documentID EmptyString None
      DocumentProcessor.statusProcessing in
  let calls :=
    DocumentProcessor.ProcessDocument documentRepo_UpdateProcessingResult
      gotenberg_ConvertToPDF tika_ExtractText tika_ExtractMetadata
      documentID fileContent mimeType in
  match
    documentRepo_UpdateProcessingResult documentID EmptyString None
      DocumentProcessor.statusProcessing
  with
  | Some _ => calls = [first]
  | None =>
      ∃ between text metadata status,
        calls
        = first :: between
          ++ [DocumentProcessor.CallUpdateProcessingResult documentID text metadata status]
        ∧ status ∈ [DocumentProcessor.statusCompleted; DocumentProcessor.statusFailed;
                    DocumentProcessor.statusSkipped]
        ∧ Forall (λ call, DocumentProcessor.isUpdate call = false) between
  end.
Proof.
  intros first calls. subst first calls. unfold DocumentProcessor.ProcessDocument.
  destruct (documentRepo_UpdateProcessingResult _ _ _ _) as [err|]; [done|].
  destruct (String.eqb mimeType DocumentProcessor.mimeTypePDF).
  { destruct (extractAndStore_shape tika_ExtractText tika_ExtractMetadata documentID fileContent)
      as (between & text & metadata & status & -> & Hstatus & Hbetween).
    exists between, text, metadata, status.
    split_and!; [done | by apply final_status_weaken | done]. }
  destruct (String.eqb mimeType DocumentProcessor.mimeTypeDOC
            || String.eqb mimeType DocumentProcessor.mimeTypeDOCX).
  - destruct (gotenberg_ConvertToPDF fileContent _) as [converted [err|]] eqn:Hconvert.
    + eexists [_], EmptyString, None, DocumentProcessor.statusFailed.
      split_and!; [done | by repeat constructor | by repeat constructor].
    + destruct (extractAndStore_shape tika_ExtractText tika_ExtractMetadata documentID converted)
        as (between & text & metadata & status & -> & Hstatus & Hbetween).
      eexists (_ :: between), text, metadata, status.
      split_and!; [done | by apply final_status_weaken | by constructor].
  - exists [], EmptyString, None, DocumentProcessor.statusSkipped.
    split_and!; [done | by repeat constructor | done].
Qed.

(** X21. A document is stored as completed exactly when the first write goes
    through, the file is a PDF or a Word file that Gotenberg converts, and
    Tika extracts the text of the PDF; the text stored is that text. A failure
    of the metadata extraction does not prevent it: the metadata stored is
    then nil. *)
Theorem processing_completes_iff
    documentRepo_UpdateProcessingResult gotenberg_ConvertToPDF tika_ExtractText
    tika_ExtractMetadata documentID fileContent mimeType text metadata :
  DocumentProcessor.CallUpdateProcessingResult documentID text metadata
    DocumentProcessor.statusCompleted
    ∈ DocumentProcessor.ProcessDocument documentRepo_UpdateProcessingResult
        gotenberg_ConvertToPDF tika_ExtractText tika_ExtractMetadata
        documentID fileContent mimeType
  ↔ documentRepo_UpdateProcessingResult documentID EmptyString None
      DocumentProcessor.statusProcessing = None
    ∧ ∃ pdfContent metadata' err,
        DocumentProcessor.pdfContentOf gotenberg_ConvertToPDF fileContent mimeType pdfContent
        ∧ tika_ExtractText pdfContent DocumentProcessor.mimeTypePDF = (text, None)
        ∧ tika_ExtractMetadata pdfContent DocumentProcessor.mimeTypePDF = (metadata', err)
        ∧ metadata = match err with Some _ => None | None => metadata' end.
Proof.
  unfold DocumentProcessor.ProcessDocument, DocumentProcessor.pdfContentOf.
  rewrite elem_of_cons.
  destruct (documentRepo_UpdateProcessingResult _ _ _ _) as [err|].
  { split; [by intros [[=] | []%elem_of_nil] | by intros [[=] _]]. }
  destruct (String.eqb_spec mimeType DocumentProcessor.mimeTypePDF) as [-> | Hpdf].
  { rewrite extractAndStore_completed. split.
    - intros [[=] | (metadata' & err & Htext & Hmeta & ->)]. split; [done|].
      exists fileContent, metadata', err. split_and!; [by left | done..].
    - intros [_ (pdfContent & metadata' & err & [[_ ->] | [[[=] _] | [[=] _]]] & Htext & Hmeta & ->)].
      right. by exists metadata', err. }
  destruct (String.eqb_spec mimeType DocumentProcessor.mimeTypeDOC) as [-> | Hdoc].
  { simpl. change ("document" +:+ ".doc") with "document.doc".
    destruct (gotenberg_ConvertToPDF fileContent "document.doc")
      as [converted [err|]] eqn:Hconvert.
    - split.
      + intros [[=] | [[=] | [[=] | []%elem_of_nil]%elem_of_cons]%elem_of_cons].
      + by intros [_ (pdfContent & metadata' & err' & [[[=] _] | [[_ [=]] | [[=] _]]] & _)].
    - rewrite elem_of_cons, extractAndStore_completed. split.
      + intros [[=] | [[=] | (metadata' & err & Htext & Hmeta & ->)]]. split; [done|].
        exists converted, metadata', err. split_and!; [right; by left | done..].
      + intros [_ (pdfContent & metadata' & err & [[[=] _] | [[_ [= <-]] | [[=] _]]]
                   & Htext & Hmeta & ->)].
        right. right. by exists metadata', err. }
  destruct (String.eqb_spec mimeType DocumentProcessor.mimeTypeDOCX) as [-> | Hdocx].
  { simpl. change ("document" +:+ ".docx") with "document.docx".
    destruct (gotenberg_ConvertToPDF fileContent "document.docx")
      as [converted [err|]] eqn:Hconvert.
    - split.
      + intros [[=] | [[=] | [[=] | []%elem_of_nil]%elem_of_cons]%elem_of_cons].
      + by intros [_ (pdfContent & metadata' & err' & [[[=] _] | [[[=] _] | [_ [=]]]] & _)].
    - rewrite elem_of_cons, extractAndStore_completed. split.
      + intros [[=] | [[=] | (metadata' & err & Htext & Hmeta & ->)]]. split; [done|].
        exists converted, metadata', err. split_and!; [right; by right | done..].
      + intros [_ (pdfContent & metadata' & err & [[[=] _] | [[[=] _] | [_ [= <-]]]]
                   & Htext & Hmeta & ->)].
        right. right. by exists metadata', err. }
  simpl. split.
  - intros [[=] | [[=] | []%elem_of_nil]%elem_of_cons].
  - by intros [_ (pdfContent & metadata' & err & [[? _] | [[? _] | [? _]]] & _)].
Qed.

(** ** Restoring a backup *)

Section ImportFacts.

Import BackupService.

Context {Category Document DocumentPermission : Type}.
Variable category_ID : Category → string.
Variable category_TenantID : Category → option N.
Variable category_ParentID : Category → option string.
Variable document_ID : Document → string.
Variable document_TenantID : Document → option N.
Variable permission_ID : DocumentPermission → Z.
Variable permission_TenantID : DocumentPermission → option N.
Variable unmarshalCategory : RawMessage → Category + error.
Variable unmarshalDocument : RawMessage → Document + error.
Variable unmarshalDocumentPermission : RawMessage → DocumentPermission + error.

Local Abbreviation Write := (@Write Category Document DocumentPermission).
Local Abbreviation ImportState := (@ImportState Category Document DocumentPermission).

Variable client_GetCategory : list Write → string → bool.
Variable client_GetDocument : list Write → string → bool.
Variable client_GetDocumentPermission : list Write → Z → bool.
Variable client_Save : list Write → Write → option error.
Variable RestoreMode_RESTORE_MODE_SKIP : Z.

Local Abbreviation save := (saveEntity client_Save RestoreMode_RESTORE_MODE_SKIP).

Lemma int64_small z : (- 2 ^ 63 ≤ z < 2 ^ 63)%Z → int64 z = z.
Proof. intros Hz. unfold int64. rewrite Z.mod_small; lia. Qed.

Lemma counted_failWith n k warning (st : ImportState) :
  (k + 1 < 2 ^ 63)%Z → counted n k st → counted n (k + 1) (failWith warning st).
Proof.
  unfold counted. simpl. intros Hk (Htotal & Hc & Hu & Hs & Hf & Hsum & Hwarn).
  rewrite length_app, (int64_small (_ + 1)) by lia. simpl. split_and!; lia.
Qed.

Lemma counted_saveEntity n k name idText existing update create mode (st : ImportState) :
  (k + 1 < 2 ^ 63)%Z → counted n k st →
  counted n (k + 1) (save name idText existing update create mode st).
Proof.
  unfold counted, saveEntity. intros Hk (Htotal & Hc & Hu & Hs & Hf & Hsum & Hwarn).
  destruct existing; [destruct (mode =? _)%Z|];
    try destruct (client_Save _ _); simpl;
    rewrite ?length_app, (int64_small (_ + 1)) by lia; simpl; split_and!; lia.
Qed.

Lemma counted_foldl {A} (step : ImportState → A → ImportState) n (items : list A) :
  (∀ k st item, (k + 1 < 2 ^ 63)%Z → counted n k st → counted n (k + 1) (step st item)) →
  ∀ k st,
    (k + Z.of_nat (length items) < 2 ^ 63)%Z →
    counted n k st →
    counted n (k + Z.of_nat (length items)) (foldl step st items).
Proof.
  intros Hstep. induction items as [|item items IH]; intros k st Hk Hst.
  { simpl. by rewrite Z.add_0_r. }
  cbn [foldl]. rewrite length_cons, Nat2Z.inj_succ in *.
  replace (k + Z.succ (Z.of_nat (length items)))%Z
    with (k + 1 + Z.of_nat (length items))%Z by lia.
  apply IH; [lia|]. apply Hstep; [lia | done].
Qed.

Lemma counted_newResult name (items : list RawMessage) (writes : list Write) :
  (Z.of_nat (length items) < 2 ^ 63)%Z →
  counted (Z.of_nat (length items)) 0
    {| state_result := newResult name items; state_warnings := [];
       state_writes := writes |}.
Proof.
  intros Hlen. unfold counted, newResult. simpl.
  rewrite int64_small by lia. split_and!; lia.
Qed.

Lemma importDocuments_counted writes (items : list RawMessage) tenantID full mode :
  (Z.of_nat (length items) < 2 ^ 63)%Z →
  counted (Z.of_nat (length items)) (Z.of_nat (length items))
    (importDocuments document_ID document_TenantID unmarshalDocument client_GetDocument
       client_Save RestoreMode_RESTORE_MODE_SKIP writes items tenantID full mode).
Proof.
  intros Hlen. unfold importDocuments.
  apply (counted_foldl _ _ items) with (k := 0%Z); [|lia | by apply counted_newResult].
  intros k st raw Hk Hst. destruct (unmarshalDocument raw).
  - by apply counted_saveEntity.
  - by apply counted_failWith.
Qed.

Lemma importDocumentPermissions_counted writes (items : list RawMessage) tenantID full mode :
  (Z.of_nat (length items) < 2 ^ 63)%Z →
  counted (Z.of_nat (length items)) (Z.of_nat (length items))
    (importDocumentPermissions permission_ID permission_TenantID unmarshalDocumentPermission
       client_GetDocumentPermission client_Save RestoreMode_RESTORE_MODE_SKIP
       writes items tenantID full mode).
Proof.
  intros Hlen. unfold importDocumentPermissions.
  apply (counted_foldl _ _ items) with (k := 0%Z); [|lia | by apply counted_newResult].
  intros k st raw Hk Hst. destruct (unmarshalDocumentPermission raw).
  - by apply counted_saveEntity.
  - by apply counted_failWith.
Qed.

Lemma foldl_preserves {A B} (I : A → Prop) (step : A → B → A) (items : list B) st :
  (∀ st item, I st → I (step st item)) → I st → I (foldl step st items).
Proof.
  intros Hstep. revert st. induction items as [|item items IH]; intros st Hst; [done|].
  simpl. by apply IH, Hstep.
Qed.

(** What holds of every write tried before holds of the writes after one
    entity, when it holds of the update unless the mode is to skip, and of
    the create. *)
Lemma saveEntity_writes (P : Write → Prop) name idText existing update create mode
    (st : ImportState) :
  (mode ≠ RestoreMode_RESTORE_MODE_SKIP → P update) →
  P create →
  Forall P (state_writes st) →
  Forall P (state_writes (save name idText existing update create mode st)).
Proof.
  intros Hupdate Hcreate Hst. unfold saveEntity.
  destruct existing; [destruct (Z.eqb_spec mode RestoreMode_RESTORE_MODE_SKIP)|];
    try destruct (client_Save _ _); simpl; try done;
    apply Forall_app; split; try done; repeat constructor; auto.
Qed.

Section Writes.

Variable P : Write → Prop.
Variable tenantID : N.
Variable full : bool.
Variable mode : Z.

Lemma importDocuments_writes writes (items : list RawMessage) :
  (mode ≠ RestoreMode_RESTORE_MODE_SKIP → ∀ e, P (UpdateDocument e)) →
  (∀ e, P (CreateDocument (tenantFor tenantID full (document_TenantID e)) e)) →
  Forall P writes →
  Forall P
    (state_writes
       (importDocuments document_ID document_TenantID unmarshalDocument client_GetDocument
          client_Save RestoreMode_RESTORE_MODE_SKIP writes items tenantID full mode)).
Proof.
  intros Hupdate Hcreate Hwrites. unfold importDocuments.
  apply (foldl_preserves (λ st, Forall P (state_writes st))); [|done].
  intros st raw Hst. destruct (unmarshalDocument raw) as [e|err]; [|done].
  apply saveEntity_writes; auto.
Qed.

Lemma importDocumentPermissions_writes writes (items : list RawMessage) :
  (mode ≠ RestoreMode_RESTORE_MODE_SKIP → ∀ e, P (UpdateDocumentPermission e)) →
  (∀ e, P (CreateDocumentPermission (tenantFor tenantID full (permission_TenantID e)) e)) →
  Forall P writes →
  Forall P
    (state_writes
       (importDocumentPermissions permission_ID permission_TenantID
          unmarshalDocumentPermission client_GetDocumentPermission client_Save
          RestoreMode_RESTORE_MODE_SKIP writes items tenantID full mode)).
Proof.
  intros Hupdate Hcreate Hwrites. unfold importDocumentPermissions.
  apply (foldl_preserves (λ st, Forall P (state_writes st))); [|done].
  intros st raw Hst. destruct (unmarshalDocumentPermission raw) as [e|err]; [|done].
  apply saveEntity_writes; auto.
Qed.

End Writes.

Local Abbreviation entitiesOf := (categoriesOf unmarshalCategory).
Local Abbreviation parentOf := (λ e : Category, default EmptyString (category_ParentID e)).

Lemma counted_eq n k k' (st : ImportState) : k = k' → counted n k st → counted n k' st.
Proof. by intros ->. Qed.

Lemma entitiesOf_cons raw (items : list RawMessage) :
  entitiesOf (raw :: items)
  = match unmarshalCategory raw with
    | inl e => e :: entitiesOf items
    | inr _ => entitiesOf items
    end.
Proof. unfold categoriesOf. simpl. by destruct (unmarshalCategory raw). Qed.

(** The first loop of [importCategories]: it tries no write, collects the
    categories that unmarshal and counts the others as failed. *)
Lemma unmarshalCategories_counted (items : list RawMessage) :
  ∀ (st : ImportState) entities,
    ∃ st',
      foldl
        (λ '(st, entities) raw,
           match unmarshalCategory raw with
           | inr err =>
               (failWith (String.append "categories: unmarshal error: " err) st, entities)
           | inl e => (st, entities ++ [e])
           end)
        (st, entities) items
      = (st', entities ++ entitiesOf items)
      ∧ state_writes st' = state_writes st
      ∧ ∀ n k,
          (k + Z.of_nat (length items) < 2 ^ 63)%Z →
          counted n k st →
          counted n
            (k + Z.of_nat (length items) - Z.of_nat (length (entitiesOf items))) st'.
Proof.
  induction items as [|raw items IH]; intros st entities.
  { exists st. simpl. rewrite app_nil_r. split_and!; [done..|].
    intros n k Hk Hst. apply (counted_eq n k); [lia | done]. }
  cbn [foldl]. rewrite entitiesOf_cons.
  destruct (unmarshalCategory raw) as [e|err].
  - destruct (IH st (entities ++ [e])) as (st' & -> & Hwrites & Hcounted).
    exists st'. split_and!; [by rewrite <- app_assoc | done |].
    intros n k Hk Hst. rewrite !length_cons, !Nat2Z.inj_succ in *.
    eapply counted_eq; [|apply (Hcounted n k); [lia | done]]. lia.
  - destruct (IH (failWith (String.append "categories: unmarshal error: " err) st) entities)
      as (st' & -> & Hwrites & Hcounted).
    exists st'. split_and!; [done | done |].
    intros n k Hk Hst. rewrite !length_cons, !Nat2Z.inj_succ in *.
    eapply counted_eq;
      [|apply (Hcounted n (k + 1)%Z); [lia | by apply counted_failWith; [lia|]]]. lia.
Qed.

Lemma entitiesOf_length (items : list RawMessage) :
  (length (entitiesOf items) ≤ length items)%nat.
Proof.
  induction items as [|raw items IH]; [done|].
  rewrite entitiesOf_cons. destruct (unmarshalCategory raw); simpl; lia.
Qed.

(** [importCategories] when the ids of the categories that unmarshal are
    unique: it returns, and the second loop runs over what the sort
    returns. *)
Lemma importCategories_sorted fuel writes (items : list RawMessage) tenantID full mode :
  NoDup (category_ID <$> entitiesOf items) →
  (length (entitiesOf items) < fuel)%nat →
  ∃ st sorted,
    importCategories category_ID category_TenantID category_ParentID unmarshalCategory
      client_GetCategory client_Save RestoreMode_RESTORE_MODE_SKIP
      fuel writes items tenantID full mode = Some st
    ∧ NoDup sorted
    ∧ (∀ x, x ∈ sorted ↔ ∃ chain, chainToRoot category_ID parentOf (entitiesOf items) chain x)
    ∧ ((Z.of_nat (length items) < 2 ^ 63)%Z →
       counted (Z.of_nat (length items))
         (Z.of_nat (length items) - Z.of_nat (length (entitiesOf items))
          + Z.of_nat (length sorted)) st)
    ∧ ∀ P : Write → Prop,
        (mode ≠ RestoreMode_RESTORE_MODE_SKIP → ∀ e, P (UpdateCategory e)) →
        (∀ e, P (CreateCategory (tenantFor tenantID full (category_TenantID e)) e)) →
        Forall P writes →
        Forall P (state_writes st).
Proof.
  intros Huniq Hfuel. unfold importCategories, unmarshalCategories.
  destruct (unmarshalCategories_counted items
              {| state_result := newResult "categories" items; state_warnings := [];
                 state_writes := writes |} [])
    as (st & -> & Hwrites & Hcounted).
  rewrite app_nil_l.
  destruct (sort_returns_anchored category_ID parentOf (entitiesOf items) fuel Huniq Hfuel)
    as (sorted & -> & Hnd & Hmem).
  pose proof (entitiesOf_length items) as Hle.
  assert (length sorted ≤ length (entitiesOf items))%nat as Hsorted.
  { apply submseteq_length, NoDup_submseteq; [done|].
    intros x [chain Hchain]%Hmem. by eapply chainToRoot_item. }
  eexists _, sorted. split_and!; [done | done | done | |].
  - intros Hlen.
    eapply counted_eq;
      [|apply counted_foldl;
        [|
         |apply (Hcounted (Z.of_nat (length items)) 0%Z); [lia | by apply counted_newResult]]].
    + lia.
    + intros k st' e Hk Hst. by apply counted_saveEntity.
    + lia.
  - intros P Hupdate Hcreate Hbefore.
    apply (foldl_preserves (λ st, Forall P (state_writes st))).
    + intros st' e Hst. apply saveEntity_writes; auto.
    + by rewrite Hwrites.
Qed.

Variable unmarshalBackup : RawMessage → backupData + error.

(** What holds of the update of every entity, unless the mode is to skip,
    and of the create of every entity in the tenant that the import chooses
    for it, holds of every write of a restore; and the restore returns when
    the ids of the categories of the backup are unique. *)
Lemma ImportBackup_writes (P : Write → Prop) fuel tenantID isPlatformAdmin req_Mode
    req_Data backup :
  let tenantID' :=
    if negb isPlatformAdmin || negb (backup_FullBackup backup) then tenantID else 0%N in
  let full := backup_FullBackup backup in
  unmarshalBackup req_Data = inl backup →
  NoDup (category_ID <$> entitiesOf (data_Categories (backup_Data backup))) →
  (length (entitiesOf (data_Categories (backup_Data backup))) < fuel)%nat →
  (req_Mode ≠ RestoreMode_RESTORE_MODE_SKIP → ∀ write, isUpdate write = true → P write) →
  (backup_FullBackup backup && negb isPlatformAdmin = false →
   ∀ write tenantOfEntity,
     createdIn write = Some (tenantFor tenantID' full tenantOfEntity) → P write) →
  ∃ out writes,
    ImportBackup category_ID category_TenantID category_ParentID document_ID
      document_TenantID permission_ID permission_TenantID unmarshalCategory
      unmarshalDocument unmarshalDocumentPermission unmarshalBackup client_GetCategory
      client_GetDocument client_GetDocumentPermission client_Save
      RestoreMode_RESTORE_MODE_SKIP fuel tenantID isPlatformAdmin req_Mode req_Data
    = Some (out, writes)
    ∧ Forall P writes.
Proof.
  intros tenantID' full Hbackup Huniq Hfuel Hupdate Hcreate.
  unfold ImportBackup. rewrite Hbackup.
  destruct (negb (String.eqb (backup_Module backup) backupModule)); [by eexists _, _|].
  destruct (negb (String.eqb (backup_Version backup) backupVersion)); [by eexists _, _|].
  destruct (backup_FullBackup backup && negb isPlatformAdmin); [by eexists _, _|].
  fold tenantID' full. specialize (Hcreate eq_refl).
  assert (∀ e, P (CreateCategory (tenantFor tenantID' full (category_TenantID e)) e))
    as Hcategory by (intros e; by eapply Hcreate).
  assert (∀ e, P (CreateDocument (tenantFor tenantID' full (document_TenantID e)) e))
    as Hdocument by (intros e; by eapply Hcreate).
  assert (∀ e, P (CreateDocumentPermission
                    (tenantFor tenantID' full (permission_TenantID e)) e))
    as Hpermission by (intros e; by eapply Hcreate).
  assert (∃ results warnings writes,
            importStep (data_Categories (backup_Data backup))
              (λ writes items,
                 importCategories category_ID category_TenantID category_ParentID
                   unmarshalCategory client_GetCategory client_Save
                   RestoreMode_RESTORE_MODE_SKIP fuel writes items tenantID' full req_Mode)
              ([], [], [])
            = Some (results, warnings, writes)
            ∧ Forall P writes) as (results & warnings & writes & -> & Hwrites).
  { unfold importStep. destruct (Nat.eqb _ 0); [by eexists _, _, _|].
    destruct (importCategories_sorted fuel [] (data_Categories (backup_Data backup))
                tenantID' full req_Mode Huniq Hfuel)
      as (st & sorted & -> & _ & _ & _ & Hforall).
    eexists _, _, _. split; [done|]. apply Hforall; [|done..].
    intros Hmode e. by apply Hupdate. }
  unfold importStep.
  destruct (Nat.eqb (length (data_Documents _)) 0).
  - destruct (Nat.eqb (length (data_DocumentPermissions _)) 0); [by eexists _, _|].
    eexists _, _. split; [done|].
    apply importDocumentPermissions_writes; [|done..].
    intros Hmode e. by apply Hupdate.
  - destruct (Nat.eqb (length (data_DocumentPermissions _)) 0).
    + eexists _, _. split; [done|].
      apply importDocuments_writes; [|done..].
      intros Hmode e. by apply Hupdate.
    + eexists _, _. split; [done|].
      apply importDocumentPermissions_writes; [| done |].
      * intros Hmode e. by apply Hupdate.
      * apply importDocuments_writes; [|done..].
        intros Hmode e. by apply Hupdate.
Qed.

End ImportFacts.

(** X22. The report of an import of documents, and of document permissions,
    accounts for every item of the backup: the total is the number of items,
    each item is counted once as created, updated, skipped or failed, and
    there is one warning for each failed item. *)
Theorem import_report_adds_up {Category Document DocumentPermission : Type}
    (document_ID : Document → string) (document_TenantID : Document → option N)
    (permission_ID : DocumentPermission → Z)
    (permission_TenantID : DocumentPermission → option N)
    unmarshalDocument unmarshalDocumentPermission
    client_GetDocument client_GetDocumentPermission
    (client_Save :
       list (@BackupService.Write Category Document DocumentPermission) →
       BackupService.Write → option error)
    RestoreMode_RESTORE_MODE_SKIP writes items tenantID full mode st :
  (Z.of_nat (length items) < 2 ^ 63)%Z →
  st = BackupService.importDocuments document_ID document_TenantID unmarshalDocument
         client_GetDocument client_Save RestoreMode_RESTORE_MODE_SKIP
         writes items tenantID full mode
  ∨ st = BackupService.importDocumentPermissions permission_ID permission_TenantID
           unmarshalDocumentPermission client_GetDocumentPermission client_Save
           RestoreMode_RESTORE_MODE_SKIP writes items tenantID full mode →
  let r := BackupService.state_result st in
  BackupService.import_Total r = Z.of_nat (length items)
  ∧ (BackupService.import_Created r + BackupService.import_Updated r
     + BackupService.import_Skipped r + BackupService.import_Failed r
     = BackupService.import_Total r)%Z
  ∧ Z.of_nat (length (BackupService.state_warnings st)) = BackupService.import_Failed r.
Proof.
  intros Hlen Hst r.
  assert (BackupService.counted (Z.of_nat (length items)) (Z.of_nat (length items)) st)
    as (Htotal & _ & _ & _ & _ & Hsum & Hwarnings).
  { destruct Hst as [-> | ->].
    - by apply importDocuments_counted.
    - by apply importDocumentPermissions_counted. }
  subst r. split_and!; [done | lia | done].
Qed.

Lemma import_report_adds_up_witness :
  let st :=
    BackupService.importDocuments FixtureBackup.idOfByte FixtureBackup.tenantOfEntity
      FixtureBackup.unmarshalByte FixtureBackup.getDocument FixtureBackup.save
      FixtureBackup.RESTORE_MODE_SKIP [] FixtureBackup.documents 3 false
      FixtureBackup.RESTORE_MODE_OVERWRITE in
  let r := BackupService.state_result st in
  BackupService.import_Total r = 3%Z
  ∧ (BackupService.import_Created r + BackupService.import_Updated r
     + BackupService.import_Skipped r + BackupService.import_Failed r
     = BackupService.import_Total r)%Z
  ∧ Z.of_nat (length (BackupService.state_warnings st)) = BackupService.import_Failed r.
Proof.
  intros st.
  apply (import_report_adds_up FixtureBackup.idOfByte FixtureBackup.tenantOfEntity
           FixtureBackup.permissionID FixtureBackup.tenantOfEntity
           FixtureBackup.unmarshalByte FixtureBackup.unmarshalByte
           FixtureBackup.getDocument FixtureBackup.getDocumentPermission
           FixtureBackup.save FixtureBackup.RESTORE_MODE_SKIP [] FixtureBackup.documents
           3%N false FixtureBackup.RESTORE_MODE_OVERWRITE st).
  - vm_compute. reflexivity.
  - left. reflexivity.
Defined.

(** X23. The report of an import of categories has a gap when the parents of
    the categories do not form a forest. With unique ids the import returns,
    its total is the number of items, and the created, updated, skipped and
    failed items add up to the total exactly when every category that
    unmarshals has a chain of parents that ends in a root; otherwise they
    fall short of the total, while there is still one warning for each failed
    item only. *)
Theorem import_categories_adds_up_iff_forest {Category Document DocumentPermission : Type}
    (category_ID : Category → string) (category_TenantID : Category → option N)
    (category_ParentID : Category → option string)
    unmarshalCategory client_GetCategory
    (client_Save :
       list (@BackupService.Write Category Document DocumentPermission) →
       BackupService.Write → option error)
    RestoreMode_RESTORE_MODE_SKIP fuel writes items tenantID full mode :
  let entities := BackupService.categoriesOf unmarshalCategory items in
  NoDup (category_ID <$> entities) →
  (length entities < fuel)%nat →
  (Z.of_nat (length items) < 2 ^ 63)%Z →
  ∃ st,
    BackupService.importCategories category_ID category_TenantID category_ParentID
      unmarshalCategory client_GetCategory client_Save RestoreMode_RESTORE_MODE_SKIP
      fuel writes items tenantID full mode = Some st
    ∧ let r := BackupService.state_result st in
      BackupService.import_Total r = Z.of_nat (length items)
      ∧ Z.of_nat (length (BackupService.state_warnings st)) = BackupService.import_Failed r
      ∧ (BackupService.import_Created r + BackupService.import_Updated r
         + BackupService.import_Skipped r + BackupService.import_Failed r
         ≤ BackupService.import_Total r)%Z
      ∧ ((BackupService.import_Created r + BackupService.import_Updated r
          + BackupService.import_Skipped r + BackupService.import_Failed r
          = BackupService.import_Total r)%Z
         ↔ ∀ x, x ∈ entities →
                ∃ chain,
                  chainToRoot category_ID
                    (λ e, default EmptyString (category_ParentID e)) entities chain x).
Proof.
  intros entities Huniq Hfuel Hlen. subst entities.
  destruct (importCategories_sorted category_ID category_TenantID category_ParentID
              unmarshalCategory client_GetCategory client_Save
              RestoreMode_RESTORE_MODE_SKIP fuel writes items tenantID full mode
              Huniq Hfuel)
    as (st & sorted & Hst & Hnd & Hmem & Hcounted & _).
  destruct (Hcounted Hlen) as (Htotal & _ & _ & _ & _ & Hsum & Hwarnings).
  assert (∀ x, x ∈ sorted → x ∈ BackupService.categoriesOf unmarshalCategory items) as Hsub.
  { intros x [chain Hchain]%Hmem. by eapply chainToRoot_item. }
  assert (length sorted ≤ length (BackupService.categoriesOf unmarshalCategory items))%nat
    as Hle by by apply submseteq_length, NoDup_submseteq.
  pose proof (entitiesOf_length unmarshalCategory items) as Hitems.
  exists st. split; [done|]. cbv zeta. split_and!; [done | done | lia |].
  rewrite Hsum, Htotal. split.
  - intros Heq x Hx. apply Hmem.
    assert (sorted ≡ₚ BackupService.categoriesOf unmarshalCategory items) as Hperm.
    { apply submseteq_length_Permutation; [by apply NoDup_submseteq | lia]. }
    by rewrite Hperm.
  - intros Hforest.
    assert (length (BackupService.categoriesOf unmarshalCategory items) ≤ length sorted)%nat;
      [|lia].
    apply submseteq_length, NoDup_submseteq.
    + by apply (NoDup_fmap_1 category_ID).
    + intros x Hx. by apply Hmem, Hforest.
Qed.

Lemma import_categories_adds_up_iff_forest_witness :
  ∃ st,
    BackupService.importCategories FixtureBackup.categoryID FixtureBackup.tenantOfEntity
      FixtureBackup.categoryParentID FixtureBackup.unmarshalCategory
      FixtureBackup.getCategory FixtureBackup.save FixtureBackup.RESTORE_MODE_SKIP
      5 [] FixtureBackup.categories 3 false FixtureBackup.RESTORE_MODE_OVERWRITE = Some st
    ∧ BackupService.import_Total (BackupService.state_result st) = 5%Z
    ∧ (BackupService.import_Created (BackupService.state_result st)
       + BackupService.import_Updated (BackupService.state_result st)
       + BackupService.import_Skipped (BackupService.state_result st)
       + BackupService.import_Failed (BackupService.state_result st) = 3)%Z.
Proof.
  destruct (import_categories_adds_up_iff_forest (Document := Byte.byte)
              (DocumentPermission := Byte.byte)
              FixtureBackup.categoryID FixtureBackup.tenantOfEntity
              FixtureBackup.categoryParentID FixtureBackup.unmarshalCategory
              FixtureBackup.getCategory FixtureBackup.save FixtureBackup.RESTORE_MODE_SKIP
              5 [] FixtureBackup.categories 3%N false FixtureBackup.RESTORE_MODE_OVERWRITE)
    as (st & Hst & Htotal & _).
  - apply (bool_decide_unpack _). vm_compute. exact I.
  - vm_compute. lia.
  - vm_compute. reflexivity.
  - exists st. split; [exact Hst|]. split; [exact Htotal|].
    revert Hst. vm_compute. by intros [= <-].
Defined.

(** X24. A restore by a caller who is no platform administrator creates rows
    in the tenant of the caller only, whatever tenant the backup and its
    entities name; the restore returns when the ids of the categories of the
    backup are unique. *)
Theorem import_creates_in_own_tenant {Category Document DocumentPermission : Type}
    (category_ID : Category → string) (category_TenantID : Category → option N)
    (category_ParentID : Category → option string)
    (document_ID : Document → string) (document_TenantID : Document → option N)
    (permission_ID : DocumentPermission → Z)
    (permission_TenantID : DocumentPermission → option N)
    unmarshalCategory unmarshalDocument unmarshalDocumentPermission unmarshalBackup
    client_GetCategory client_GetDocument client_GetDocumentPermission client_Save
    RestoreMode_RESTORE_MODE_SKIP fuel tenantID req_Mode req_Data backup :
  let entities :=
    BackupService.categoriesOf unmarshalCategory
      (BackupService.data_Categories (BackupService.backup_Data backup)) in
  unmarshalBackup req_Data = inl backup →
  NoDup (category_ID <$> entities) →
  (length entities < fuel)%nat →
  ∃ out writes,
    BackupService.ImportBackup category_ID category_TenantID category_ParentID document_ID
      document_TenantID permission_ID permission_TenantID unmarshalCategory
      unmarshalDocument unmarshalDocumentPermission unmarshalBackup client_GetCategory
      client_GetDocument client_GetDocumentPermission client_Save
      RestoreMode_RESTORE_MODE_SKIP fuel tenantID false req_Mode req_Data
    = Some (out, writes)
    ∧ ∀ write tid,
        write ∈ writes → BackupService.createdIn write = Some tid → tid = tenantID.
Proof.
  intros entities Hbackup Huniq Hfuel.
  destruct (ImportBackup_writes category_ID category_TenantID category_ParentID document_ID
              document_TenantID permission_ID permission_TenantID unmarshalCategory
              unmarshalDocument unmarshalDocumentPermission client_GetCategory
              client_GetDocument client_GetDocumentPermission client_Save
              RestoreMode_RESTORE_MODE_SKIP unmarshalBackup
              (λ write, ∀ tid, BackupService.createdIn write = Some tid → tid = tenantID)
              fuel tenantID false req_Mode req_Data backup Hbackup Huniq Hfuel)
    as (out & writes & Heq & Hwrites).
  - by intros _ [] ? ?.
  - intros Hfull write tenantOfEntity Hwrite tid. rewrite Hwrite. intros [= <-].
    rewrite andb_true_r in Hfull. by rewrite Hfull.
  - exists out, writes. split; [done|]. intros write tid Hin.
    by apply (proj1 (Forall_forall _ _) Hwrites).
Qed.

Lemma import_creates_in_own_tenant_witness :
  ∃ out writes,
    BackupService.ImportBackup FixtureBackup.categoryID FixtureBackup.tenantOfEntity
      FixtureBackup.categoryParentID FixtureBackup.idOfByte FixtureBackup.tenantOfEntity
      FixtureBackup.permissionID FixtureBackup.tenantOfEntity
      FixtureBackup.unmarshalCategory FixtureBackup.unmarshalByte
      FixtureBackup.unmarshalByte FixtureBackup.unmarshalBackup FixtureBackup.getCategory
      FixtureBackup.getDocument FixtureBackup.getDocumentPermission FixtureBackup.save
      FixtureBackup.RESTORE_MODE_SKIP 5 3 false FixtureBackup.RESTORE_MODE_OVERWRITE
      [Byte.x00]
    = Some (out, writes)
    ∧ ∀ write tid,
        write ∈ writes → BackupService.createdIn write = Some tid → tid = 3%N.
Proof.
  eapply (import_creates_in_own_tenant FixtureBackup.categoryID FixtureBackup.tenantOfEntity
            FixtureBackup.categoryParentID FixtureBackup.idOfByte
            FixtureBackup.tenantOfEntity FixtureBackup.permissionID
            FixtureBackup.tenantOfEntity FixtureBackup.unmarshalCategory
            FixtureBackup.unmarshalByte FixtureBackup.unmarshalByte
            FixtureBackup.unmarshalBackup FixtureBackup.getCategory
            FixtureBackup.getDocument FixtureBackup.getDocumentPermission
            FixtureBackup.save FixtureBackup.RESTORE_MODE_SKIP 5 3%N
            FixtureBackup.RESTORE_MODE_OVERWRITE [Byte.x00]).
  - reflexivity.
  - apply (bool_decide_unpack _). vm_compute. exact I.
  - vm_compute. lia.
Defined.

(** X25. A restore in the mode that skips existing rows updates nothing: every
    write that it tries is a create. *)
Theorem import_skip_mode_never_updates {Category Document DocumentPermission : Type}
    (category_ID : Category → string) (category_TenantID : Category → option N)
    (category_ParentID : Category → option string)
    (document_ID : Document → string) (document_TenantID : Document → option N)
    (permission_ID : DocumentPermission → Z)
    (permission_TenantID : DocumentPermission → option N)
    unmarshalCategory unmarshalDocument unmarshalDocumentPermission unmarshalBackup
    client_GetCategory client_GetDocument client_GetDocumentPermission client_Save
    RestoreMode_RESTORE_MODE_SKIP fuel tenantID isPlatformAdmin req_Data backup :
  let entities :=
    BackupService.categoriesOf unmarshalCategory
      (BackupService.data_Categories (BackupService.backup_Data backup)) in
  unmarshalBackup req_Data = inl backup →
  NoDup (category_ID <$> entities) →
  (length entities < fuel)%nat →
  ∃ out writes,
    BackupService.ImportBackup category_ID category_TenantID category_ParentID document_ID
      document_TenantID permission_ID permission_TenantID unmarshalCategory
      unmarshalDocument unmarshalDocumentPermission unmarshalBackup client_GetCategory
      client_GetDocument client_GetDocumentPermission client_Save
      RestoreMode_RESTORE_MODE_SKIP fuel tenantID isPlatformAdmin
      RestoreMode_RESTORE_MODE_SKIP req_Data
    = Some (out, writes)
    ∧ ∀ write, write ∈ writes → BackupService.isUpdate write = false.
Proof.
  intros entities Hbackup Huniq Hfuel.
  destruct (ImportBackup_writes category_ID category_TenantID category_ParentID document_ID
              document_TenantID permission_ID permission_TenantID unmarshalCategory
              unmarshalDocument unmarshalDocumentPermission client_GetCategory
              client_GetDocument client_GetDocumentPermission client_Save
              RestoreMode_RESTORE_MODE_SKIP unmarshalBackup
              (λ write, BackupService.isUpdate write = false)
              fuel tenantID isPlatformAdmin RestoreMode_RESTORE_MODE_SKIP req_Data backup
              Hbackup Huniq Hfuel)
    as (out & writes & Heq & Hwrites).
  - done.
  - intros _ write tenantOfEntity Hwrite. by destruct write.
  - exists out, writes. split; [done|]. by apply Forall_forall.
Qed.

Lemma import_skip_mode_never_updates_witness :
  ∃ out writes,
    BackupService.ImportBackup FixtureBackup.categoryID FixtureBackup.tenantOfEntity
      FixtureBackup.categoryParentID FixtureBackup.idOfByte FixtureBackup.tenantOfEntity
      FixtureBackup.permissionID FixtureBackup.tenantOfEntity
      FixtureBackup.unmarshalCategory FixtureBackup.unmarshalByte
      FixtureBackup.unmarshalByte FixtureBackup.unmarshalBackup FixtureBackup.getCategory
      FixtureBackup.getDocument FixtureBackup.getDocumentPermission FixtureBackup.save
      FixtureBackup.RESTORE_MODE_SKIP 5 3 true FixtureBackup.RESTORE_MODE_SKIP
      [Byte.x01]
    = Some (out, writes)
    ∧ ∀ write, write ∈ writes → BackupService.isUpdate write = false.
Proof.
  eapply (import_skip_mode_never_updates FixtureBackup.categoryID
            FixtureBackup.tenantOfEntity FixtureBackup.categoryParentID
            FixtureBackup.idOfByte FixtureBackup.tenantOfEntity FixtureBackup.permissionID
            FixtureBackup.tenantOfEntity FixtureBackup.unmarshalCategory
            FixtureBackup.unmarshalByte FixtureBackup.unmarshalByte
            FixtureBackup.unmarshalBackup FixtureBackup.getCategory
            FixtureBackup.getDocument FixtureBackup.getDocumentPermission
            FixtureBackup.save FixtureBackup.RESTORE_MODE_SKIP 5 3%N true [Byte.x01]).
  - reflexivity.
  - apply (bool_decide_unpack _). vm_compute. exact I.
  - vm_compute. lia.
Defined.

(** ** Listing documents *)

Lemma CanReadDocument_returns e now categories fuel tenantID userID documentID :
  hierarchyWithin e tenantID categories →
  (size categories < fuel)%nat →
  is_Some (CanReadDocument e now fuel tenantID userID documentID).
Proof.
  intros Hw Hfuel. unfold CanReadDocument, CanRead.
  by destruct (Check_terminates e now categories fuel
                 {| check_TenantID := tenantID; check_UserID := userID;
                    check_ResourceType := ResourceTypeDocument;
                    check_ResourceID := documentID;
                    check_Permission := PermissionRead |} Hw Hfuel) as [r ->].
Qed.

Lemma CanReadCategory_returns e now categories fuel tenantID userID categoryID :
  hierarchyWithin e tenantID categories →
  (size categories < fuel)%nat →
  is_Some (CanReadCategory e now fuel tenantID userID categoryID).
Proof.
  intros Hw Hfuel. unfold CanReadCategory, CanRead.
  by destruct (Check_terminates e now categories fuel
                 {| check_TenantID := tenantID; check_UserID := userID;
                    check_ResourceType := ResourceTypeCategory;
                    check_ResourceID := categoryID;
                    check_Permission := PermissionRead |} Hw Hfuel) as [r ->].
Qed.

Section ListingFacts.

Import DocumentListing.

Context {Document Proto : Type}.
Variable document_ID : Document → string.
Variable documentRepo_ToProtoWithCategoryPath : Document → Proto * option error.
Variable e : Engine.
Variable now : Time.
Variable fuel : nat.
Variable tenantID : N.
Variable userID : string.

Hypothesis checks_return :
  ∀ documentID, is_Some (CanReadDocument e now fuel tenantID userID documentID).

(** The loop returns; when it returns messages, they are the messages of
    the readable documents, in their order, after those it started with. *)
Lemma protoDocumentsLoop_filter (documents : list Document) :
  ∀ protoDocuments,
    ∃ out,
      protoDocumentsLoop document_ID documentRepo_ToProtoWithCategoryPath e now fuel
        tenantID userID documents protoDocuments = Some out
      ∧ ∀ protoDocuments',
          out = inl protoDocuments' →
          protoDocuments'
          = protoDocuments
            ++ List.map (λ doc, (documentRepo_ToProtoWithCategoryPath doc).1)
                 (filter (readableDocument document_ID e now fuel tenantID userID) documents).
Proof.
  induction documents as [|doc documents IH]; intros protoDocuments; simpl.
  { eexists. split; [done|]. intros ? [= <-]. by rewrite app_nil_r. }
  destruct (checks_return (document_ID doc)) as [answer Hanswer]. rewrite Hanswer.
  destruct answer as [err|].
  - destruct (IH protoDocuments) as (out & -> & Hout). exists out. split; [done|].
    intros protoDocuments' Heq. rewrite filter_cons_False; [by apply Hout|].
    unfold readableDocument. by rewrite Hanswer.
  - destruct (documentRepo_ToProtoWithCategoryPath doc) as [proto [err|]] eqn:Hproto.
    { eexists. split; [done|]. by intros ? [=]. }
    destruct (IH (protoDocuments ++ [proto])) as (out & -> & Hout). exists out.
    split; [done|]. intros protoDocuments' Heq.
    rewrite filter_cons_True by done. simpl. rewrite Hproto. simpl.
    rewrite (Hout _ Heq). by rewrite <- app_assoc.
Qed.

End ListingFacts.

(** X26. A listing of documents returns messages of documents that the user
    may read only: the documents of the response are those of the page of the
    repository that pass the read check, in the order of the page, and a
    listing by category needs the read permission on the category. The total
    of the response is the total of the repository all the same: it counts the
    documents that the filter has removed. *)
Theorem list_documents_only_readable {Document Proto Filters : Type}
    (document_ID : Document → string) ErrorAccessDenied
    DocumentStatus_DOCUMENT_STATUS_UNSPECIFIED DocumentStatus_String
    documentRepo_List
    (documentRepo_ToProtoWithCategoryPath : Document → Proto * option error)
    e now categories fuel tenantID userID (req : @DocumentListing.ListDocumentsRequest Filters) :
  hierarchyWithin e tenantID categories →
  (size categories < fuel)%nat →
  ∃ out,
    DocumentListing.ListDocuments document_ID ErrorAccessDenied
      DocumentStatus_DOCUMENT_STATUS_UNSPECIFIED DocumentStatus_String documentRepo_List
      documentRepo_ToProtoWithCategoryPath e now fuel tenantID userID req = Some out
    ∧ ∀ response,
        out = inl response →
        ∃ documents total,
          DocumentListing.listPage DocumentStatus_DOCUMENT_STATUS_UNSPECIFIED
            DocumentStatus_String documentRepo_List tenantID req
          = (documents, total, None)
          ∧ DocumentListing.response_Documents response
            = List.map (λ doc, (documentRepo_ToProtoWithCategoryPath doc).1)
                (filter
                   (DocumentListing.readableDocument document_ID e now fuel tenantID userID)
                   documents)
          ∧ DocumentListing.response_Total response = PermissionService.uint32 total
          ∧ ∀ categoryId,
              DocumentListing.req_CategoryId req = Some categoryId →
              categoryId ≠ EmptyString →
              readable e now fuel tenantID userID categoryId.
Proof.
  intros Hw Hfuel. unfold DocumentListing.ListDocuments.
  set (categoryCheck :=
         match DocumentListing.req_CategoryId req with
         | Some categoryId =>
             if negb (String.eqb categoryId EmptyString)
             then CanReadCategory e now fuel tenantID userID categoryId
             else Some None
         | None => Some None
         end).
  assert (∃ answer,
            categoryCheck = Some answer
            ∧ (answer = None →
               ∀ categoryId,
                 DocumentListing.req_CategoryId req = Some categoryId →
                 categoryId ≠ EmptyString →
                 readable e now fuel tenantID userID categoryId))
    as (answer & -> & Hcategory).
  { subst categoryCheck. destruct (DocumentListing.req_CategoryId req) as [categoryId|].
    - destruct (String.eqb_spec categoryId EmptyString) as [-> | Hne]; simpl.
      + exists None. split; [done|]. by intros _ ? [= <-].
      + destruct (CanReadCategory_returns e now categories fuel tenantID userID categoryId
                    Hw Hfuel) as [answer Hanswer].
        exists answer. split; [done|]. intros -> ? [= <-] _. exact Hanswer.
    - exists None. split; [done|]. by intros _ ? [=]. }
  destruct answer as [err|]; [by eexists; split; [done|]; intros ? [=]|].
  destruct (DocumentListing.listPage _ _ _ _ _) as [[documents total] [err|]] eqn:Hpage;
    [by eexists; split; [done|]; intros ? [=]|].
  destruct (protoDocumentsLoop_filter document_ID documentRepo_ToProtoWithCategoryPath
              e now fuel tenantID userID
              (λ documentID, CanReadDocument_returns e now categories fuel tenantID userID
                               documentID Hw Hfuel)
              documents [])
    as (out & -> & Hout).
  destruct out as [protoDocuments|err]; [|by eexists; split; [done|]; intros ? [=]].
  eexists. split; [done|]. intros response [= <-].
  exists documents, total. split_and!; [done | | done | by apply Hcategory].
  simpl. by rewrite (Hout _ eq_refl).
Qed.

Lemma list_documents_only_readable_witness :
  DocumentListing.ListDocuments id (λ message, message) 0%Z (λ _, "DOCUMENT_STATUS_ACTIVE")
    FixtureListing.listAll FixtureListing.toProto FixtureBatch.owner 0%Z 1 1 "U"
    FixtureListing.request
  = Some (inl {| DocumentListing.response_Documents := ["a"; "b"];
                 DocumentListing.response_Total := 3 |}).
Proof.
  destruct (list_documents_only_readable id (λ message, message) 0%Z
              (λ _, "DOCUMENT_STATUS_ACTIVE") FixtureListing.listAll FixtureListing.toProto
              FixtureBatch.owner 0%Z
              (map_img (∅ : gmap string string) ∪ map_img (∅ : gmap string string))
              1 1 "U" FixtureListing.request)
    as (out & Heq & _).
  - apply memoryLookup_within.
  - vm_compute. lia.
  - rewrite Heq. revert Heq. vm_compute. by intros [= <-].
Defined.
